(** * Interactive data cleaner ([app.py]): a shallow embedding

    The script keeps a pandas [DataFrame] in Streamlit's session state,
    shows a quality report computed from it (missing cells, duplicate rows,
    cells with surrounding whitespace) and offers buttons that clean the
    frame in place, log what they did, reset everything, and export.

    The embedding follows the script top to bottom.  The pandas calls it
    makes are modelled by their documented behaviour (pandas 1.x / 2.x,
    without copy-on-write), each next to the line that uses it. *)

From Stdlib Require Import Ascii QArith.
From stdpp Require Import base decidable option list sorting strings numbers gmap pretty.

(** ** float64 values

    The script never computes on numbers itself: it asks pandas for a mean
    or a median and prints the answer.  Floating-point arithmetic is kept
    abstract: [num] stands for the non-NaN float64 values (NaN is a cell of
    its own below), and the operations pandas supplies are fields.  So is
    the way the CSV parser recognises numbers. *)

Class Float64 := {
  num : Type;
  num_eq_dec :: EqDecision num;
  (** [<] on floats, used when an object array is sorted *)
  num_ltb : num → num → bool;
  (** int64 / bool to float64 *)
  num_of_Z : Z → num;
  (** [Series.mean()] and [Series.median()] over the non-missing values;
      [None] is a NaN result (nothing to average, or inf - inf) *)
  nanmean : list num → option num;
  nanmedian : list num → option num;
  (** [f"{val:.2f}"] and [str(val)] *)
  format_2f : num → string;
  str_float : num → string;
  (** the number readers of the CSV parser: what a field is read as when
      it is an integer, respectively a float *)
  int_of_token : string → option Z;
  float_of_token : string → option num;
}.

(** ** Cells, columns, frames *)

Section Cells.
Context `{Float64}.

(** What a cell of a frame read by [pd.read_csv] can hold.  [NaN] is the
    missing marker ([pd.isnull]). *)
Inductive cell :=
  | NaN
  | Int (z : Z)
  | Num (x : num)
  | Str (s : string)
  | Bool (b : bool).

#[export] Instance cell_eq_dec : EqDecision cell.
Proof. solve_decision. Defined.

(** The dtypes [read_csv] infers. *)
Inductive dtype := int64 | float64 | bool_ | object_.

#[export] Instance dtype_eq_dec : EqDecision dtype.
Proof. solve_decision. Defined.

Record series := Series {
  name : string;
  dty : dtype;
  values : list cell;
}.

#[export] Instance series_eq_dec : EqDecision series.
Proof. solve_decision. Defined.

End Cells.

(** A frame is its columns, in order; a row is the tuple of its cells. *)
Abbreviation dataframe := (list series).
Abbreviation row := (list cell).

Section Frame.
Context `{Float64}.

(** [len(df)], [df.shape[0]] *)
Definition nrows (d : dataframe) : nat :=
  match d with
  | [] => 0
  | c :: _ => length (values c)
  end.

(** Every column has the frame's row count and column labels are unique
    ([read_csv] renames repeated labels). *)
Definition wf_frame (d : dataframe) : Prop :=
  Forall (λ c, length (values c) = nrows d) d ∧ NoDup (name <$> d).

(** The [i]-th row as the tuple of its cells. *)
Definition row_at (d : dataframe) (i : nat) : row :=
  (λ c, default NaN (values c !! i)) <$> d.

Definition rows (d : dataframe) : list row :=
  row_at d <$> seq 0 (nrows d).

(** Boolean indexing [df[mask]]: keep the rows whose flag is set. *)
Fixpoint select {A} (mask : list bool) (l : list A) : list A :=
  match mask, l with
  | b :: mask', x :: l' => if b then x :: select mask' l' else select mask' l'
  | _, _ => []
  end.

Definition select_rows (mask : list bool) (d : dataframe) : dataframe :=
  (λ c, Series (name c) (dty c) (select mask (values c))) <$> d.

(** [pd.isnull(x)] / [pd.notnull(x)] *)
Definition isnull (x : cell) : bool :=
  match x with NaN => true | _ => false end.

Definition notnull (x : cell) : bool := negb (isnull x).

(** [mask.sum()] *)
Definition count_true (mask : list bool) : nat :=
  length (filter (λ b, b = true) mask).

(** ** Python strings *)

(** [str.isspace] on the code points below 256. *)
Definition isspace (a : ascii) : bool :=
  let n := nat_of_ascii a in
  (((9 <=? n) && (n <=? 13)) || ((28 <=? n) && (n <=? 32))
  || (n =? 133) || (n =? 160))%nat.

Fixpoint lstrip_chars (l : list ascii) : list ascii :=
  match l with
  | a :: l' => if isspace a then lstrip_chars l' else l
  | [] => []
  end.

Definition strip_chars (l : list ascii) : list ascii :=
  rev (lstrip_chars (rev (lstrip_chars l))).

(** [s.strip()] *)
Definition strip (s : string) : string :=
  String.string_of_list_ascii (strip_chars (String.list_ascii_of_string s)).

(** [str(x)] for a cell. *)
Definition py_str (x : cell) : string :=
  match x with
  | NaN => "nan"
  | Int z => pretty z
  | Num v => str_float v
  | Str s => s
  | Bool true => "True"
  | Bool false => "False"
  end.

(** ** Data quality report (lines 38-60) *)

(** [df.isnull().sum()]: missing cells per column. *)
Definition missing_data (d : dataframe) : list (string * nat) :=
  (λ c, (name c, count_true (isnull <$> values c))) <$> d.

(** [missing_data.sum()] *)
Definition total_missing (d : dataframe) : nat :=
  sum_list (snd <$> missing_data d).

(** [DataFrame.duplicated()] with [keep='first']: a row is flagged when an
    equal row was seen before it.  Rows are compared as whole tuples and
    two missing cells compare equal. *)
Fixpoint duplicated_from (seen : list row) (rs : list row) : list bool :=
  match rs with
  | [] => []
  | r :: rs' => bool_decide (r ∈ seen) :: duplicated_from (r :: seen) rs'
  end.

Definition duplicated (d : dataframe) : list bool :=
  duplicated_from [] (rows d).

(** line 48 *)
Definition duplicate_count (d : dataframe) : nat :=
  count_true (duplicated d).

(** [select_dtypes(include=['object']).columns] *)
Definition string_cols (d : dataframe) : list string :=
  name <$> filter (λ c, dty c = object_) d.

(** The lambda of line 57. *)
Definition has_whitespace_issue (x : cell) : bool :=
  if notnull x
  then negb (String.length (py_str x) =? String.length (strip (py_str x)))%nat
  else false.

(** [df[col]]: the column labelled [col]. *)
Definition get_col (col : string) (d : dataframe) : option series :=
  list_find (λ c, name c = col) d ≫= λ p, Some p.2.

(** lines 55-57 *)
Definition whitespace_issues (d : dataframe) : nat :=
  foldl (λ acc col,
           acc + match get_col col d with
                 | Some c => count_true (has_whitespace_issue <$> values c)
                 | None => 0
                 end)
        0 (string_cols d).

(** ** The pandas calls of the cleaning handlers *)

(** What a failing pandas call raises. *)
Inductive exn := TypeError | KeyError | AttributeError.

#[export] Instance exn_eq_dec : EqDecision exn.
Proof. solve_decision. Defined.

(** [df[col] = vs]: the column labelled [col] gets new contents. *)
Definition setitem (col : string) (ty : dtype) (vs : list cell)
    (d : dataframe) : dataframe :=
  (λ c, if decide (name c = col) then Series (name c) ty vs else c) <$> d.

(** [drop_duplicates()] is [df[~df.duplicated()]]. *)
Definition drop_duplicates (d : dataframe) : dataframe :=
  select_rows (negb <$> duplicated d) d.

(** [dropna(subset=[col])]: keep the rows whose [col] cell is present. *)
Definition dropna (col : string) (d : dataframe) : exn + dataframe :=
  match get_col col d with
  | None => inl KeyError
  | Some c => inr (select_rows (notnull <$> values c) d)
  end.

(** [pd.api.types.is_numeric_dtype] *)
Definition is_numeric_dtype (ty : dtype) : bool :=
  match ty with
  | int64 | float64 | bool_ => true
  | object_ => false
  end.

(** The non-missing values of a column as floats, when all of them are
    numbers; text makes a numeric reduction raise [TypeError]. *)
Fixpoint numeric_values (vs : list cell) : option (list num) :=
  match vs with
  | [] => Some []
  | NaN :: vs' => numeric_values vs'
  | Int z :: vs' => (num_of_Z z ::.) <$> numeric_values vs'
  | Num x :: vs' => (x ::.) <$> numeric_values vs'
  | Bool b :: vs' => (num_of_Z (if b then 1 else 0) ::.) <$> numeric_values vs'
  | Str _ :: _ => None
  end.

Definition of_float (r : option num) : cell :=
  match r with
  | Some x => Num x
  | None => NaN
  end.

(** [Series.mean()] and [Series.median()], skipping missing cells. *)
Definition series_mean (c : series) : exn + cell :=
  match numeric_values (values c) with
  | Some xs => inr (of_float (nanmean xs))
  | None => inl TypeError
  end.

Definition series_median (c : series) : exn + cell :=
  match numeric_values (values c) with
  | Some xs => inr (of_float (nanmedian xs))
  | None => inl TypeError
  end.

(** [value_counts] with [dropna]: the distinct non-missing values in order
    of first appearance, each with its number of occurrences. *)
Fixpoint bump (x : cell) (t : list (cell * nat)) : list (cell * nat) :=
  match t with
  | [] => [(x, 1)]
  | (y, n) :: t' => if decide (x = y) then (y, S n) :: t' else (y, n) :: bump x t'
  end.

Definition value_count (vs : list cell) : list (cell * nat) :=
  foldl (λ t x, if isnull x then t else bump x t) [] vs.

(** The hashtable pass of [mode]: the keys that reach the largest count,
    in table order. *)
Definition max_count (t : list (cell * nat)) : nat :=
  foldr (λ p m, p.2 `max` m) 0 t.

Definition htable_mode (vs : list cell) : list cell :=
  let t := value_count vs in
  fst <$> filter (λ p, p.2 = max_count t) t.

Definition is_str (x : cell) : bool :=
  match x with Str _ => true | _ => false end.

Definition the_str (x : cell) : string :=
  match x with Str s => s | _ => "" end.

Definition str_le (s1 s2 : string) : Prop := String.leb s1 s2 = true.

#[export] Instance str_le_dec s1 s2 : Decision (str_le s1 s2).
Proof. unfold str_le. apply _. Defined.

(** Python's [<=] between numbers ([bool] is an [int]). *)
Definition num_le (a b : cell) : Prop :=
  match a, b with
  | Int x, Int y => (x ≤ y)%Z
  | Int x, Bool y => (x ≤ (if y then 1 else 0))%Z
  | Bool x, Int y => ((if x then 1 else 0) ≤ y)%Z
  | Bool x, Bool y => ((if x then 1 else 0) ≤ (if y then 1 else 0))%Z
  | Int x, Num y => num_ltb y (num_of_Z x) = false
  | Bool x, Num y => num_ltb y (num_of_Z (if x then 1 else 0)) = false
  | Num x, Int y => num_ltb (num_of_Z y) x = false
  | Num x, Bool y => num_ltb (num_of_Z (if y then 1 else 0)) x = false
  | Num x, Num y => num_ltb y x = false
  | _, _ => True
  end.

#[export] Instance num_le_dec a b : Decision (num_le a b).
Proof. destruct a, b; simpl; apply _. Defined.

(** [np.sort] of an object array: text sorts by code point, numbers by
    value, and comparing text with a number raises [TypeError]. *)
Definition np_sort (l : list cell) : option (list cell) :=
  if forallb is_str l then Some (Str <$> merge_sort str_le (the_str <$> l))
  else if existsb is_str l then None
  else Some (merge_sort num_le l).

(** [Series.mode()]: the most frequent values, sorted when they can be
    ("Unable to sort modes" is only a warning). *)
Definition series_mode (c : series) : list cell :=
  let m := htable_mode (values c) in
  match np_sort m with
  | Some sorted => sorted
  | None => m
  end.

(** The kinds of values an object array can hold. *)
Definition is_int (x : cell) : bool :=
  match x with Int _ => true | _ => false end.

Definition is_float (x : cell) : bool :=
  match x with Num _ => true | _ => false end.

Definition is_bool (x : cell) : bool :=
  match x with Bool _ => true | _ => false end.

(** The dtype a column has after [val] was written into it. *)
Definition upcast (ty : dtype) (val : cell) : dtype :=
  match ty, val with
  | object_, _ => object_
  | _, (Str _ | Bool _) => object_
  | _, _ => float64
  end.

(** After a fill, pandas converts an object block again
    ([Block.convert]): a column left with truth values only, with integers
    only or with floats only gets that dtype; anything else stays an
    object column.  (A column of integers next to floats would be turned
    into floats; no run makes one, since integers sit in int64 columns,
    which have no missing cell to fill, and it is left an object column
    here.) *)
Definition soft_convert (vs : list cell) : dtype :=
  match vs with
  | [] => object_
  | _ =>
      if forallb is_bool vs then bool_
      else if forallb is_int vs then int64
      else if forallb is_float vs then float64
      else object_
  end.

(** [Series.fillna(val)]: every missing cell becomes [val]; filling with
    NaN, or a column without missing cells, changes nothing. *)
Definition fillna (val : cell) (c : series) : series :=
  if isnull val then c
  else if existsb isnull (values c)
  then let filled := (λ x, if isnull x then val else x) <$> values c in
       Series (name c)
              (match upcast (dty c) val with
               | object_ => soft_convert filled
               | ty => ty
               end)
              filled
  else c.

(** [df[col].fillna(val, inplace=True)]: the filled column is written
    back into the frame. *)
Definition fillna_inplace (col : string) (val : cell) (d : dataframe) : dataframe :=
  (λ c, if decide (name c = col) then fillna val c else c) <$> d.

(** [lib.infer_dtype(values, skipna=True)] on an object array. *)
Definition infer_dtype (vs : list cell) : string :=
  let present := filter (λ x, notnull x = true) vs in
  let mixed := if existsb is_int present then "mixed-integer" else "mixed" in
  match present with
  | [] => "empty"
  | Int _ :: _ =>
      if forallb is_int present then "integer"
      else if forallb (λ x, is_int x || is_float x) present
           then "mixed-integer-float"
           else "mixed-integer"
  | Num _ :: _ =>
      if forallb is_float present then "floating"
      else if forallb (λ x, is_int x || is_float x) present
           then "mixed-integer-float"
           else mixed
  | Bool _ :: _ => if forallb is_bool present then "boolean" else mixed
  | Str _ :: _ => if forallb is_str present then "string" else mixed
  | NaN :: _ => "empty"
  end.

(** The [.str] accessor checks what the column holds before any string
    method runs. *)
Definition str_accessor_ok (vs : list cell) : bool :=
  bool_decide (infer_dtype vs ∈ ["string"; "empty"; "bytes"; "mixed"; "mixed-integer"]).

(** [s.str.strip()]: strings are stripped, anything else comes back
    missing. *)
Definition strip_cell (x : cell) : cell :=
  match x with
  | Str s => Str (strip s)
  | _ => NaN
  end.

Definition str_strip (c : series) : exn + list cell :=
  if str_accessor_ok (values c) then inr (strip_cell <$> values c)
  else inl AttributeError.

(** ** Session state (lines 26-30)

    Frames are objects: the session holds references to two of them, and
    the handlers change the one behind [df] in place.  [objects] is the
    store of frame objects. *)

Record session_state := SessionState {
  objects : gmap nat dataframe;
  df : nat;
  original_df : nat;
  cleaning_log : list string;
}.

(** The frame a reference points to. *)
Definition deref (h : gmap nat dataframe) (l : nat) : dataframe :=
  default [] (h !! l).

(** [st.session_state.df] as a value. *)
Definition current (s : session_state) : dataframe :=
  deref (objects s) (df s).

Definition original (s : session_state) : dataframe :=
  deref (objects s) (original_df s).

(** [x.copy()]: a new object with the same contents. *)
Definition copy (l : nat) (h : gmap nat dataframe) : nat * gmap nat dataframe :=
  let l' := fresh (dom h) in
  (l', <[l' := deref h l]> h).

(** Lines 27-30, run when the session has no ['df'] yet; [d] is the frame
    [pd.read_csv] returned on line 18. *)
Definition new_session (d : dataframe) : session_state :=
  let h0 : gmap nat dataframe := {[ 0 := d ]} in
  let '(l1, h1) := copy 0 h0 in
  let '(l2, h2) := copy 0 h1 in
  SessionState h2 l1 l2 [].

Definition ensure_session (d : dataframe) (st : option session_state)
    : session_state :=
  match st with
  | None => new_session d
  | Some s => s
  end.

(** An in-place change of the frame behind [st.session_state.df]. *)
Definition mutate (f : dataframe → dataframe) (s : session_state) : session_state :=
  SessionState (<[df s := f (current s)]> (objects s))
               (df s) (original_df s) (cleaning_log s).

(** [st.session_state.cleaning_log.append(msg)] *)
Definition log_append (msg : string) (s : session_state) : session_state :=
  SessionState (objects s) (df s) (original_df s) (cleaning_log s ++ [msg]).

(** ** One run of the script

    A run is started by one widget event.  It ends normally (with or
    without [st.rerun()]), or with the exception a pandas call raised,
    in which case what was already changed in place stays changed.
    A button that the run does not render cannot be clicked. *)

Inductive outcome :=
  | Done (s : session_state)
  | Raised (e : exn) (s : session_state)
  | NotOffered.

(** Lines 67-73. *)
Definition click_remove_duplicates (s : session_state) : outcome :=
  let duplicate_count := duplicate_count (current s) in
  if bool_decide (0 < duplicate_count) then
    let s1 := mutate drop_duplicates s in
    Done (log_append ("Removed " +:+ pretty duplicate_count +:+ " duplicate rows.") s1)
  else NotOffered.

(** The loop of lines 79-80 on the frame, column after column.  When a
    column is rejected, the columns before it are already replaced. *)
Fixpoint trim_columns (cols : list string) (d : dataframe) : option exn * dataframe :=
  match cols with
  | [] => (None, d)
  | col :: cols' =>
      match get_col col d with
      | None => (Some KeyError, d)
      | Some c =>
          match str_strip c with
          | inl e => (Some e, d)
          | inr vs => trim_columns cols' (setitem col object_ vs d)
          end
      end
  end.

(** Lines 76-83. *)
Definition click_trim_whitespace (s : session_state) : outcome :=
  let string_cols := string_cols (current s) in
  let whitespace_issues := whitespace_issues (current s) in
  if bool_decide (0 < whitespace_issues) then
    let r := trim_columns string_cols (current s) in
    let s1 := mutate (λ _, r.2) s in
    match r.1 with
    | Some e => Raised e s1
    | None =>
        Done (log_append ("Trimmed whitespace in " +:+ pretty whitespace_issues
                          +:+ " cells.") s1)
    end
  else NotOffered.

(** Line 88. *)
Definition cols_with_missing (d : dataframe) : list string :=
  fst <$> filter (λ p, 0 < p.2) (missing_data d).

(** Lines 94-99. *)
Definition options (is_numeric : bool) : list string :=
  ["Select an action..."; "Delete rows with missing values"]
  ++ (if is_numeric then ["Fill with Mean"; "Fill with Median"]
      else ["Fill with Mode (Most Frequent)"])
  ++ ["Fill with Custom Value"].

(** The body of [if st.button(f"Apply to '{col}'")], lines 108-131. *)
Definition apply_action (col action : string) (custom_val : option string)
    (s : session_state) : outcome :=
  let d := current s in
  if decide (action = "Delete rows with missing values") then
    let count_before := nrows d in
    match dropna col d with
    | inl e => Raised e s
    | inr d' =>
        let s1 := mutate (λ _, d') s in
        let count_after := nrows (current s1) in
        Done (log_append ("Deleted " +:+ pretty (count_before - count_after)
                          +:+ " rows due to missing values in '" +:+ col +:+ "'.") s1)
    end
  else if decide (action = "Fill with Mean") then
    match get_col col d with
    | None => Raised KeyError s
    | Some c =>
        match series_mean c with
        | inl e => Raised e s
        | inr val =>
            let s1 := mutate (fillna_inplace col val) s in
            let shown := match val with Num x => format_2f x | _ => "nan" end in
            Done (log_append ("Filled missing values in '" +:+ col
                              +:+ "' with mean (" +:+ shown +:+ ").") s1)
        end
    end
  else if decide (action = "Fill with Median") then
    match get_col col d with
    | None => Raised KeyError s
    | Some c =>
        match series_median c with
        | inl e => Raised e s
        | inr val =>
            let s1 := mutate (fillna_inplace col val) s in
            Done (log_append ("Filled missing values in '" +:+ col
                              +:+ "' with median (" +:+ py_str val +:+ ").") s1)
        end
    end
  else if decide (action = "Fill with Mode (Most Frequent)") then
    match get_col col d with
    | None => Raised KeyError s
    | Some c =>
        match series_mode c with
        | [] => Raised KeyError s
        | val :: _ =>
            let s1 := mutate (fillna_inplace col val) s in
            Done (log_append ("Filled missing values in '" +:+ col
                              +:+ "' with mode (" +:+ py_str val +:+ ").") s1)
        end
    end
  else if decide (action = "Fill with Custom Value") then
    match custom_val with
    | Some v =>
        match get_col col d with
        | None => Raised KeyError s
        | Some _ =>
            let s1 := mutate (fillna_inplace col (Str v)) s in
            Done (log_append ("Filled missing values in '" +:+ col
                              +:+ "' with custom value: " +:+ v +:+ ".") s1)
        end
    | None => Done s
    end
  else Done s.

(** Lines 85-107 around it: the expander of [col] exists when [col] has
    missing cells; [choice] is the entry picked in its select box and
    [text] what the text input holds. *)
Definition click_apply (col : string) (choice : nat) (text : string)
    (s : session_state) : outcome :=
  let d := current s in
  if bool_decide (0 < total_missing d) then
    if bool_decide (col ∈ cols_with_missing d) then
      match get_col col d with
      | None => Raised KeyError s
      | Some c =>
          let is_numeric := is_numeric_dtype (dty c) in
          match options is_numeric !! choice with
          | None => NotOffered
          | Some action =>
              let custom_val :=
                if decide (action = "Fill with Custom Value") then Some text else None in
              apply_action col action custom_val s
          end
      end
    else NotOffered
  else NotOffered.

(** Lines 152-155. *)
Definition reset (s : session_state) : session_state :=
  let '(l, h) := copy (original_df s) (objects s) in
  SessionState h l (original_df s) [].

Definition click_reset (s : session_state) : outcome :=
  if bool_decide (cleaning_log s ≠ []) then Done (reset s) else NotOffered.

(** Line 143 onwards is below, with the CSV format. *)

Inductive event :=
  | RemoveAllDuplicates
  | TrimAllWhitespace
  | ApplyTo (col : string) (choice : nat) (text : string)
  | ResetAllChanges.

Definition run (ev : event) (s : session_state) : outcome :=
  match ev with
  | RemoveAllDuplicates => click_remove_duplicates s
  | TrimAllWhitespace => click_trim_whitespace s
  | ApplyTo col choice text => click_apply col choice text s
  | ResetAllChanges => click_reset s
  end.

(** The session after the run. *)
Definition after (o : outcome) (s : session_state) : session_state :=
  match o with
  | Done s' | Raised _ s' => s'
  | NotOffered => s
  end.

Definition run_all (evs : list event) (s : session_state) : session_state :=
  foldl (λ s ev, after (run ev s) s) s evs.

End Frame.

(** ** Export and load (lines 143 and 18)

    [to_csv(index=False)] writes the header and the rows with Python's
    [csv.writer] (comma, double quote, minimal quoting, lines ending in a
    line feed); [pd.read_csv] reads text with the parser's defaults.
    Text is handled as characters: encoding to UTF-8 on the way out and
    decoding on the way in cancel. *)

Section Csv.
Context `{Float64}.

Definition comma : ascii := ascii_of_nat 44.
Definition dquote : ascii := ascii_of_nat 34.
Definition newline : ascii := ascii_of_nat 10.
Definition carriage : ascii := ascii_of_nat 13.
Definition space : ascii := ascii_of_nat 32.
Definition tab : ascii := ascii_of_nat 9.

Definition chars (s : string) : list ascii := String.list_ascii_of_string s.
Definition text (l : list ascii) : string := String.string_of_list_ascii l.

(** *** Writing *)

(** A field is quoted when it holds the delimiter, the quote character or
    a character of the line terminator. *)
Definition special (c : ascii) : bool :=
  bool_decide (c = comma) || bool_decide (c = dquote) || bool_decide (c = newline).

Definition needs_quoting (l : list ascii) : bool := existsb special l.

(** Quote characters inside a quoted field are doubled. *)
Fixpoint escape (l : list ascii) : list ascii :=
  match l with
  | [] => []
  | c :: l' => if decide (c = dquote) then dquote :: dquote :: escape l'
               else c :: escape l'
  end.

Definition write_field (f : string) : list ascii :=
  if needs_quoting (chars f) then dquote :: escape (chars f) ++ [dquote]
  else chars f.

Fixpoint join_fields (fs : list (list ascii)) : list ascii :=
  match fs with
  | [] => []
  | [f] => f
  | f :: fs' => f ++ comma :: join_fields fs'
  end.

(** One record; a record that would be an empty line is written as a
    pair of quotes. *)
Definition write_row (fs : list string) : list ascii :=
  match join_fields (write_field <$> fs), fs with
  | [], _ :: _ => [dquote; dquote; newline]
  | l, _ => l ++ [newline]
  end.

(** The text of a cell: nothing for a missing one, [str] otherwise. *)
Definition field_of_cell (x : cell) : string :=
  if isnull x then "" else py_str x.

(** [df.to_csv(index=False)] *)
Definition to_csv (d : dataframe) : list ascii :=
  write_row (name <$> d)
  ++ concat ((λ r, write_row (field_of_cell <$> r)) <$> rows d).

(** *** Tokenizing

    The states of the parser's tokenizer that the default dialect uses.
    A carriage return outside quotes ends the line; the character after
    it decides whether a line feed is swallowed with it. *)
Inductive tstate :=
  | StartRecord
  | StartField
  | InField
  | InQuotedField
  | QuoteInQuotedField
  | WhitespaceLine
  | EatCrnl
  | EatCrnlNop.

Record tok := Tok {
  state : tstate;
  buf : list ascii;          (* the field being read *)
  line : list string;        (* the fields of the record being read *)
  lines : list (list string) (* the records read *)
}.

Definition end_field (t : tok) : list string := line t ++ [text (buf t)].

(** END_FIELD followed by END_LINE *)
Definition end_line (t : tok) : tok :=
  Tok StartRecord [] [] (lines t ++ [end_field t]).

(** END_FIELD at a carriage return; the line is ended by what follows. *)
Definition end_field_at_carriage (t : tok) : tok :=
  Tok EatCrnl [] (end_field t) (lines t).

Definition push (c : ascii) (st : tstate) (t : tok) : tok :=
  Tok st (buf t ++ [c]) (line t) (lines t).

Definition in_field (c : ascii) (t : tok) : option tok :=
  if decide (c = newline) then Some (end_line t)
  else if decide (c = carriage) then Some (end_field_at_carriage t)
  else if decide (c = comma) then Some (Tok StartField [] (end_field t) (lines t))
  else Some (push c InField t).

Definition start_field (c : ascii) (t : tok) : option tok :=
  if decide (c = newline) then Some (end_line t)
  else if decide (c = carriage) then Some (end_field_at_carriage t)
  else if decide (c = dquote) then Some (Tok InQuotedField (buf t) (line t) (lines t))
  else if decide (c = comma) then Some (Tok StartField [] (end_field t) (lines t))
  else Some (push c InField t).

Definition is_whitespace (c : ascii) : bool :=
  bool_decide (c = space) || bool_decide (c = tab).

Definition start_record (c : ascii) (t : tok) : option tok :=
  (* empty lines are skipped *)
  if decide (c = newline) then Some t
  else if decide (c = carriage) then Some (Tok EatCrnlNop (buf t) (line t) (lines t))
  else if is_whitespace c then Some (push c WhitespaceLine t)
  else start_field c t.

Definition step (t : tok) (c : ascii) : option tok :=
  match state t with
  | StartRecord => start_record c t
  | StartField => start_field c t
  | InField => in_field c t
  | InQuotedField =>
      if decide (c = dquote) then Some (Tok QuoteInQuotedField (buf t) (line t) (lines t))
      else Some (push c InQuotedField t)
  | QuoteInQuotedField =>
      if decide (c = dquote) then Some (push c InQuotedField t)
      else in_field c t
  | WhitespaceLine =>
      (* a line of blanks is skipped; anything else makes the blanks the
         start of the first field *)
      if decide (c = newline) then Some (Tok StartRecord [] [] (lines t))
      else if decide (c = carriage) then Some (Tok EatCrnlNop [] [] (lines t))
      else if is_whitespace c then Some (push c WhitespaceLine t)
      else in_field c t
  | EatCrnl =>
      (* END_LINE; a line feed goes with the carriage return, any other
         character is read again as the start of the next record *)
      let t' := Tok StartRecord [] [] (lines t ++ [line t]) in
      if decide (c = newline) then Some t'
      else start_record c t'
  | EatCrnlNop =>
      (* after the carriage return of a skipped line: a line feed or a
         delimiter is dropped, any other character is read again *)
      let t' := Tok StartRecord [] [] (lines t) in
      if decide (c = newline) then Some t'
      else if decide (c = comma) then Some t'
      else start_record c t'
  end.

Definition feed (t : tok) (input : list ascii) : option tok :=
  foldl (λ o c, o ≫= λ t, step t c) (Some t) input.

(** At the end of the input; [None] is the parser's error for the end of
    the file inside a quoted field. *)
Definition handle_eof (t : tok) : option (list (list string)) :=
  match state t with
  | StartRecord | WhitespaceLine | EatCrnlNop => Some (lines t)
  | InQuotedField => None
  | StartField | InField | QuoteInQuotedField => Some (lines (end_line t))
  | EatCrnl => Some (lines t ++ [line t])
  end.

Definition tokenize (input : list ascii) : option (list (list string)) :=
  feed (Tok StartRecord [] [] []) input ≫= handle_eof.

(** *** Converting columns *)

(** The fields read as missing. *)
Definition na_values : list string :=
  [""; "#N/A"; "#N/A N/A"; "#NA"; "-1.#IND"; "-1.#QNAN"; "-NaN"; "-nan";
   "1.#IND"; "1.#QNAN"; "<NA>"; "N/A"; "NA"; "NULL"; "NaN"; "None"; "n/a";
   "nan"; "null"].

Definition is_na (f : string) : bool := bool_decide (f ∈ na_values).

(** [tolower] and [strcasecmp] of the C locale. *)
Definition tolower (a : ascii) : ascii :=
  let n := nat_of_ascii a in
  if ((65 <=? n) && (n <=? 90))%nat then ascii_of_nat (n + 32) else a.

Fixpoint lower (s : string) : string :=
  match s with
  | EmptyString => EmptyString
  | String a s' => String (tolower a) (lower s')
  end.

(** [to_boolean] of the tokenizer: TRUE and FALSE in any letter case. *)
Definition to_boolean (f : string) : option bool :=
  if decide (lower f = "true") then Some true
  else if decide (lower f = "false") then Some false
  else None.

(** The truth-value reader: the default [true_values] and
    [false_values] first, then [to_boolean]. *)
Definition bool_of_token (f : string) : option bool :=
  if bool_decide (f ∈ ["True"; "TRUE"; "true"]) then Some true
  else if bool_decide (f ∈ ["False"; "FALSE"; "false"]) then Some false
  else to_boolean f.

(** Read every field that is not missing with [read]; [None] when one of
    them cannot be. *)
Fixpoint try_convert {A} (read : string → option A) (fs : list string)
    : option (list (option A)) :=
  match fs with
  | [] => Some []
  | f :: fs' =>
      if is_na f then (None ::.) <$> try_convert read fs'
      else x ← read f; (Some x ::.) <$> try_convert read fs'
  end.

Definition with_missing {A} (make : A → cell) (o : option A) : cell :=
  match o with
  | Some x => make x
  | None => NaN
  end.

(** Type inference for one column: integers, then floats, then booleans,
    else text.  Integers with missing fields become floats, booleans with
    missing fields become objects. *)
Definition convert_column (label : string) (fs : list string) : series :=
  let missing := existsb is_na fs in
  match try_convert int_of_token fs with
  | Some zs =>
      if missing
      then Series label float64 (with_missing (λ z, Num (num_of_Z z)) <$> zs)
      else Series label int64 (with_missing Int <$> zs)
  | None =>
      match try_convert float_of_token fs with
      | Some xs => Series label float64 (with_missing Num <$> xs)
      | None =>
          match try_convert bool_of_token fs with
          | Some bs =>
              Series label (if missing then object_ else bool_)
                     (with_missing Bool <$> bs)
          | None =>
              Series label object_ ((λ f, if is_na f then NaN else Str f) <$> fs)
          end
      end
  end.

(** *** Column labels

    An empty label becomes [Unnamed: i], and the k-th repeat of a label
    [x] becomes [x.k]. *)
Definition unnamed (i : nat) (label : string) : string :=
  if decide (label = "") then "Unnamed: " +:+ pretty i else label.

Definition occurrences (x : string) (l : list string) : nat :=
  length (filter (λ y, y = x) l).

Fixpoint dedup (seen labels : list string) : list string :=
  match labels with
  | [] => []
  | x :: rest =>
      (match occurrences x seen with
       | 0 => x
       | k => x +:+ "." +:+ pretty k
       end) :: dedup (x :: seen) rest
  end.

Definition mangle (header : list string) : list string :=
  dedup [] (imap unnamed header).

(** The labels [mangle] had to make up.  When one of them is also a label
    of the file, what the column is called depends on the version of
    pandas. *)
Definition made_up (header : list string) : list string :=
  snd <$> filter (λ p, p.1 ≠ p.2) (zip header (mangle header)).

Definition plain_renaming (header : list string) : Prop :=
  Forall (λ label, label ∉ header) (made_up header).

(** [pd.read_csv(file)]: the first record is the header; a record
    shorter than the header has missing cells at its end.  [None] stands
    for a file the parser rejects (no record at all, the end of the file
    inside quotes, a record longer than the header after the first one)
    and for the two cases left out here: a first record longer than the
    header, whose leading fields become the index, and a header whose
    renaming is not plain. *)
Definition read_csv (input : list ascii) : option dataframe :=
  match tokenize input with
  | Some (header :: data) =>
      if bool_decide (plain_renaming header
                      ∧ Forall (λ r, length r ≤ length header) data)
      then
        match data with
        | [] => Some ((λ label, Series label object_ []) <$> mangle header)
        | _ =>
            Some (imap (λ j label,
                          convert_column label ((λ r, default "" (r !! j)) <$> data))
                       (mangle header))
        end
      else None
  | _ => None
  end.

End Csv.

(** ** Around the session: upload, file name, download

    Lines 16-30 load the uploaded file on every run and start a session
    when there is none; lines 19-20 and 144 derive the name of the
    download from the name of the upload; lines 137-150 offer the
    download. *)

Section Page.
Context `{Float64}.

Definition sep : ascii := ascii_of_nat 47.
Definition extsep : ascii := ascii_of_nat 46.

(** [p.rfind(c)]: the index of the last [c] in [p], or -1. *)
Fixpoint rfind_from (i last : Z) (c : ascii) (p : list ascii) : Z :=
  match p with
  | [] => last
  | a :: p' => rfind_from (i + 1) (if decide (a = c) then i else last) c p'
  end.

Definition rfind (c : ascii) (p : list ascii) : Z := rfind_from 0 (-1) c p.

(** [p[i:j]] for indices that are not negative. *)
Definition slice (p : list ascii) (i j : Z) : list ascii :=
  take (Z.to_nat j - Z.to_nat i) (drop (Z.to_nat i) p).

(** The loop of [genericpath._splitext] over the leading dots of the last
    path component; [rounds] is [dotIndex - filenameIndex].  It answers
    whether the loop runs out, that is, whether there are dots only. *)
Fixpoint dots_only (p : list ascii) (filenameIndex : Z) (rounds : nat) : bool :=
  match rounds with
  | 0 => true
  | S rounds' =>
      if decide (slice p filenameIndex (filenameIndex + 1) ≠ [extsep]) then false
      else dots_only p (filenameIndex + 1) rounds'
  end.

(** [os.path.splitext(p)] of [posixpath]. *)
Definition splitext (p : string) : string * string :=
  let sepIndex := rfind sep (chars p) in
  let dotIndex := rfind extsep (chars p) in
  if bool_decide (sepIndex < dotIndex)%Z
     && negb (dots_only (chars p) (sepIndex + 1) (Z.to_nat (dotIndex - (sepIndex + 1))))
  then (text (slice (chars p) 0 dotIndex),
        text (drop (Z.to_nat dotIndex) (chars p)))
  else (p, "").

(** Lines 19-20 and 144. *)
Definition cleaned_filename (original_filename : string) : string :=
  let '(base_name, ext) := splitext original_filename in
  base_name +:+ "_cleaned" +:+ ext.

(** Lines 16-30: the uploaded text is read, and a session is started
    with the frame when there is none yet.  [None] when [read_csv] does
    not return a frame. *)
Definition load (content : list ascii) (st : option session_state)
    : option session_state :=
  d ← read_csv content; Some (ensure_session d st).

(** Lines 137-150: the download button exists once something is logged;
    it carries the derived file name and the export of the current
    frame. *)
Definition download (original_filename : string) (s : session_state)
    : option (string * list ascii) :=
  if bool_decide (cleaning_log s ≠ [])
  then Some (cleaned_filename original_filename, to_csv (current s))
  else None.

End Page.

(** ** Notions the properties are stated with *)

Section Reference.
Context `{Float64}.

(** Keep the first occurrence of each distinct row, in row order, and drop
    every later row equal to one already kept. *)
Fixpoint first_occurrences (rs : list row) : list row :=
  match rs with
  | [] => []
  | r :: rs' => r :: filter (λ r', r' ≠ r) (first_occurrences rs')
  end.

(** Column labels and dtypes of a frame. *)
Definition header (d : dataframe) : list (string * dtype) :=
  (λ c, (name c, dty c)) <$> d.

(** The rows of a frame are the transposition of its columns. *)
Fixpoint transpose (n : nat) (cols : list (list cell)) : list row :=
  match cols with
  | [] => replicate n []
  | c :: cols' => zip_with cons c (transpose n cols')
  end.

(** The handlers write through [df] only, and [df] never aliases
    [original_df], which keeps pointing at a frame equal to the loaded
    one. *)
Definition session_inv (d : dataframe) (s : session_state) : Prop :=
  df s ≠ original_df s ∧ objects s !! original_df s = Some d.

(** The session holds a copy of a well-formed loaded frame and a
    well-formed current frame. *)
Definition session_ok (d : dataframe) (s : session_state) : Prop :=
  session_inv d s ∧ wf_frame (current s).

(** [c'] is [c] with, at most, missing cells given a value. *)
Definition only_missing_filled (c c' : series) : Prop :=
  name c' = name c
  ∧ Forall2 (λ x x', x ≠ NaN → x' = x) (values c) (values c').

(** Column by column: same labels in the same order, columns other than
    [col] identical, and in [col] every cell that was present keeps its
    value at its row. *)
Definition fill_frame (col : string) (d d' : dataframe) : Prop :=
  Forall2 (λ c c', only_missing_filled c c' ∧ (name c ≠ col → c' = c)) d d'.

(** The four fill actions of the select box. *)
Definition fill_strategies : list string :=
  ["Fill with Mean"; "Fill with Median";
   "Fill with Mode (Most Frequent)"; "Fill with Custom Value"].

#[export] Instance wf_frame_dec (d : dataframe) : Decision (wf_frame d).
Proof. unfold wf_frame. apply _. Defined.

(** Occurrences of [x] in a column. *)
Definition count (x : cell) (vs : list cell) : nat :=
  length (filter (λ y, y = x) vs).

(** The count the table holds for [x]. *)
Fixpoint table_count (x : cell) (t : list (cell * nat)) : nat :=
  match t with
  | [] => 0
  | (y, n) :: t' => if decide (x = y) then n else table_count x t'
  end.

(** A well-formed count table: distinct present keys, positive counts. *)
Definition table_ok (t : list (cell * nat)) : Prop :=
  NoDup (fst <$> t) ∧ Forall (λ p, 0 < p.2 ∧ p.1 ≠ NaN) t.

(** What a successful Trim All Whitespace makes of a column and of a
    frame. *)
Definition trimmed (c : series) : series :=
  Series (name c) object_ (strip_cell <$> values c).

Definition trim_frame (d : dataframe) : dataframe :=
  (λ c, if decide (dty c = object_) then trimmed c else c) <$> d.

(** Every object column passes the check of the [.str] accessor. *)
Definition accepted (d : dataframe) : Prop :=
  Forall (λ c, dty c = object_ → str_accessor_ok (values c) = true) d.

(** No whitespace at the front. *)
Definition no_lead (l : list ascii) : Prop :=
  match l with
  | a :: _ => isspace a = false
  | [] => True
  end.

(** The records [to_csv] writes after the header. *)
Definition fields_of_rows (d : dataframe) : list (list string) :=
  (λ r : row, field_of_cell <$> r) <$> rows d.

(** Frames of text that the CSV format carries unchanged. *)
Definition no_carriage (s : string) : Prop := carriage ∉ chars s.

(** Blanks and tabs only. *)
Definition blank (s : string) : Prop :=
  s ≠ "" ∧ Forall (λ c, is_whitespace c = true) (chars s).

(** A record the tokenizer gives back as written. *)
Definition good_row (fs : list string) : Prop :=
  fs ≠ [] ∧ Forall no_carriage fs ∧ ∀ f, fs = [f] → ¬ blank f.

(** What loading makes of an exported frame: every column is inferred
    again from the text of its cells; without rows every column is an
    empty object column. *)
Definition reinfer (d : dataframe) : dataframe :=
  match rows d with
  | [] => (λ c, Series (name c) object_ []) <$> d
  | _ => (λ c, convert_column (name c) (field_of_cell <$> values c)) <$> d
  end.

(** A frame whose export the tokenizer reads record by record: labels
    that are kept as they are, no carriage return, and no record that is a
    line of blanks. *)
Definition csv_safe (d : dataframe) : Prop :=
  wf_frame d ∧ d ≠ []
  ∧ Forall (λ c, name c ≠ "" ∧ no_carriage (name c)
                 ∧ Forall (λ x, no_carriage (field_of_cell x)) (values c)) d
  ∧ (length d = 1 →
     Forall (λ c, ¬ blank (name c)
                  ∧ Forall (λ x, ¬ blank (field_of_cell x)) (values c)) d).

(** A cell that is missing, or text that is not read as missing. *)
Definition plain_cell (x : cell) : Prop :=
  match x with
  | NaN => True
  | Str s => is_na s = false
  | _ => False
  end.

(** Text that is neither a number nor a truth value: it keeps its column
    a text column. *)
Definition anchors (x : cell) : Prop :=
  match x with
  | Str s => is_na s = false ∧ int_of_token s = None
             ∧ float_of_token s = None ∧ bool_of_token s = None
  | _ => False
  end.

Definition text_column (c : series) : Prop :=
  dty c = object_
  ∧ Forall plain_cell (values c)
  ∧ (values c ≠ [] → Exists anchors (values c)).

(** An integer that is read back from its decimal form. *)
Definition int_cell (x : cell) : Prop :=
  match x with
  | Int z => is_na (pretty z) = false ∧ int_of_token (pretty z) = Some z
  | _ => False
  end.

Definition int_column (c : series) : Prop :=
  dty c = int64 ∧ values c ≠ [] ∧ Forall int_cell (values c).

(** A float that is read back from its [str] form; whether that holds is
    a matter of the float printer and the float reader. *)
Definition float_cell (x : cell) : Prop :=
  match x with
  | NaN => True
  | Num v => is_na (str_float v) = false ∧ float_of_token (str_float v) = Some v
  | _ => False
  end.

(** A float whose text is not an integer's. *)
Definition fractional (x : cell) : Prop :=
  match x with
  | Num v => int_of_token (str_float v) = None
  | _ => False
  end.

Definition float_column (c : series) : Prop :=
  dty c = float64 ∧ values c ≠ [] ∧ Forall float_cell (values c)
  ∧ (Forall (λ x, x = NaN) (values c) ∨ Exists fractional (values c)).

(** Truth values; with a missing cell among them the column is an object
    column. *)
Definition bool_cell (x : cell) : Prop :=
  match x with
  | NaN | Bool _ => True
  | _ => False
  end.

Definition truth (x : cell) : Prop :=
  match x with
  | Bool b => int_of_token (py_str (Bool b)) = None
              ∧ float_of_token (py_str (Bool b)) = None
  | _ => False
  end.

Definition bool_column (c : series) : Prop :=
  dty c = (if existsb isnull (values c) then object_ else bool_)
  ∧ Forall bool_cell (values c) ∧ Exists truth (values c).

Definition storable_column (c : series) : Prop :=
  text_column c ∨ int_column c ∨ float_column c ∨ bool_column c.

#[export] Instance no_carriage_dec s : Decision (no_carriage s).
Proof. unfold no_carriage. apply _. Defined.

#[export] Instance blank_dec s : Decision (blank s).
Proof. unfold blank. apply _. Defined.

#[export] Instance csv_safe_dec d : Decision (csv_safe d).
Proof. unfold csv_safe. apply _. Defined.

#[export] Instance plain_cell_dec x : Decision (plain_cell x).
Proof. destruct x; simpl; apply _. Defined.

#[export] Instance anchors_dec x : Decision (anchors x).
Proof. destruct x; simpl; apply _. Defined.

#[export] Instance int_cell_dec x : Decision (int_cell x).
Proof. destruct x; simpl; apply _. Defined.

#[export] Instance float_cell_dec x : Decision (float_cell x).
Proof. destruct x; simpl; apply _. Defined.

#[export] Instance fractional_dec x : Decision (fractional x).
Proof. destruct x; simpl; apply _. Defined.

#[export] Instance bool_cell_dec x : Decision (bool_cell x).
Proof. destruct x; simpl; apply _. Defined.

#[export] Instance truth_dec x : Decision (truth x).
Proof. destruct x; simpl; apply _. Defined.

#[export] Instance storable_column_dec c : Decision (storable_column c).
Proof.
  unfold storable_column, text_column, int_column, float_column, bool_column.
  apply _.
Defined.

(** The tokenizer has read field [f] and waits for what ends it. *)
Definition pending (f : string) (ln : list string) (ls : list (list string))
    (t : tok) : Prop :=
  line t = ln ∧ lines t = ls ∧ text (buf t) = f
  ∧ (state t = InField ∨ state t = QuoteInQuotedField
     ∨ (state t = StartField ∧ buf t = [])).

End Reference.

(** ** Counting what an operation changed *)

Section Changes.
Context `{Float64}.

(** The number of rows at which two columns differ. *)
Definition differing (vs vs' : list cell) : nat :=
  length (filter (λ p, p.1 ≠ p.2) (zip vs vs')).

(** The number of cells at which two frames of the same shape differ. *)
Definition changed_cells (d d' : dataframe) : nat :=
  sum_list (zip_with (λ c c', differing (values c) (values c')) d d').

(** Every object column holds text and missing cells only. *)
Definition text_only (d : dataframe) : Prop :=
  Forall (λ c, dty c = object_ → Forall (λ x, x = NaN ∨ is_str x = true) (values c)) d.

#[export] Instance accepted_dec (d : dataframe) : Decision (accepted d).
Proof. unfold accepted. apply _. Defined.

#[export] Instance text_only_dec (d : dataframe) : Decision (text_only d).
Proof. unfold text_only. apply _. Defined.

End Changes.

(** ** A reference instance: exact rationals

    Used to run the model on examples.  Values are kept in lowest terms,
    so equal numbers are equal terms. *)

Module Exact.

#[export] Instance Q_eq_dec : EqDecision Q.
Proof. solve_decision. Defined.

Definition Qle_rel (x y : Q) : Prop := Qle_bool x y = true.

#[export] Instance Qle_rel_dec x y : Decision (Qle_rel x y).
Proof. unfold Qle_rel. apply _. Defined.

Definition mean (xs : list Q) : option Q :=
  match xs with
  | [] => None
  | _ => Some (Qred (foldr Qplus 0%Q xs / inject_Z (Z.of_nat (length xs))))
  end.

Definition median (xs : list Q) : option Q :=
  let sorted := merge_sort Qle_rel xs in
  let n := length sorted in
  if Nat.even n then
    match sorted !! (n / 2 - 1)%nat, sorted !! (n / 2)%nat with
    | Some a, Some b => Some (Qred ((a + b) / 2))
    | _, _ => None
    end
  else sorted !! (n / 2)%nat.

(** Round to the nearest integer, ties to even. *)
Definition round_half_even (q : Q) : Z :=
  let a := Qnum q in
  let b := Zpos (Qden q) in
  let fl := (a / b)%Z in
  let r := (a mod b)%Z in
  if (b <? 2 * r)%Z then (fl + 1)%Z
  else if (2 * r =? b)%Z && Z.odd fl then (fl + 1)%Z
  else fl.

Definition two_digits (z : Z) : string :=
  if (z <? 10)%Z then "0" +:+ pretty z else pretty z.

Definition fmt_2f (q : Q) : string :=
  let c := Z.abs (round_half_even (q * 100)) in
  (if Qle_bool 0 q then "" else "-")
  +:+ pretty (c / 100)%Z +:+ "." +:+ two_digits (c mod 100)%Z.

(** [str] of a float with at most two decimals; other values are shown
    as a fraction. *)
Definition str (q : Q) : string :=
  let c := (Qnum q * 100 / Zpos (Qden q))%Z in
  if Qeq_bool (inject_Z c / 100) q then
    (if Qle_bool 0 q then "" else "-")
    +:+ pretty (Z.abs c / 100)%Z +:+ "."
    +:+ (if (Z.abs c mod 10 =? 0)%Z then pretty (Z.abs c mod 100 / 10)%Z
         else two_digits (Z.abs c mod 100)%Z)
  else pretty (Qnum q) +:+ "/" +:+ pretty (Zpos (Qden q)).

(** Decimal notation: an optional sign and digits, for floats with an
    optional fractional part. *)
Definition digit (a : ascii) : option Z :=
  let n := Z.of_nat (nat_of_ascii a) in
  if ((48 <=? n) && (n <=? 57))%Z then Some (n - 48)%Z else None.

Fixpoint digits (acc : Z) (l : list ascii) : option Z :=
  match l with
  | [] => Some acc
  | a :: l' =>
      match digit a with
      | Some k => digits (10 * acc + k)%Z l'
      | None => None
      end
  end.

Definition unsigned (l : list ascii) : option Z :=
  match l with
  | [] => None
  | _ => digits 0 l
  end.

Definition signed {A} (read : list ascii → option A) (neg : A → A)
    (l : list ascii) : option A :=
  match l with
  | a :: l' =>
      if decide (a = "-"%char) then neg <$> read l'
      else if decide (a = "+"%char) then read l'
      else read l
  | [] => None
  end.

Definition read_int (s : string) : option Z :=
  signed unsigned Z.opp (String.list_ascii_of_string s).

Fixpoint split_point (l : list ascii) : list ascii * option (list ascii) :=
  match l with
  | [] => ([], None)
  | a :: l' =>
      if decide (a = "."%char) then ([], Some l')
      else let '(int_part, frac) := split_point l' in (a :: int_part, frac)
  end.

Definition unsigned_decimal (l : list ascii) : option Q :=
  let '(int_part, frac) := split_point l in
  match frac with
  | None => inject_Z <$> unsigned int_part
  | Some fr =>
      i ← unsigned int_part;
      f ← digits 0 fr;
      Some (Qred (inject_Z i + inject_Z f / inject_Z (10 ^ Z.of_nat (length fr))))
  end.

Definition read_float (s : string) : option Q :=
  signed unsigned_decimal (λ q, Qred (- q)) (String.list_ascii_of_string s).

#[export] Instance exact_float64 : Float64 := {|
  num := Q;
  num_ltb x y := negb (Qle_bool y x);
  num_of_Z := inject_Z;
  nanmean := mean;
  nanmedian := median;
  format_2f := fmt_2f;
  str_float := str;
  int_of_token := read_int;
  float_of_token := read_float;
|}.

End Exact.

(** ** Example frames *)

Module Examples.
Import Exact.

(** Rows A, B, A, C, B. *)
Definition A : row := [Str "Oslo"; Int 1].
Definition B : row := [Str "Rome"; Int 2].
Definition C : row := [Str "Lima"; Int 3].

Definition visits : dataframe :=
  [ Series "city" object_ [Str "Oslo"; Str "Rome"; Str "Oslo"; Str "Lima"; Str "Rome"];
    Series "visits" int64 [Int 1; Int 2; Int 1; Int 3; Int 2] ].

(** A text column and a numeric column, each with a missing cell. *)
Definition people : dataframe :=
  [ Series "name" object_ [Str "b"; Str "a"; NaN];
    Series "age" float64 [Num 1%Q; NaN; Num 3%Q] ].

(** After the rows without a quantity are deleted, the text column has
    no value left. *)
Definition notes : dataframe :=
  [ Series "note" object_ [Str "x"; NaN; NaN];
    Series "qty" float64 [NaN; Num 1%Q; Num 2%Q] ].

(** Two text columns. *)
Definition cities : dataframe :=
  [ Series "name" object_ [Str "b"; Str "a"; NaN];
    Series "city" object_ [Str "Porto, PT"; Str " Quito"; Str "Riga"] ].

(** Text, integers, floats and truth values. *)
Definition survey : dataframe :=
  [ Series "name" object_ [Str "b"; Str "a"; NaN];
    Series "city" object_ [Str "Porto, PT"; Str " Quito"; Str "Riga"];
    Series "visits" int64 [Int 3; Int 12; Int 7];
    Series "score" float64 [Num (3 # 2); NaN; Num (9 # 4)];
    Series "member" bool_ [Bool true; Bool false; Bool true] ].

(** A file with a header line only. *)
Definition header_only : dataframe :=
  [ Series "name" object_ []; Series "age" object_ [] ].

(** A True/False column with an empty field, read as objects, next to a
    text column with a padded value. *)
Definition flags : dataframe :=
  [ Series "flag" object_ [Bool true; NaN];
    Series "name" object_ [Str " x"; Str "y"] ].

(** The file [flags] is read from. *)
Definition flags_csv : string :=
  "flag,name
True, x
,y
".

(** A numeric column without any value. *)
Definition unscored : dataframe :=
  [ Series "id" int64 [Int 1; Int 2];
    Series "score" float64 [NaN; NaN] ].

(** The columns of [flags] the other way round: the text column comes
    first. *)
Definition flags_last : dataframe :=
  [ Series "name" object_ [Str " x"; Str "y"];
    Series "flag" object_ [Bool true; NaN] ].

(** An upload with Windows line ends, a repeated label, a truth value
    in mixed case and a record that stops early. *)
Definition crlf : string := String carriage (String newline EmptyString).

Definition orders_csv : string :=
  "id,qty,qty" +:+ crlf +:+ "1,2,tRUE" +:+ crlf +:+ "2" +:+ crlf.

Definition orders : dataframe :=
  [ Series "id" int64 [Int 1; Int 2];
    Series "qty" float64 [Num 2%Q; NaN];
    Series "qty.1" object_ [Bool true; NaN] ].

End Examples.

(** * Properties *)

(* [set_solver] clears hypotheses by name; it says so when there are none. *)
#[local] Set Warnings "-clear-no-such-hyp".

Section Properties.
Context `{Float64}.

(** ** Boolean masks *)

Lemma count_true_cons b mask :
  count_true (b :: mask) = (if b then 1 else 0) + count_true mask.
Proof.
  unfold count_true. destruct b.
  - by rewrite filter_cons_True.
  - by rewrite filter_cons_False.
Qed.

Lemma select_nil_r {A} (mask : list bool) : select mask (@nil A) = [].
Proof. by destruct mask. Qed.

Lemma select_length {A} (mask : list bool) (l : list A) :
  length mask = length l →
  length (select mask l) = count_true mask.
Proof.
  revert l. induction mask as [|b mask IH]; intros [|x l] Hl; try done.
  rewrite count_true_cons. simpl in *. destruct b; simpl; rewrite IH; lia.
Qed.

Lemma count_true_negb mask :
  count_true (negb <$> mask) + count_true mask = length mask.
Proof.
  induction mask as [|b mask IH]; [done|].
  rewrite fmap_cons, !count_true_cons. destruct b; simpl; lia.
Qed.

(** ** Rows kept and rows flagged by [duplicated] *)

Lemma duplicated_from_length seen rs :
  length (duplicated_from seen rs) = length rs.
Proof. revert seen. induction rs as [|r rs IH]; intros seen; simpl; [done|]. by rewrite IH. Qed.

(** The rows that are not flagged: each row of [rs] that is not in [seen],
    once. *)
Lemma kept_elem_of seen rs r :
  r ∈ select (negb <$> duplicated_from seen rs) rs ↔ r ∈ rs ∧ r ∉ seen.
Proof.
  revert seen. induction rs as [|r' rs IH]; intros seen; simpl.
  { set_solver. }
  case_bool_decide as Hseen; simpl.
  - rewrite IH. set_solver.
  - rewrite elem_of_cons, IH. destruct (decide (r = r')); set_solver.
Qed.

Lemma kept_NoDup seen rs :
  NoDup (select (negb <$> duplicated_from seen rs) rs).
Proof.
  revert seen. induction rs as [|r rs IH]; intros seen; simpl.
  { constructor. }
  case_bool_decide; simpl; [apply IH|].
  constructor; [|apply IH]. rewrite kept_elem_of. set_solver.
Qed.

Lemma kept_distinct rs :
  select (negb <$> duplicated_from [] rs) rs ≡ₚ remove_dups rs.
Proof.
  apply NoDup_Permutation.
  - apply kept_NoDup.
  - apply NoDup_remove_dups.
  - intros r. rewrite kept_elem_of, elem_of_remove_dups. set_solver.
Qed.

Lemma rows_length d : length (rows d) = nrows d.
Proof. unfold rows. by rewrite length_fmap, length_seq. Qed.

Lemma flagged_plus_distinct rs :
  count_true (duplicated_from [] rs) + length (remove_dups rs) = length rs.
Proof.
  rewrite <- (Permutation_length (kept_distinct rs)).
  rewrite select_length by (by rewrite length_fmap, duplicated_from_length).
  rewrite Nat.add_comm, count_true_negb. apply duplicated_from_length.
Qed.

(** C1. The duplicate count of the quality report is the number of rows
    minus the number of distinct rows: the first row of each group of equal
    rows is not counted. *)
Theorem duplicate_count_is_rows_minus_distinct (d : dataframe) :
  duplicate_count d = nrows d - length (remove_dups (rows d))
  ∧ length (remove_dups (rows d)) ≤ nrows d.
Proof.
  pose proof (flagged_plus_distinct (rows d)) as Hsum.
  rewrite rows_length in Hsum. unfold duplicate_count, duplicated. lia.
Qed.

(** ** Rows of a frame, as the transposition of its columns *)


Lemma lookup_seq_fmap (x : cell) (l : list cell) :
  (λ i, default x (l !! i)) <$> seq 0 (length l) = l.
Proof.
  apply list_eq. intros i. rewrite list_lookup_fmap.
  destruct (decide (i < length l)) as [Hi|Hi].
  - rewrite lookup_seq_lt by done. simpl.
    destruct (lookup_lt_is_Some_2 l i Hi) as [y Hy]. by rewrite Hy.
  - rewrite lookup_seq_ge by lia. simpl. symmetry. apply lookup_ge_None. lia.
Qed.

Lemma rows_transpose n (d : dataframe) :
  Forall (λ c, length (values c) = n) d →
  row_at d <$> seq 0 n = transpose n (values <$> d).
Proof.
  induction d as [|c d IH]; intros Hlen.
  - simpl. generalize 0. induction n as [|n IHn]; intros k; simpl; [done|].
    by rewrite IHn.
  - rewrite fmap_cons. cbn [transpose].
    inversion Hlen as [|?? Hc Hd]; subst. rewrite <- IH by done.
    rewrite <- (lookup_seq_fmap NaN (values c)) at 2.
    generalize (seq 0 (length (values c))). intros l.
    induction l as [|i l IHl]; [done|].
    rewrite !fmap_cons. cbn [zip_with]. by rewrite <- IHl.
Qed.

Lemma select_zip_with {A B C} (f : A → B → C) mask l k :
  select mask (zip_with f l k) = zip_with f (select mask l) (select mask k).
Proof.
  revert l k. induction mask as [|b mask IH]; intros [|x l] [|y k]; simpl; try done.
  - destruct b; simpl; [done|]. by destruct (select mask l).
  - destruct b; simpl; by rewrite IH.
Qed.

Lemma select_replicate {A} mask n (x : A) :
  length mask = n → select mask (replicate n x) = replicate (count_true mask) x.
Proof.
  revert n. induction mask as [|b mask IH]; intros [|n] Hn; simpl in *; try done.
  rewrite count_true_cons. destruct b; simpl; rewrite IH; auto.
Qed.

Lemma select_transpose mask n cols :
  length mask = n →
  select mask (transpose n cols) = transpose (count_true mask) (select mask <$> cols).
Proof.
  intros Hn. induction cols as [|c cols IH].
  - by apply select_replicate.
  - rewrite fmap_cons. cbn [transpose]. rewrite select_zip_with. f_equal. apply IH.
Qed.

Lemma wf_frame_lengths d c :
  wf_frame d → c ∈ d → length (values c) = nrows d.
Proof. intros [Hlen _] Hc. by eapply Forall_forall in Hlen. Qed.

Lemma select_rows_header mask d : header (select_rows mask d) = header d.
Proof. unfold header, select_rows. rewrite <- list_fmap_compose. by apply list_fmap_ext. Qed.

Lemma select_rows_nrows mask d :
  wf_frame d → length mask = nrows d →
  nrows (select_rows mask d) = match d with [] => 0 | _ => count_true mask end.
Proof.
  intros Hwf Hm. destruct d as [|c d]; simpl; [done|].
  apply select_length. by rewrite Hm.
Qed.

Lemma select_rows_wf mask d :
  wf_frame d → length mask = nrows d → wf_frame (select_rows mask d).
Proof.
  intros Hwf Hm. split.
  - rewrite select_rows_nrows by done. destruct Hwf as [Hlen _].
    destruct d as [|c d]; [constructor|].
    unfold select_rows. apply Forall_fmap. eapply Forall_impl; [apply Hlen|].
    intros c' Hc'. simpl. apply select_length. by rewrite Hm, Hc'.
  - destruct Hwf as [_ Hnd]. unfold select_rows. rewrite <- list_fmap_compose.
    by erewrite list_fmap_ext; [apply Hnd|].
Qed.

(** Boolean indexing selects whole rows. *)
Lemma rows_select_rows mask d :
  wf_frame d → length mask = nrows d →
  rows (select_rows mask d) = select mask (rows d).
Proof.
  intros Hwf Hm. destruct (decide (d = [])) as [->|Hne].
  { by destruct mask. }
  unfold rows. rewrite (rows_transpose (nrows d) d) by apply Hwf.
  rewrite (rows_transpose (nrows (select_rows mask d))).
  2:{ apply (select_rows_wf mask d Hwf Hm). }
  rewrite select_rows_nrows by done. destruct d as [|c d]; [done|].
  rewrite select_transpose by done. f_equal.
  unfold select_rows. rewrite <- !list_fmap_compose. by apply list_fmap_ext.
Qed.

(** ** [drop_duplicates] keeps first occurrences *)

Lemma filter_all {A} (P : A → Prop) `{∀ x, Decision (P x)} (l : list A) :
  Forall P l → filter P l = l.
Proof.
  induction 1 as [|x l Hx _ IH]; [done|]. by rewrite filter_cons_True, IH.
Qed.

Lemma kept_first_occurrences seen rs :
  select (negb <$> duplicated_from seen rs) rs
  = filter (λ r, r ∉ seen) (first_occurrences rs).
Proof.
  revert seen. induction rs as [|r rs IH]; intros seen; simpl; [done|].
  case_bool_decide as Hseen; simpl.
  - rewrite filter_cons_False by (intros ?; done).
    rewrite IH, list_filter_filter. apply list_filter_iff. set_solver.
  - rewrite filter_cons_True by done. f_equal.
    rewrite IH, list_filter_filter. apply list_filter_iff. set_solver.
Qed.

Lemma duplicated_length d : length (duplicated d) = nrows d.
Proof. unfold duplicated. by rewrite duplicated_from_length, rows_length. Qed.

Lemma rows_drop_duplicates d :
  wf_frame d → rows (drop_duplicates d) = first_occurrences (rows d).
Proof.
  intros Hwf. unfold drop_duplicates.
  rewrite rows_select_rows; [|done|by rewrite length_fmap, duplicated_length].
  unfold duplicated. rewrite kept_first_occurrences.
  apply filter_all, Forall_forall. set_solver.
Qed.

(** ** Reading the session after a change *)

Lemma current_mutate f s : current (mutate f s) = f (current s).
Proof. unfold current, mutate, deref. simpl. by rewrite lookup_insert_eq. Qed.

Lemma current_log_append msg s : current (log_append msg s) = current s.
Proof. done. Qed.

Lemma nrows_drop_duplicates d :
  wf_frame d →
  nrows d - nrows (drop_duplicates d) = duplicate_count d.
Proof.
  intros Hwf. pose proof (rows_drop_duplicates d Hwf) as Hrows.
  apply (f_equal length) in Hrows. rewrite rows_length in Hrows.
  rewrite Hrows. unfold duplicate_count, duplicated.
  rewrite <- (rows_length d).
  pose proof (kept_first_occurrences [] (rows d)) as Hk.
  rewrite filter_all in Hk by (apply Forall_forall; set_solver).
  rewrite <- Hk, select_length by (by rewrite length_fmap, duplicated_from_length).
  pose proof (count_true_negb (duplicated_from [] (rows d))) as Hc.
  rewrite duplicated_from_length in Hc. lia.
Qed.

(** C4. Remove All Duplicates keeps the first occurrence of each distinct
    row, in row order, drops the later ones, and logs how many rows went
    away; rows [A, B, A, C, B] become [A, B, C] with the message
    "Removed 2 duplicate rows.". *)
Theorem remove_duplicates_keeps_first (s : session_state) :
  wf_frame (current s) →
  0 < duplicate_count (current s) →
  ∃ s', run RemoveAllDuplicates s = Done s'
    ∧ header (current s') = header (current s)
    ∧ rows (current s') = first_occurrences (rows (current s))
    ∧ cleaning_log s' = cleaning_log s ++
        ["Removed " +:+ pretty (nrows (current s) - nrows (current s'))
         +:+ " duplicate rows."]
    ∧ ∀ A B C : row, A ≠ B → A ≠ C → B ≠ C →
        rows (current s) = [A; B; A; C; B] →
        rows (current s') = [A; B; C]
        ∧ last (cleaning_log s') = Some "Removed 2 duplicate rows.".
Proof.
  intros Hwf Hdup. simpl. unfold click_remove_duplicates.
  rewrite bool_decide_eq_true_2 by done.
  eexists. split; [done|].
  rewrite current_log_append, current_mutate.
  assert (Hrows := rows_drop_duplicates _ Hwf).
  assert (Hn := nrows_drop_duplicates _ Hwf).
  split; [apply select_rows_header|]. split; [done|].
  split; [simpl; by rewrite Hn|].
  intros A B C HAB HAC HBC Heq. rewrite Hrows, Heq. split.
  - simpl. repeat (rewrite ?filter_cons_True, ?filter_cons_False, ?filter_nil by congruence).
    reflexivity.
  - simpl. rewrite last_snoc. do 2 f_equal.
    unfold duplicate_count, duplicated. rewrite Heq. simpl.
    rewrite ?(bool_decide_eq_false_2 (A ∈ [])) by set_solver.
    rewrite ?(bool_decide_eq_false_2 (B ∈ [A])) by set_solver.
    rewrite ?(bool_decide_eq_true_2 (A ∈ [B; A])) by set_solver.
    rewrite (bool_decide_eq_false_2 (C ∈ [A; B; A])) by set_solver.
    rewrite (bool_decide_eq_true_2 (B ∈ [C; A; B; A])) by set_solver.
    reflexivity.
Qed.

(** ** The loaded frame is never touched *)


Lemma copy_fresh l h : h !! (copy l h).1 = None.
Proof. unfold copy. simpl. apply not_elem_of_dom, is_fresh. Qed.

Lemma copy_lookup_new l h : (copy l h).2 !! (copy l h).1 = Some (deref h l).
Proof. unfold copy. simpl. by rewrite lookup_insert_eq. Qed.

Lemma copy_lookup_old l h l0 d :
  h !! l0 = Some d → (copy l h).2 !! l0 = Some d ∧ (copy l h).1 ≠ l0.
Proof.
  intros Hl0. assert ((copy l h).1 ≠ l0) as Hne.
  { intros Heq. pose proof (copy_fresh l h) as Hf. rewrite Heq in Hf. congruence. }
  split; [|done]. unfold copy in *. simpl in *. by rewrite lookup_insert_ne.
Qed.

Lemma session_inv_new d : session_inv d (new_session d).
Proof.
  unfold new_session.
  set (h0 := ({[0 := d]} : gmap nat dataframe)).
  destruct (copy 0 h0) as [l1 h1] eqn:E1.
  destruct (copy 0 h1) as [l2 h2] eqn:E2.
  assert (h1 !! l1 = Some d) as H1.
  { pose proof (copy_lookup_new 0 h0) as Hn. rewrite E1 in Hn. simpl in Hn.
    rewrite Hn. unfold deref, h0. by rewrite lookup_singleton_eq. }
  assert (h1 !! 0 = Some d) as H0.
  { pose proof (copy_lookup_old 0 h0 0 d) as Ho. rewrite E1 in Ho. simpl in Ho.
    apply Ho. unfold h0. by rewrite lookup_singleton_eq. }
  split; simpl.
  - pose proof (copy_lookup_old 0 h1 l1 d H1) as Ho. rewrite E2 in Ho. simpl in Ho.
    intros Heq. by apply Ho.
  - pose proof (copy_lookup_new 0 h1) as Hn. rewrite E2 in Hn. simpl in Hn.
    rewrite Hn. unfold deref. by rewrite H0.
Qed.

Lemma session_inv_mutate d f s : session_inv d s → session_inv d (mutate f s).
Proof.
  intros [Hne Ho]. split; simpl; [done|]. by rewrite lookup_insert_ne.
Qed.

Lemma session_inv_log_append d msg s :
  session_inv d s → session_inv d (log_append msg s).
Proof. by intros [Hne Ho]. Qed.

Lemma session_inv_reset d s : session_inv d s → session_inv d (reset s).
Proof.
  intros [Hne Ho]. unfold reset.
  destruct (copy (original_df s) (objects s)) as [l h] eqn:E.
  pose proof (copy_lookup_old (original_df s) (objects s) _ _ Ho) as Hold.
  rewrite E in Hold. simpl in Hold. destruct Hold. by split.
Qed.

Create HintDb session.

#[local] Hint Resolve session_inv_mutate session_inv_log_append
  session_inv_reset : session.

Lemma session_inv_apply_action d col action custom_val s :
  session_inv d s → session_inv d (after (apply_action col action custom_val s) s).
Proof.
  intros Hinv. unfold apply_action.
  repeat (case_decide || case_match); simpl; auto with session.
Qed.

Lemma session_inv_run d ev s :
  session_inv d s → session_inv d (after (run ev s) s).
Proof.
  intros Hinv. destruct ev as [| |col choice text|]; simpl.
  - unfold click_remove_duplicates. case_bool_decide; simpl; auto with session.
  - unfold click_trim_whitespace. case_bool_decide; [|done].
    cbv zeta. case_match; simpl; auto with session.
  - unfold click_apply. cbv zeta. repeat (case_bool_decide; [|done]).
    repeat (case_match; try done); by apply session_inv_apply_action.
  - unfold click_reset. case_bool_decide; simpl; auto with session.
Qed.

Lemma session_inv_run_all d evs s :
  session_inv d s → session_inv d (run_all evs s).
Proof.
  revert s. induction evs as [|ev evs IH]; intros s Hinv; [done|].
  simpl. by apply IH, session_inv_run.
Qed.

Lemma current_reset d s : session_inv d s → current (reset s) = d.
Proof.
  intros [Hne Ho]. unfold reset, current.
  pose proof (copy_lookup_new (original_df s) (objects s)) as Hn.
  destruct (copy (original_df s) (objects s)) as [l h]. simpl in *.
  unfold deref in *. by rewrite Hn, Ho.
Qed.

(** C2. Whatever was clicked since the file was loaded, Reset All Changes
    puts a copy of the loaded frame back and empties the log. *)
Theorem reset_restores_loaded_frame (d : dataframe) (evs : list event) :
  let s := run_all evs (ensure_session d None) in
  current (reset s) = d
  ∧ cleaning_log (reset s) = []
  ∧ original (reset s) = d
  ∧ (cleaning_log s ≠ [] → run ResetAllChanges s = Done (reset s)).
Proof.
  intros s.
  assert (session_inv d s) as Hinv by apply session_inv_run_all, session_inv_new.
  split; [by apply current_reset|].
  split; [unfold reset; by destruct (copy _ _)|].
  split.
  - apply session_inv_reset in Hinv as [_ Ho]. unfold original, deref. by rewrite Ho.
  - intros Hlog. simpl. unfold click_reset. by rewrite bool_decide_eq_true_2.
Qed.

(** ** What a fill leaves alone *)



Lemma only_missing_filled_refl c : only_missing_filled c c.
Proof. split; [done|]. by apply Forall_Forall2_diag, Forall_forall. Qed.

Lemma fill_frame_refl col d : fill_frame col d d.
Proof.
  apply Forall_Forall2_diag, Forall_forall. intros c _.
  split; [apply only_missing_filled_refl|done].
Qed.

Lemma fillna_only_missing val c : only_missing_filled c (fillna val c).
Proof.
  unfold fillna. destruct (isnull val); [apply only_missing_filled_refl|].
  destruct (existsb isnull (values c)); [|apply only_missing_filled_refl].
  split; [done|]. simpl. apply Forall2_fmap_r, Forall_Forall2_diag, Forall_forall.
  intros x _ Hx. by destruct x.
Qed.

Lemma fillna_inplace_frame col val d : fill_frame col d (fillna_inplace col val d).
Proof.
  unfold fill_frame, fillna_inplace.
  apply Forall2_fmap_r, Forall_Forall2_diag, Forall_forall. intros c _.
  simpl. destruct (decide (name c = col)).
  - split; [apply fillna_only_missing|done].
  - split; [apply only_missing_filled_refl|done].
Qed.

Lemma fill_frame_nrows col d d' : fill_frame col d d' → nrows d' = nrows d.
Proof.
  intros Hf. destruct Hf as [|c c' d d' [Hc _] _]; [done|].
  destruct Hc as [_ Hvs]. simpl. symmetry. by eapply Forall2_length.
Qed.


Lemma apply_action_fill_frame col action custom_val s :
  action ∈ fill_strategies →
  fill_frame col (current s) (current (after (apply_action col action custom_val s) s)).
Proof.
  intros Hin. unfold apply_action.
  case_decide as Hdel.
  { subst. exfalso. revert Hin. unfold fill_strategies. set_solver. }
  repeat (case_decide || case_match); simpl;
    rewrite ?current_log_append, ?current_mutate;
    auto using fill_frame_refl, fillna_inplace_frame.
Qed.

(** C10. Fill with Mean, Median, Mode or a custom value keeps the row
    count and the row order, leaves every other column as it was, and in
    the target column changes missing cells only. *)
Theorem fill_changes_missing_cells_only
    (s : session_state) (col action : string) (custom_val : option string) :
  action ∈ fill_strategies →
  let s' := after (apply_action col action custom_val s) s in
  nrows (current s') = nrows (current s)
  ∧ name <$> current s' = name <$> current s
  ∧ (∀ j c c', current s !! j = Some c → current s' !! j = Some c' →
       (name c ≠ col → c' = c)
       ∧ length (values c') = length (values c)
       ∧ ∀ i x, values c !! i = Some x → x ≠ NaN → values c' !! i = Some x).
Proof.
  intros Hin s'. pose proof (apply_action_fill_frame col _ custom_val s Hin) as Hf.
  fold s' in Hf. split; [by eapply fill_frame_nrows|]. split.
  - clear -Hf. induction Hf as [|c c' d d' [Hc _] _ IH]; [done|].
    destruct Hc as [Hn _]. rewrite !fmap_cons. by rewrite Hn, IH.
  - intros j c c' Hc Hc'.
    destruct (Forall2_lookup_lr _ _ _ _ _ _ Hf Hc Hc') as [Hfilled Hother].
    destruct Hfilled as [_ Hvs].
    split; [done|]. split; [symmetry; by eapply Forall2_length|].
    intros i x Hx Hpresent.
    destruct (Forall2_lookup_l _ _ _ _ _ Hvs Hx) as (x' & Hx' & Heq).
    by rewrite Hx', Heq.
Qed.

(** ** What the script offers *)

Lemma get_col_Some col d c :
  get_col col d = Some c → name c = col ∧ c ∈ d.
Proof.
  unfold get_col. destruct (list_find _ d) as [[i c']|] eqn:Hfind; simpl; [|done].
  intros [= ->]. apply list_find_Some in Hfind as (Hi & Hname & _).
  split; [done|]. by eapply list_elem_of_lookup_2.
Qed.

Lemma get_col_None col d : get_col col d = None → col ∉ name <$> d.
Proof.
  unfold get_col. destruct (list_find _ d) as [[i c']|] eqn:Hfind; simpl; [done|].
  intros _. rewrite list_find_None in Hfind. rewrite list_elem_of_fmap.
  intros (c & -> & Hc). by eapply Forall_forall in Hfind.
Qed.

Lemma cols_with_missing_names col d :
  col ∈ cols_with_missing d → col ∈ name <$> d.
Proof.
  unfold cols_with_missing, missing_data. rewrite !list_elem_of_fmap.
  intros ([col' n] & -> & Hin). apply list_elem_of_filter in Hin as [_ Hin].
  apply list_elem_of_fmap in Hin as (c & [= -> ->] & Hc). eauto.
Qed.

Lemma foldl_add_zero {A} (f : A → nat) (l : list A) :
  Forall (λ x, f x = 0) l → foldl (λ acc x, acc + f x) 0 l = 0.
Proof.
  intros Hl. assert (∀ n, foldl (λ acc x, acc + f x) n l = n) as Hn; [|apply Hn].
  induction Hl as [|x l Hx _ IH]; intros n; simpl; [done|]. rewrite Hx, IH. lia.
Qed.

(** A frame without rows has nothing to report. *)
Lemma no_rows_no_values d c :
  wf_frame d → nrows d = 0 → c ∈ d → values c = [].
Proof.
  intros Hwf Hn Hc. apply nil_length_inv. rewrite <- Hn. by apply wf_frame_lengths.
Qed.

Lemma no_rows_total_missing d : wf_frame d → nrows d = 0 → total_missing d = 0.
Proof.
  intros Hwf Hn. unfold total_missing, missing_data.
  rewrite <- list_fmap_compose.
  assert (Forall (λ c, (snd ∘ (λ c, (name c, count_true (isnull <$> values c)))) c = 0) d)
    as Hall.
  { apply Forall_forall. intros c Hc. simpl. by rewrite (no_rows_no_values d c). }
  clear -Hall. induction Hall as [|c d Hc _ IH]; [done|].
  rewrite fmap_cons. simpl in *. by rewrite Hc, IH.
Qed.

Lemma no_rows_duplicate_count d : nrows d = 0 → duplicate_count d = 0.
Proof. intros Hn. unfold duplicate_count, duplicated, rows. by rewrite Hn. Qed.

Lemma no_rows_whitespace_issues d :
  wf_frame d → nrows d = 0 → whitespace_issues d = 0.
Proof.
  intros Hwf Hn. unfold whitespace_issues. apply foldl_add_zero, Forall_forall.
  intros col _. destruct (get_col col d) as [c|] eqn:Hc; [|done].
  apply get_col_Some in Hc as [_ Hc]. by rewrite (no_rows_no_values d c).
Qed.

(** ** The Apply button *)

Lemma click_apply_offered col choice text s :
  run (ApplyTo col choice text) s ≠ NotOffered →
  ∃ c action,
    get_col col (current s) = Some c
    ∧ options (is_numeric_dtype (dty c)) !! choice = Some action
    ∧ run (ApplyTo col choice text) s
      = apply_action col action
          (if decide (action = "Fill with Custom Value") then Some text else None) s.
Proof.
  simpl. unfold click_apply. cbv zeta.
  case_bool_decide; [|done]. case_bool_decide as Hcol; [|done].
  destruct (get_col col (current s)) as [c|] eqn:Hc.
  2:{ apply get_col_None in Hc. by apply cols_with_missing_names in Hcol. }
  destruct (options _ !! choice) as [action|] eqn:Hact; [|done].
  intros _. by exists c, action.
Qed.

(** Whatever an Apply raises, it raises before anything is written. *)
Lemma apply_action_raised col action custom_val s e s' :
  apply_action col action custom_val s = Raised e s' → s' = s.
Proof.
  unfold apply_action. repeat (case_decide || case_match); congruence.
Qed.


(** C8, as the script has it.  Apply with the placeholder entry still
    selected does nothing: no cell is filled, nothing is logged, nothing is
    raised.  The same holds for Fill with Custom Value when no value is
    set ([None]). *)
Theorem apply_without_action_does_nothing
    (s : session_state) (col text : string) (custom_val : option string) :
  apply_action col "Select an action..." custom_val s = Done s
  ∧ apply_action col "Fill with Custom Value" None s = Done s
  ∧ (run (ApplyTo col 0 text) s = Done s ∨ run (ApplyTo col 0 text) s = NotOffered).
Proof.
  split; [done|]. split; [done|].
  assert (run (ApplyTo col 0 text) s ≠ NotOffered → run (ApplyTo col 0 text) s = Done s)
    as Hoffered.
  { intros Hoff.
    destruct (click_apply_offered col 0 text s Hoff) as (c & action & _ & Hact & ->).
    destruct (is_numeric_dtype (dty c)); simpl in Hact; by injection Hact as <-. }
  destruct (run (ApplyTo col 0 text) s) as [s'|e s'|]; [left|left|by right];
    by apply Hoffered.
Qed.

(** ** Text order *)

Lemma str_le_trans s1 s2 s3 : str_le s1 s2 → str_le s2 s3 → str_le s1 s3.
Proof.
  unfold str_le, String.leb. revert s2 s3.
  induction s1 as [|a s1 IH]; intros [|b s2] [|c s3]; simpl; try done.
  unfold Ascii.compare.
  destruct (N.compare_spec (N_of_ascii a) (N_of_ascii b)) as [Hab|Hab|Hab];
    destruct (N.compare_spec (N_of_ascii b) (N_of_ascii c)) as [Hbc|Hbc|Hbc];
    destruct (N.compare_spec (N_of_ascii a) (N_of_ascii c)) as [Hac|Hac|Hac];
    try done; try lia.
  apply IH.
Qed.

#[export] Instance str_le_transitive : Transitive str_le.
Proof. intros s1 s2 s3. apply str_le_trans. Qed.

#[export] Instance str_le_total : Total str_le.
Proof. intros s1 s2. apply String.leb_total. Qed.

(** The first entry of a sorted list is a least entry. *)
Lemma merge_sort_head_least (l : list string) v rest :
  merge_sort str_le l = v :: rest →
  v ∈ l ∧ ∀ w, w ∈ l → str_le v w.
Proof.
  intros Hsort.
  pose proof (StronglySorted_merge_sort str_le l) as Hsorted.
  pose proof (merge_sort_Permutation str_le l) as Hperm.
  rewrite Hsort in Hsorted, Hperm. split.
  - rewrite <- Hperm. by left.
  - intros w Hw. rewrite <- Hperm in Hw.
    apply elem_of_cons in Hw as [->|Hw].
    + destruct (String.leb_total v v); done.
    + apply StronglySorted_inv in Hsorted as [_ Hall].
      by eapply Forall_forall in Hall.
Qed.

(** ** Counting values *)




Lemma table_count_bump x y t :
  table_count x (bump y t)
  = (if decide (x = y) then 1 else 0) + table_count x t.
Proof.
  induction t as [|[z n] t IH]; simpl.
  - by destruct (decide (x = y)).
  - destruct (decide (y = z)) as [->|Hyz]; simpl.
    + destruct (decide (x = z)); simpl; lia.
    + destruct (decide (x = z)) as [->|Hxz]; simpl; [|done].
      rewrite decide_False by done. done.
Qed.

Lemma bump_keys x y t : x ∈ (bump y t).*1 ↔ x = y ∨ x ∈ t.*1.
Proof.
  induction t as [|[z n] t IH]; simpl; [set_solver|].
  destruct (decide (y = z)) as [->|Hyz]; simpl; set_solver.
Qed.

Lemma bump_ok y t : y ≠ NaN → table_ok t → table_ok (bump y t).
Proof.
  intros Hy. induction t as [|[z n] t IH]; intros [Hnd Hpos]; simpl.
  - split; [apply NoDup_singleton|].
    apply Forall_singleton. simpl. split; [lia|done].
  - apply NoDup_cons in Hnd as [Hz Hnd]. apply Forall_cons in Hpos as [Hn Hpos].
    destruct (IH (conj Hnd Hpos)) as [IHnd IHpos].
    destruct (decide (y = z)) as [->|Hyz]; simpl.
    + split; [by constructor|]. destruct Hn as [Hn Hzne]. simpl in *.
      constructor; [split; [simpl; lia|done]|done].
    + split.
      * constructor; [|done]. rewrite bump_keys. simpl in Hz. intros [?|?]; done.
      * by constructor.
Qed.

Lemma value_count_spec vs :
  table_ok (value_count vs)
  ∧ ∀ x, table_count x (value_count vs) = if isnull x then 0 else count x vs.
Proof.
  unfold value_count.
  assert (∀ t, table_ok t →
            table_ok (foldl (λ t x, if isnull x then t else bump x t) t vs)
            ∧ ∀ x, table_count x (foldl (λ t x, if isnull x then t else bump x t) t vs)
                   = table_count x t + if isnull x then 0 else count x vs) as Hgen.
  { induction vs as [|v vs IH]; intros t Hok; simpl.
    { split; [done|]. intros x. unfold count. destruct (isnull x); simpl; lia. }
    destruct (isnull v) eqn:Hv.
    - destruct (IH t Hok) as [Hok' Hcount]. split; [done|].
      intros x. rewrite Hcount. unfold count. destruct (isnull x) eqn:Hx; [done|].
      rewrite filter_cons_False; [done|]. intros ->. congruence.
    - assert (v ≠ NaN) as Hne by (intros ->; done).
      destruct (IH (bump v t) (bump_ok v t Hne Hok)) as [Hok' Hcount].
      split; [done|]. intros x. rewrite Hcount, table_count_bump.
      unfold count. destruct (isnull x) eqn:Hx.
      + rewrite decide_False; [lia|]. intros ->. congruence.
      + destruct (decide (x = v)) as [->|Hxv].
        * rewrite filter_cons_True by done. simpl. lia.
        * rewrite filter_cons_False by congruence. lia. }
  destruct (Hgen [] ) as [Hok Hcount].
  { split; [constructor|constructor]. }
  split; [done|]. intros x. by rewrite Hcount.
Qed.

Lemma table_count_elem_of x n t :
  NoDup t.*1 → (x, n) ∈ t → table_count x t = n.
Proof.
  intros Hnd Hin. induction t as [|[y m] t IH]; [by apply elem_of_nil in Hin|].
  apply NoDup_cons in Hnd as [Hy Hnd]. simpl.
  apply elem_of_cons in Hin as [[= -> ->]|Hin].
  - by rewrite decide_True.
  - rewrite decide_False; [by apply IH|].
    intros ->. apply Hy. apply list_elem_of_fmap. by exists (y, n).
Qed.

Lemma table_count_pos_key x t : 0 < table_count x t → ∃ k, (x, k) ∈ t.
Proof.
  induction t as [|[y m] t IH]; simpl; [lia|].
  destruct (decide (x = y)) as [->|Hxy]; intros Hp.
  - exists m. by left.
  - destruct (IH Hp) as [k Hk]. exists k. by right.
Qed.

Lemma table_count_le_max x t : table_count x t ≤ max_count t.
Proof.
  induction t as [|[y m] t IH]; simpl; [done|].
  destruct (decide (x = y)); lia.
Qed.

Lemma max_count_attained t :
  t ≠ [] → ∃ p, p ∈ t ∧ p.2 = max_count t.
Proof.
  induction t as [|[y m] t IH]; [done|]. intros _. simpl.
  destruct (decide (t = [])) as [->|Hne].
  { exists (y, m). split; [by left|]. simpl. lia. }
  destruct (IH Hne) as (p & Hp & Hmax).
  destruct (decide (max_count t ≤ m)).
  - exists (y, m). split; [by left|]. simpl. lia.
  - exists p. split; [by right|]. lia.
Qed.

Lemma count_pos x vs : x ∈ vs → 0 < count x vs.
Proof.
  intros Hx. unfold count.
  assert (x ∈ filter (λ y, y = x) vs) as Hin by (by apply list_elem_of_filter).
  destruct (filter _ vs); [by apply elem_of_nil in Hin|simpl; lia].
Qed.

Lemma count_pos_inv x vs : 0 < count x vs → x ∈ vs.
Proof.
  unfold count. intros Hpos.
  destruct (filter (λ y, y = x) vs) as [|y l] eqn:Hf; [simpl in Hpos; lia|].
  assert (y ∈ filter (λ y, y = x) vs) as Hy by (rewrite Hf; by left).
  by apply list_elem_of_filter in Hy as [-> ?].
Qed.

(** The modes: present values whose count no other present value beats;
    there is one as soon as the column has a present value. *)
Lemma htable_mode_spec vs v :
  v ∈ htable_mode vs ↔
  v ≠ NaN ∧ v ∈ vs ∧ ∀ x, x ∈ vs → x ≠ NaN → count x vs ≤ count v vs.
Proof.
  destruct (value_count_spec vs) as [[Hnd Hpos] Hcount].
  unfold htable_mode. cbv zeta. rewrite list_elem_of_fmap. split.
  - intros ([v' n] & -> & Hin). simpl.
    apply list_elem_of_filter in Hin as [Hmax Hin]. simpl in Hmax.
    pose proof (table_count_elem_of _ _ _ Hnd Hin) as Hn.
    eapply Forall_forall in Hpos as [Hn0 Hv']; [|done]. simpl in *.
    rewrite Hcount in Hn. destruct (isnull v') eqn:Hnull; [lia|].
    split; [done|]. split; [apply count_pos_inv; lia|].
    intros x Hx Hxne. pose proof (table_count_le_max x (value_count vs)) as Hle.
    rewrite Hcount in Hle. destruct x; simpl in Hle; try done; lia.
  - intros (Hv & Hin & Hmost).
    assert (value_count vs ≠ []) as Hne.
    { intros Hnil. pose proof (Hcount v) as Hc. rewrite Hnil in Hc. simpl in Hc.
      pose proof (count_pos v vs Hin). destruct v; simpl in Hc; try done; lia. }
    destruct (max_count_attained _ Hne) as ([w m] & Hw & Hmax). simpl in Hmax.
    pose proof (table_count_elem_of _ _ _ Hnd Hw) as Hwm.
    eapply Forall_forall in Hpos as [Hm0 Hwne]; [|done]. simpl in *.
    rewrite Hcount in Hwm. destruct (isnull w) eqn:Hwnull; [lia|].
    assert (w ∈ vs) as Hwin by (apply count_pos_inv; lia).
    pose proof (Hmost w Hwin Hwne) as Hle.
    pose proof (table_count_le_max v (value_count vs)) as Hvle.
    rewrite Hcount in Hvle.
    assert (isnull v = false) as Hvnull by (by destruct v).
    rewrite Hvnull in Hvle.
    assert (∃ k, (v, k) ∈ value_count vs) as [k Hk].
    { apply table_count_pos_key. rewrite Hcount, Hvnull. by apply count_pos. }
    exists (v, k). split; [done|]. apply list_elem_of_filter. split; [|done].
    simpl. pose proof (table_count_elem_of _ _ _ Hnd Hk) as Hvk.
    rewrite Hcount, Hvnull in Hvk. lia.
Qed.

Lemma htable_mode_nonempty vs x : x ∈ vs → x ≠ NaN → htable_mode vs ≠ [].
Proof.
  intros Hx Hne Hnil.
  destruct (value_count_spec vs) as [_ Hcount].
  assert (value_count vs ≠ []) as Ht.
  { intros Hempty. pose proof (Hcount x) as Hc. rewrite Hempty in Hc.
    pose proof (count_pos x vs Hx). destruct x; simpl in Hc; try done; lia. }
  destruct (max_count_attained _ Ht) as (p & Hp & Hmax).
  assert (p.1 ∈ htable_mode vs) as Hin.
  { unfold htable_mode. cbv zeta. apply list_elem_of_fmap. exists p.
    split; [done|]. by apply list_elem_of_filter. }
  rewrite Hnil in Hin. by apply elem_of_nil in Hin.
Qed.

(** On a text column the modes come back in ascending order. *)
Lemma series_mode_text c :
  Forall (λ x, x = NaN ∨ is_str x = true) (values c) →
  series_mode c = Str <$> merge_sort str_le (the_str <$> htable_mode (values c)).
Proof.
  intros Htext. unfold series_mode, np_sort. cbv zeta.
  assert (forallb is_str (htable_mode (values c)) = true) as ->; [|done].
  apply forallb_forall. intros v Hv%list_elem_of_In.
  apply htable_mode_spec in Hv as (Hne & Hin & _).
  eapply Forall_forall in Htext; [|exact Hin]. by destruct Htext.
Qed.

Lemma get_col_cons col c d :
  get_col col (c :: d) = if decide (name c = col) then Some c else get_col col d.
Proof.
  unfold get_col. simpl. destruct (decide (name c = col)); [done|].
  by destruct (list_find _ d) as [[i c']|].
Qed.

Lemma get_col_fmap (f : series → series) col d :
  (∀ c, name (f c) = name c) →
  get_col col (f <$> d) = f <$> get_col col d.
Proof.
  intros Hname. induction d as [|c d IH]; [done|].
  rewrite fmap_cons, !get_col_cons, Hname. by destruct (decide (name c = col)).
Qed.

Lemma fillna_name val c : name (fillna val c) = name c.
Proof.
  unfold fillna. destruct (isnull val); [done|].
  by destruct (existsb isnull (values c)).
Qed.

Lemma fillna_values val c :
  val ≠ NaN →
  values (fillna val c) = (λ x, if isnull x then val else x) <$> values c.
Proof.
  intros Hval. unfold fillna.
  assert (isnull val = false) as -> by (by destruct val).
  destruct (existsb isnull (values c)) eqn:Hex; [done|].
  symmetry. rewrite <- (list_fmap_id (values c)) at 2.
  apply list_fmap_ext. intros i y Hy. simpl.
  destruct (isnull y) eqn:Hnull; [|done].
  assert (existsb isnull (values c) = true) as Hyes; [|congruence].
  apply existsb_exists. exists y. split; [|done].
  apply list_elem_of_In. by eapply list_elem_of_lookup_2.
Qed.

Lemma get_col_fillna_inplace col val d c :
  get_col col d = Some c →
  get_col col (fillna_inplace col val d) = Some (fillna val c).
Proof.
  intros Hc. unfold fillna_inplace. rewrite get_col_fmap.
  - rewrite Hc. simpl. apply get_col_Some in Hc as [-> _]. by rewrite decide_True.
  - intros c'. destruct (decide (name c' = col)); [apply fillna_name|done].
Qed.

(** C7, as the script has it.  Fill with Mode on a text column with at
    least one value fills every missing cell with a most frequent value;
    among equally frequent values it takes the least in ascending text
    order (the first entry of the sorted [mode()]), and the log shows the
    value. *)
Theorem fill_mode_uses_least_most_frequent
    (s : session_state) (col : string) (c : series) :
  get_col col (current s) = Some c →
  Forall (λ x, x = NaN ∨ is_str x = true) (values c) →
  (∃ x, x ∈ values c ∧ x ≠ NaN) →
  ∃ v s',
    apply_action col "Fill with Mode (Most Frequent)" None s = Done s'
    ∧ Str v ∈ values c
    ∧ (∀ x, x ∈ values c → x ≠ NaN → count x (values c) ≤ count (Str v) (values c))
    ∧ (∀ w, Str w ∈ values c →
         count (Str w) (values c) = count (Str v) (values c) → str_le v w)
    ∧ values <$> get_col col (current s')
      = Some ((λ x, if isnull x then Str v else x) <$> values c)
    ∧ cleaning_log s'
      = cleaning_log s ++ ["Filled missing values in '" +:+ col
                           +:+ "' with mode (" +:+ v +:+ ")."].
Proof.
  intros Hc Htext (x & Hx & Hpresent).
  pose proof (series_mode_text c Htext) as Hmode.
  pose proof (htable_mode_nonempty _ x Hx Hpresent) as Hne.
  destruct (merge_sort str_le (the_str <$> htable_mode (values c))) as [|v rest] eqn:Hsort.
  { pose proof (merge_sort_Permutation str_le (the_str <$> htable_mode (values c))) as Hp.
    rewrite Hsort in Hp. apply Permutation_nil_l in Hp. symmetry in Hp.
    apply fmap_nil_inv in Hp. done. }
  destruct (merge_sort_head_least _ _ _ Hsort) as [Hv Hleast].
  assert (∀ w, w ∈ the_str <$> htable_mode (values c) ↔ Str w ∈ htable_mode (values c))
    as Hstrs.
  { intros w. rewrite list_elem_of_fmap. split.
    - intros (m & -> & Hm). pose proof Hm as Hm'.
      apply htable_mode_spec in Hm' as (Hmne & Hmin & _).
      eapply Forall_forall in Htext; [|exact Hmin].
      destruct Htext as [->|Hstr]; [done|]. by destruct m.
    - intros Hw. by exists (Str w). }
  apply Hstrs in Hv. pose proof Hv as Hv'.
  apply htable_mode_spec in Hv' as (_ & Hvin & Hmost).
  exists v. eexists. unfold apply_action.
  rewrite decide_False by done. rewrite decide_False by done.
  rewrite decide_False by done. rewrite decide_True by done.
  rewrite fmap_cons in Hmode. rewrite Hc, Hmode. cbv beta iota zeta.
  split; [done|].
  split; [done|]. split; [done|]. split.
  - intros w Hw Hcount. apply Hleast, Hstrs, htable_mode_spec.
    split; [done|]. split; [done|]. intros y Hy Hyne. rewrite Hcount. by apply Hmost.
  - split; [|done]. rewrite current_log_append, current_mutate.
    erewrite get_col_fillna_inplace by done. simpl. by rewrite fillna_values.
Qed.

(** ** Stripping *)


Lemma lstrip_no_lead l : no_lead (lstrip_chars l).
Proof.
  induction l as [|a l IH]; simpl; [done|].
  destruct (isspace a) eqn:Ha; [done|]. by simpl.
Qed.

Lemma lstrip_fixed l : no_lead l → lstrip_chars l = l.
Proof. destruct l as [|a l]; simpl; [done|]. by intros ->. Qed.

(** [lstrip_chars] drops a prefix. *)
Lemma lstrip_suffix l : ∃ k, l = k ++ lstrip_chars l.
Proof.
  induction l as [|a l [k IH]]; simpl; [by exists []|].
  destruct (isspace a); [|by exists []].
  exists (a :: k). simpl. by rewrite <- IH.
Qed.

Lemma no_lead_prefix l k : no_lead (l ++ k) → no_lead l.
Proof. by destruct l. Qed.

Lemma strip_chars_fixed l :
  no_lead l → no_lead (rev l) → strip_chars l = l.
Proof.
  intros Hl Hr. unfold strip_chars.
  by rewrite (lstrip_fixed l Hl), (lstrip_fixed _ Hr), rev_involutive.
Qed.

Lemma strip_chars_idemp l : strip_chars (strip_chars l) = strip_chars l.
Proof.
  apply strip_chars_fixed.
  - unfold strip_chars.
    destruct (lstrip_suffix (rev (lstrip_chars l))) as [k Hk].
    apply (f_equal (@rev ascii)) in Hk. rewrite rev_involutive, rev_app_distr in Hk.
    apply (no_lead_prefix _ (rev k)). rewrite <- Hk. apply lstrip_no_lead.
  - unfold strip_chars. rewrite rev_involutive. apply lstrip_no_lead.
Qed.

Lemma strip_idemp s : strip (strip s) = strip s.
Proof.
  unfold strip. by rewrite String.list_ascii_of_string_of_list_ascii, strip_chars_idemp.
Qed.

Lemma strip_cell_idemp x : strip_cell (strip_cell x) = strip_cell x.
Proof. destruct x; simpl; try done. by rewrite strip_idemp. Qed.

Lemma strip_cell_no_issue x : has_whitespace_issue (strip_cell x) = false.
Proof.
  destruct x; try done. unfold has_whitespace_issue. simpl.
  by rewrite strip_idemp, Nat.eqb_refl.
Qed.

Lemma strip_cell_text x : strip_cell x = NaN ∨ is_str (strip_cell x) = true.
Proof. destruct x; simpl; auto. Qed.

(** A column of strings and missing cells passes the [.str] check. *)
Lemma str_accessor_ok_text vs :
  Forall (λ x, x = NaN ∨ is_str x = true) vs → str_accessor_ok vs = true.
Proof.
  intros Htext. unfold str_accessor_ok, infer_dtype. cbv zeta.
  assert (Forall (λ x, is_str x = true) (filter (λ x, notnull x = true) vs)) as Hpresent.
  { apply Forall_forall. intros x Hx. apply list_elem_of_filter in Hx as [Hnn Hx].
    eapply Forall_forall in Htext; [|exact Hx]. by destruct Htext as [->|?]. }
  destruct (filter (λ x, notnull x = true) vs) as [|x present] eqn:Hf.
  { apply bool_decide_eq_true_2. set_solver. }
  assert (forallb is_str (x :: present) = true) as Hall.
  { apply forallb_forall. intros y Hy%list_elem_of_In.
    by eapply Forall_forall in Hpresent. }
  apply Forall_cons in Hpresent as [Hx _].
  destruct x; try done. rewrite Hall. apply bool_decide_eq_true_2. set_solver.
Qed.

(** ** Trim All Whitespace, when every object column is accepted *)

Lemma names_inj d c c' :
  NoDup (name <$> d) → c ∈ d → c' ∈ d → name c = name c' → c = c'.
Proof.
  intros Hnd Hc Hc' Hname.
  apply list_elem_of_lookup in Hc as [i Hi]. apply list_elem_of_lookup in Hc' as [j Hj].
  assert (i = j) as ->; [|congruence].
  eapply NoDup_lookup; [exact Hnd| |]; rewrite list_lookup_fmap.
  - by rewrite Hi.
  - by rewrite Hj, Hname.
Qed.

Lemma fmap_ext_elem_of {A B} (f g : A → B) (l : list A) :
  (∀ x, x ∈ l → f x = g x) → f <$> l = g <$> l.
Proof.
  intros Hfg. apply list_fmap_ext. intros i x Hx. apply Hfg.
  by eapply list_elem_of_lookup_2.
Qed.

Lemma trim_columns_closed cols d :
  NoDup (name <$> d) → NoDup cols → cols ⊆ name <$> d →
  (∀ c, c ∈ d → name c ∈ cols → str_accessor_ok (values c) = true) →
  trim_columns cols d
  = (None, (λ c, if decide (name c ∈ cols) then trimmed c else c) <$> d).
Proof.
  revert d. induction cols as [|col cols IH]; intros d Hnames Hcols Hsub Hacc.
  { simpl. f_equal. rewrite <- (list_fmap_id d) at 1. apply fmap_ext_elem_of.
    intros c _. simpl.
    destruct (decide (name c ∈ @nil string)) as [Hin|]; [by apply elem_of_nil in Hin|done]. }
  apply NoDup_cons in Hcols as [Hcol Hcols]. simpl.
  destruct (get_col col d) as [c|] eqn:Hc.
  2:{ apply get_col_None in Hc. exfalso. apply Hc, Hsub. by left. }
  apply get_col_Some in Hc as [Hname Hin].
  unfold str_strip. rewrite Hacc; [|done|rewrite Hname; by left].
  set (f := λ c' : series, if decide (name c' = col) then trimmed c' else c').
  assert (setitem col object_ (strip_cell <$> values c) d = f <$> d) as ->.
  { unfold setitem. apply fmap_ext_elem_of. intros c' Hc'. unfold f.
    destruct (decide (name c' = col)) as [Heq|]; [|done].
    assert (c' = c) as -> by (apply (names_inj d); congruence). done. }
  assert (name <$> (f <$> d) = name <$> d) as Hsame.
  { rewrite <- list_fmap_compose. apply fmap_ext_elem_of. intros c' _.
    unfold f. simpl. by destruct (decide (name c' = col)). }
  rewrite IH.
  - f_equal. rewrite <- list_fmap_compose. apply fmap_ext_elem_of.
    intros c' Hc'. unfold f. simpl.
    destruct (decide (name c' = col)) as [Heq|Hne].
    + rewrite (decide_True (P := name c' ∈ col :: cols)) by (rewrite Heq; by left).
      rewrite decide_False; [done|]. simpl. by rewrite Heq.
    + destruct (decide (name c' ∈ cols)) as [Hin'|Hnin].
      * by rewrite decide_True by (by right).
      * rewrite decide_False; [done|]. intros [?|?]%elem_of_cons; done.
  - by rewrite Hsame.
  - done.
  - rewrite Hsame. intros x Hx. apply Hsub. by right.
  - intros c1 Hc1 Hc1cols. apply list_elem_of_fmap in Hc1 as (c' & -> & Hc').
    unfold f in *. destruct (decide (name c' = col)) as [Heq|Hne].
    + simpl in Hc1cols. congruence.
    + apply Hacc; [done|by right].
Qed.

Lemma string_cols_spec d c :
  NoDup (name <$> d) → c ∈ d → name c ∈ string_cols d ↔ dty c = object_.
Proof.
  intros Hnd Hc. unfold string_cols. rewrite list_elem_of_fmap. split.
  - intros (c' & Hname & Hc'). apply list_elem_of_filter in Hc' as [Hobj Hc'].
    by rewrite (names_inj d c c' Hnd Hc Hc' Hname).
  - intros Hobj. exists c. split; [done|]. by apply list_elem_of_filter.
Qed.

Lemma string_cols_sublist d : string_cols d `sublist_of` name <$> d.
Proof. unfold string_cols. apply fmap_sublist, sublist_filter. Qed.

Lemma trim_columns_accepted d :
  wf_frame d → accepted d →
  trim_columns (string_cols d) d = (None, trim_frame d).
Proof.
  intros [_ Hnd] Hacc. rewrite trim_columns_closed.
  - f_equal. unfold trim_frame. apply fmap_ext_elem_of. intros c Hc.
    destruct (decide (dty c = object_)) as [Hobj|Hobj].
    + by rewrite decide_True by (by apply string_cols_spec).
    + rewrite decide_False; [done|]. by rewrite string_cols_spec.
  - done.
  - eapply sublist_NoDup; [done|apply string_cols_sublist].
  - intros x Hx. eapply elem_of_sublist; [done|apply string_cols_sublist].
  - intros c Hc Hcols. eapply Forall_forall in Hacc; [|exact Hc].
    apply Hacc. by apply string_cols_spec in Hcols.
Qed.

Lemma trim_frame_names d : name <$> trim_frame d = name <$> d.
Proof.
  unfold trim_frame. rewrite <- list_fmap_compose. apply fmap_ext_elem_of.
  intros c _. simpl. by destruct (decide (dty c = object_)).
Qed.

Lemma trim_frame_wf d : wf_frame d → wf_frame (trim_frame d).
Proof.
  intros [Hlen Hnd]. split; [|by rewrite trim_frame_names].
  assert (nrows (trim_frame d) = nrows d) as ->.
  { destruct d as [|c d]; [done|]. simpl.
    destruct (decide (dty c = object_)); simpl; by rewrite ?length_fmap. }
  unfold trim_frame. apply Forall_fmap. eapply Forall_impl; [exact Hlen|].
  intros c Hc. simpl. destruct (decide (dty c = object_)); simpl; by rewrite ?length_fmap.
Qed.

Lemma trim_frame_accepted d : accepted (trim_frame d).
Proof.
  unfold accepted, trim_frame. apply Forall_fmap, Forall_forall. intros c _ Hobj.
  simpl in *. destruct (decide (dty c = object_)) as [?|Hno]; [|done].
  simpl. apply str_accessor_ok_text, Forall_fmap, Forall_forall.
  intros x _. apply strip_cell_text.
Qed.

Lemma trim_frame_idemp d : trim_frame (trim_frame d) = trim_frame d.
Proof.
  unfold trim_frame. rewrite <- list_fmap_compose. apply fmap_ext_elem_of.
  intros c _. simpl. destruct (decide (dty c = object_)) as [Hobj|Hno].
  - simpl. unfold trimmed. simpl. f_equal.
    rewrite <- list_fmap_compose. apply fmap_ext_elem_of.
    intros x _. apply strip_cell_idemp.
  - by rewrite decide_False.
Qed.

Lemma trim_frame_no_issues d : wf_frame d → whitespace_issues (trim_frame d) = 0.
Proof.
  intros Hwf. pose proof (trim_frame_wf d Hwf) as [_ Hnd].
  unfold whitespace_issues. apply foldl_add_zero, Forall_forall. intros col Hcol.
  destruct (get_col col (trim_frame d)) as [c'|] eqn:Hc'; [|done].
  apply get_col_Some in Hc' as [<- Hin].
  apply string_cols_spec in Hcol; [|done..].
  unfold trim_frame in Hin. apply list_elem_of_fmap in Hin as (c & -> & Hc).
  destruct (decide (dty c = object_)) as [Hobj|Hno]; [|done].
  simpl. rewrite <- list_fmap_compose.
  assert (∀ vs, count_true ((has_whitespace_issue ∘ strip_cell) <$> vs) = 0) as Hzero;
    [|apply Hzero].
  induction vs as [|x vs IH]; [done|].
  rewrite fmap_cons, count_true_cons. simpl. by rewrite strip_cell_no_issue, IH.
Qed.

(** Where the script gets through the loop, Trim All Whitespace does what
    the specification says: after it no cell has surrounding whitespace,
    doing it again changes nothing, and missing cells stay missing. *)
Lemma trim_whitespace_on_accepted_frames (s : session_state) :
  wf_frame (current s) → accepted (current s) →
  0 < whitespace_issues (current s) →
  ∃ s1, run TrimAllWhitespace s = Done s1
    ∧ current s1 = trim_frame (current s)
    ∧ whitespace_issues (current s1) = 0
    ∧ run TrimAllWhitespace s1 = NotOffered
    ∧ trim_columns (string_cols (current s1)) (current s1) = (None, current s1)
    ∧ Forall2 (λ c c', Forall2 (λ x x', x = NaN → x' = NaN) (values c) (values c'))
        (current s) (current s1).
Proof.
  intros Hwf Hacc Hws. simpl. unfold click_trim_whitespace. cbv zeta.
  rewrite bool_decide_eq_true_2 by done.
  rewrite trim_columns_accepted by done. simpl.
  eexists. split; [done|].
  rewrite current_log_append, current_mutate.
  split; [done|]. split; [by apply trim_frame_no_issues|].
  split; [rewrite trim_frame_no_issues by done; by rewrite bool_decide_eq_false_2 by lia|].
  split.
  - rewrite trim_columns_accepted; [by rewrite trim_frame_idemp|by apply trim_frame_wf|].
    apply trim_frame_accepted.
  - unfold trim_frame. apply Forall2_fmap_r, Forall_Forall2_diag, Forall_forall.
    intros c _. unfold compose. cbv beta. destruct (decide (dty c = object_)); simpl.
    + apply Forall2_fmap_r, Forall_Forall2_diag, Forall_forall. by intros x _ ->.
    + apply Forall_Forall2_diag, Forall_forall. by intros x _.
Qed.

(** ** The tokenizer reads back what the writer wrote *)

Lemma text_chars s : text (chars s) = s.
Proof. apply String.string_of_list_ascii_of_string. Qed.

Lemma chars_text l : chars (text l) = l.
Proof. apply String.list_ascii_of_string_of_list_ascii. Qed.

Lemma feed_cons t c l : feed t (c :: l) = step t c ≫= λ t', feed t' l.
Proof.
  unfold feed. simpl. destruct (step t c) as [t'|]; [done|].
  simpl. induction l as [|c' l IH]; [done|]. by simpl.
Qed.

Lemma feed_app t l1 l2 : feed t (l1 ++ l2) = feed t l1 ≫= λ t', feed t' l2.
Proof.
  revert t. induction l1 as [|c l1 IH]; intros t; [done|].
  rewrite <- app_comm_cons, !feed_cons. destruct (step t c) as [t'|]; [|done].
  simpl. apply IH.
Qed.

Lemma feed_nil t : feed t [] = Some t.
Proof. done. Qed.

Lemma special_false c :
  special c = false → c ≠ comma ∧ c ≠ dquote ∧ c ≠ newline.
Proof.
  unfold special. intros Hs.
  apply orb_false_elim in Hs as [Hs Hnl]. apply orb_false_elim in Hs as [Hc Hq].
  apply bool_decide_eq_false in Hc, Hq, Hnl. done.
Qed.

(** An ordinary character inside an unquoted field is kept. *)
Lemma in_field_ordinary c t :
  special c = false → c ≠ carriage → in_field c t = Some (push c InField t).
Proof.
  intros (Hcomma & Hquote & Hnl)%special_false Hcr. unfold in_field.
  by rewrite !decide_False by done.
Qed.

Lemma bind_Some {A B} (x : A) (f : A → option B) : Some x ≫= f = f x.
Proof. done. Qed.

Ltac tok_simpl := unfold push, end_line, end_field; cbn [state buf line lines].

Lemma feed_unquoted l b ln ls :
  Forall (λ c, special c = false ∧ c ≠ carriage) l →
  feed (Tok InField b ln ls) l = Some (Tok InField (b ++ l) ln ls).
Proof.
  revert b. induction l as [|c l IH]; intros b Hl.
  { by rewrite feed_nil, app_nil_r. }
  apply Forall_cons in Hl as [[Hs Hcr] Hl].
  rewrite feed_cons. unfold step. tok_simpl.
  rewrite in_field_ordinary, bind_Some by done. tok_simpl.
  rewrite IH by done. by rewrite <- app_assoc.
Qed.

Lemma feed_quoted l b ln ls :
  feed (Tok InQuotedField b ln ls) (escape l)
  = Some (Tok InQuotedField (b ++ l) ln ls).
Proof.
  revert b. induction l as [|c l IH]; intros b; cbn [escape].
  { by rewrite feed_nil, app_nil_r. }
  destruct (decide (c = dquote)) as [->|Hc].
  - rewrite feed_cons. unfold step. tok_simpl.
    rewrite decide_True, bind_Some by done.
    rewrite feed_cons. unfold step. tok_simpl.
    rewrite decide_True, bind_Some by done. tok_simpl.
    rewrite IH. by rewrite <- app_assoc.
  - rewrite feed_cons. unfold step. tok_simpl.
    rewrite decide_False, bind_Some by done. tok_simpl.
    rewrite IH. by rewrite <- app_assoc.
Qed.

Lemma needs_quoting_false l :
  needs_quoting l = false → Forall (λ c, special c = false) l.
Proof.
  unfold needs_quoting. induction l as [|c l IH]; simpl; [constructor|].
  intros [Hc Hl]%orb_false_elim. constructor; auto.
Qed.

Lemma no_carriage_chars f :
  no_carriage f → Forall (λ c, c ≠ carriage) (chars f).
Proof. unfold no_carriage. intros Hcr. apply Forall_forall. by intros c Hc ->. Qed.

Lemma unquoted_chars f :
  needs_quoting (chars f) = false → no_carriage f →
  Forall (λ c, special c = false ∧ c ≠ carriage) (chars f).
Proof.
  intros Hq%needs_quoting_false Hcr%no_carriage_chars.
  apply Forall_and. by split.
Qed.

(** A field read from the start of a field. *)
Lemma feed_field f ln ls :
  no_carriage f →
  ∃ t, feed (Tok StartField [] ln ls) (write_field f) = Some t ∧ pending f ln ls t.
Proof.
  intros Hcr. unfold write_field. destruct (needs_quoting (chars f)) eqn:Hq.
  - rewrite feed_cons. unfold step, start_field. tok_simpl.
    rewrite decide_False by done. rewrite decide_False by done.
    rewrite decide_True, bind_Some by done.
    rewrite feed_app, feed_quoted, bind_Some. rewrite feed_cons.
    unfold step. tok_simpl. rewrite decide_True, bind_Some, feed_nil by done.
    eexists. split; [done|].
    unfold pending. tok_simpl. rewrite app_nil_l, text_chars. tauto.
  - pose proof (unquoted_chars f Hq Hcr) as Hall.
    destruct (chars f) as [|c l] eqn:Hf.
    + exists (Tok StartField [] ln ls). split; [done|].
      unfold pending. tok_simpl. split; [done|]. split; [done|]. split; [|tauto].
      by rewrite <- (text_chars f), Hf.
    + apply Forall_cons in Hall as [[Hs Hc] Hall].
      apply special_false in Hs as (Hcomma & Hquote & Hnl).
      rewrite feed_cons. unfold step, start_field. tok_simpl.
      rewrite !decide_False, bind_Some by done. tok_simpl.
      rewrite feed_unquoted by done. eexists. split; [done|].
      unfold pending. tok_simpl. split; [done|]. split; [done|]. split; [|tauto].
      rewrite <- (text_chars f), Hf. done.
Qed.

Lemma pending_comma f ln ls t :
  pending f ln ls t → step t comma = Some (Tok StartField [] (ln ++ [f]) ls).
Proof.
  intros (<- & <- & <- & [Hst|[Hst|[Hst Hbuf]]]); unfold step; rewrite Hst.
  - unfold in_field. by rewrite decide_False, decide_False, decide_True.
  - rewrite decide_False by done.
    unfold in_field. by rewrite decide_False, decide_False, decide_True.
  - unfold start_field.
    by rewrite decide_False, decide_False, decide_False, decide_True.
Qed.

Lemma pending_newline f ln ls t :
  pending f ln ls t → step t newline = Some (Tok StartRecord [] [] (ls ++ [ln ++ [f]])).
Proof.
  intros (<- & <- & <- & [Hst|[Hst|[Hst Hbuf]]]); unfold step; rewrite Hst.
  - unfold in_field. by rewrite decide_True.
  - rewrite decide_False by done. unfold in_field. by rewrite decide_True.
  - unfold start_field. by rewrite decide_True.
Qed.

(** The fields after the first one, up to the end of the line. *)
Lemma feed_fields fs ln ls :
  fs ≠ [] → Forall no_carriage fs →
  feed (Tok StartField [] ln ls) (join_fields (write_field <$> fs) ++ [newline])
  = Some (Tok StartRecord [] [] (ls ++ [ln ++ fs])).
Proof.
  revert ln. induction fs as [|f fs IH]; intros ln Hne Hcr; [done|].
  apply Forall_cons in Hcr as [Hf Hcr].
  destruct (feed_field f ln ls Hf) as (t & Hfeed & Hpend).
  destruct fs as [|f' fs].
  - cbn [fmap list_fmap join_fields]. rewrite feed_app, Hfeed, bind_Some, feed_cons.
    by rewrite (pending_newline f ln ls), bind_Some, feed_nil by done.
  - change (join_fields (write_field <$> f :: f' :: fs))
      with (write_field f ++ comma :: join_fields (write_field <$> f' :: fs)).
    rewrite <- app_assoc, feed_app, Hfeed, bind_Some, <- app_comm_cons, feed_cons.
    rewrite (pending_comma f ln ls), bind_Some by done.
    rewrite IH by done. by rewrite <- app_assoc.
Qed.

Lemma is_whitespace_ordinary c :
  is_whitespace c = true → special c = false ∧ c ≠ carriage ∧ c ≠ newline.
Proof.
  unfold is_whitespace. intros [Hc|Hc]%orb_true_iff; apply bool_decide_eq_true in Hc;
    subst; by vm_compute.
Qed.

(** A line that starts with blanks: they are kept once anything else
    follows. *)
Lemma feed_whitespace_line l b ls :
  Forall (λ c, special c = false ∧ c ≠ carriage) l →
  feed (Tok WhitespaceLine b [] ls) l
  = Some (Tok (if forallb is_whitespace l then WhitespaceLine else InField)
              (b ++ l) [] ls).
Proof.
  revert b. induction l as [|c l IH]; intros b Hl.
  { by rewrite feed_nil, app_nil_r. }
  apply Forall_cons in Hl as [[Hs Hcr] Hl].
  pose proof (special_false c Hs) as (Hcomma & Hquote & Hnl).
  rewrite feed_cons. unfold step. tok_simpl.
  rewrite !decide_False by done. cbn [forallb].
  destruct (is_whitespace c) eqn:Hws.
  - rewrite bind_Some. tok_simpl. rewrite IH by done. by rewrite <- app_assoc.
  - rewrite in_field_ordinary, bind_Some by done. tok_simpl.
    rewrite feed_unquoted by done. by rewrite <- app_assoc.
Qed.

(** The first field of a record. *)
Lemma feed_first_field f ls :
  no_carriage f →
  ∃ t, feed (Tok StartRecord [] [] ls) (write_field f) = Some t
    ∧ (pending f [] ls t
       ∨ (f = "" ∧ t = Tok StartRecord [] [] ls)
       ∨ (blank f ∧ t = Tok WhitespaceLine (chars f) [] ls)).
Proof.
  intros Hcr. destruct (feed_field f [] ls Hcr) as (t & Hfeed & Hpend).
  unfold write_field in *. destruct (needs_quoting (chars f)) eqn:Hq.
  - exists t. split; [|by left]. rewrite feed_cons in *. exact Hfeed.
  - pose proof (unquoted_chars f Hq Hcr) as Hall.
    destruct (chars f) as [|c l] eqn:Hf.
    + exists (Tok StartRecord [] [] ls). split; [done|]. right. left.
      split; [|done]. by rewrite <- (text_chars f), Hf.
    + apply Forall_cons in Hall as [[Hs Hc] Hall].
      pose proof (special_false c Hs) as (Hcomma & Hquote & Hnl).
      rewrite feed_cons. unfold step, start_record. tok_simpl.
      rewrite !decide_False by done.
      destruct (is_whitespace c) eqn:Hws.
      * rewrite bind_Some. tok_simpl. rewrite feed_whitespace_line by done.
        destruct (forallb is_whitespace l) eqn:Hallws.
        -- eexists. split; [done|]. right. right. split; [|done].
           split; [intros ->; done|]. rewrite Hf. constructor; [done|].
           apply Forall_forall. intros x Hx%list_elem_of_In.
           by eapply forallb_forall in Hallws.
        -- eexists. split; [done|]. left. unfold pending. tok_simpl.
           split; [done|]. split; [done|]. split; [|tauto].
           rewrite <- (text_chars f), Hf. done.
      * exists t. split; [|by left]. rewrite feed_cons in Hfeed. exact Hfeed.
Qed.

Lemma first_field_comma f ls t :
  pending f [] ls t
  ∨ (f = "" ∧ t = Tok StartRecord [] [] ls)
  ∨ (blank f ∧ t = Tok WhitespaceLine (chars f) [] ls) →
  step t comma = Some (Tok StartField [] [f] ls).
Proof.
  intros [Hp|[[-> ->]|[_ ->]]].
  - by rewrite (pending_comma f [] ls).
  - done.
  - unfold step. tok_simpl. rewrite !decide_False by done.
    assert (is_whitespace comma = false) as -> by done.
    unfold in_field. rewrite !decide_False by done. rewrite decide_True by done.
    tok_simpl. by rewrite text_chars.
Qed.

Lemma write_field_nil f : write_field f = [] → f = "".
Proof.
  unfold write_field. destruct (needs_quoting (chars f)); [done|].
  intros Hf. by rewrite <- (text_chars f), Hf.
Qed.

(** A record is read back as it was written. *)
Lemma feed_row fs ls :
  good_row fs →
  feed (Tok StartRecord [] [] ls) (write_row fs)
  = Some (Tok StartRecord [] [] (ls ++ [fs])).
Proof.
  intros (Hne & Hcr & Hblank). destruct fs as [|f fs]; [done|].
  apply Forall_cons in Hcr as [Hf Hcr].
  destruct fs as [|f' fs].
  - unfold write_row. cbn [fmap list_fmap join_fields].
    destruct (write_field f) as [|c l] eqn:Hw.
    + apply write_field_nil in Hw as ->. done.
    + rewrite <- Hw. destruct (feed_first_field f ls Hf) as (t & Hfeed & Hcases).
      rewrite feed_app, Hfeed, bind_Some, feed_cons.
      destruct Hcases as [Hp|[[-> ->]|[Hb _]]].
      * by rewrite (pending_newline f [] ls).
      * done.
      * by destruct (Hblank f).
  - unfold write_row.
    change (join_fields (write_field <$> f :: f' :: fs))
      with (write_field f ++ comma :: join_fields (write_field <$> f' :: fs)).
    destruct (feed_first_field f ls Hf) as (t & Hfeed & Hcases).
    destruct (write_field f ++ comma :: join_fields (write_field <$> f' :: fs))
      as [|c l] eqn:Hw.
    { by destruct (write_field f). }
    rewrite <- Hw, <- app_assoc, feed_app, Hfeed, bind_Some.
    rewrite <- app_comm_cons, feed_cons, (first_field_comma f ls) by done.
    rewrite bind_Some. by rewrite feed_fields.
Qed.

Lemma feed_rows rs ls :
  Forall good_row rs →
  feed (Tok StartRecord [] [] ls) (concat (write_row <$> rs))
  = Some (Tok StartRecord [] [] (ls ++ rs)).
Proof.
  revert ls. induction rs as [|r rs IH]; intros ls Hrs.
  { by rewrite app_nil_r. }
  apply Forall_cons in Hrs as [Hr Hrs].
  rewrite fmap_cons. cbn [concat]. rewrite feed_app, feed_row, bind_Some by done.
  rewrite IH by done. by rewrite <- app_assoc.
Qed.

Lemma tokenize_written rs :
  Forall good_row rs → tokenize (concat (write_row <$> rs)) = Some rs.
Proof. intros Hrs. unfold tokenize. by rewrite feed_rows. Qed.

(** ** Loading what was exported *)

Lemma to_csv_records d :
  to_csv d = concat (write_row <$> (name <$> d) :: fields_of_rows d).
Proof.
  unfold to_csv, fields_of_rows. rewrite fmap_cons. cbn [concat]. f_equal.
  by rewrite <- list_fmap_compose.
Qed.

Lemma row_at_lookup d i j c :
  d !! j = Some c → row_at d i !! j = Some (default NaN (values c !! i)).
Proof. intros Hc. unfold row_at. by rewrite list_lookup_fmap, Hc. Qed.

Lemma row_at_elem_of d i x :
  x ∈ row_at d i → x = NaN ∨ ∃ c, c ∈ d ∧ x ∈ values c.
Proof.
  unfold row_at. intros (c & -> & Hc)%list_elem_of_fmap.
  destruct (values c !! i) as [x|] eqn:Hx; simpl; [right|by left].
  exists c. split; [done|]. by eapply list_elem_of_lookup_2.
Qed.

Lemma csv_safe_good_rows d :
  csv_safe d → Forall good_row ((name <$> d) :: fields_of_rows d).
Proof.
  intros (Hwf & Hne & Hsafe & Hsingle). constructor.
  - split; [by destruct d|]. split.
    + apply Forall_fmap. eapply Forall_impl; [exact Hsafe|]. by intros c (_ & ? & _).
    + intros f Hf. assert (length d = 1) as Hlen.
      { apply (f_equal length) in Hf. by rewrite length_fmap in Hf. }
      specialize (Hsingle Hlen). destruct d as [|c [|c' d]]; try done.
      injection Hf as <-. by apply Forall_cons in Hsingle as [[? _] _].
  - unfold fields_of_rows. apply Forall_fmap, Forall_forall. intros r Hr.
    unfold rows in Hr. apply list_elem_of_fmap in Hr as (i & -> & _).
    split; [unfold row_at; by destruct d|]. split.
    + apply Forall_fmap, Forall_forall. intros x Hx. simpl.
      apply row_at_elem_of in Hx as [->|(c & Hc & Hx)].
      { unfold no_carriage. simpl. apply not_elem_of_nil. }
      eapply Forall_forall in Hsafe as (_ & _ & Hcells); [|exact Hc].
      by eapply Forall_forall in Hcells.
    + intros f Hf. assert (length d = 1) as Hlen.
      { apply (f_equal length) in Hf. unfold row_at in Hf.
        by rewrite !length_fmap in Hf. }
      specialize (Hsingle Hlen). destruct d as [|c [|c' d]]; try done.
      apply Forall_cons in Hsingle as [[_ Hcells] _].
      unfold row_at in Hf. simpl in Hf. injection Hf as <-.
      destruct (values c !! i) as [x|] eqn:Hx; simpl.
      * eapply Forall_forall in Hcells; [done|]. by eapply list_elem_of_lookup_2.
      * by intros [? _].
Qed.

Lemma column_fields d j c :
  wf_frame d → d !! j = Some c →
  (λ r : list string, default "" (r !! j)) <$> (fields_of_rows d)
  = field_of_cell <$> values c.
Proof.
  intros Hwf Hc. unfold fields_of_rows, rows. rewrite <- !list_fmap_compose.
  rewrite <- (lookup_seq_fmap NaN (values c)) at 1.
  rewrite (wf_frame_lengths d c) by (done || by eapply list_elem_of_lookup_2).
  rewrite <- list_fmap_compose. apply list_fmap_ext. intros _ i _. simpl.
  by rewrite list_lookup_fmap, (row_at_lookup d i j c).
Qed.

(** Labels that are distinct and not empty are kept as they are. *)
Lemma imap_fixed {A} (g : nat → A → A) (l : list A) :
  (∀ i x, x ∈ l → g i x = x) → imap g l = l.
Proof.
  revert g. induction l as [|x l IH]; intros g Hg; [done|].
  rewrite imap_cons, Hg by (by left). f_equal.
  apply IH. intros i y Hy. apply Hg. by right.
Qed.

Lemma occurrences_absent x l : x ∉ l → occurrences x l = 0.
Proof.
  intros Hx. unfold occurrences. induction l as [|y l IH]; [done|].
  rewrite filter_cons, decide_False by (intros ->; apply Hx; by left).
  apply IH. intros Hin. apply Hx. by right.
Qed.

Lemma dedup_distinct seen l :
  NoDup l → (∀ x, x ∈ l → x ∉ seen) → dedup seen l = l.
Proof.
  revert seen. induction l as [|x l IH]; intros seen Hnd Hseen; [done|].
  apply NoDup_cons in Hnd as [Hx Hnd]. cbn [dedup].
  rewrite occurrences_absent by (apply Hseen; by left). f_equal.
  apply IH; [done|]. intros y Hy [->|Hin]%elem_of_cons; [done|].
  by apply (Hseen y); [right|].
Qed.

Lemma mangle_distinct hdr : NoDup hdr → ("" ∉ hdr) → mangle hdr = hdr.
Proof.
  intros Hnd Hne. unfold mangle. rewrite imap_fixed.
  - apply dedup_distinct; [done|]. by intros x _ ?%elem_of_nil.
  - intros i x Hx. unfold unnamed. rewrite decide_False; [done|]. by intros ->.
Qed.

Lemma made_up_distinct hdr : NoDup hdr → ("" ∉ hdr) → made_up hdr = [].
Proof.
  intros Hnd Hne. unfold made_up. rewrite mangle_distinct by done.
  induction hdr as [|x hdr IH]; [done|]. cbn [zip zip_with].
  rewrite filter_cons, decide_False by (simpl; intros Hn; by apply Hn).
  apply NoDup_cons in Hnd as [_ Hnd]. apply IH; [done|].
  intros Hin. apply Hne. by right.
Qed.

Lemma plain_renaming_distinct hdr : NoDup hdr → ("" ∉ hdr) → plain_renaming hdr.
Proof. intros Hnd Hne. unfold plain_renaming. by rewrite made_up_distinct. Qed.

(** Loading an export infers every column again from its text. *)
Lemma load_export d : csv_safe d → read_csv (to_csv d) = Some (reinfer d).
Proof.
  intros Hd. pose proof Hd as (Hwf & Hne & Hsafe & _).
  assert ("" ∉ name <$> d) as Hlabels.
  { intros (c & Hname & Hc)%list_elem_of_fmap.
    eapply Forall_forall in Hsafe as (Hlabel & _); [|exact Hc]. congruence. }
  unfold read_csv, reinfer. rewrite to_csv_records, tokenize_written
    by (by apply csv_safe_good_rows).
  rewrite bool_decide_eq_true_2.
  2:{ split; [apply plain_renaming_distinct; [apply Hwf|done]|].
      unfold fields_of_rows, rows.
      rewrite <- list_fmap_compose. apply Forall_fmap, Forall_forall.
      intros i _. simpl. unfold row_at. by rewrite !length_fmap. }
  rewrite mangle_distinct by (apply Hwf || done).
  unfold fields_of_rows at 1. destruct (rows d) as [|r rs] eqn:Hrows.
  - by rewrite <- list_fmap_compose.
  - rewrite fmap_cons. f_equal. apply list_eq. intros j.
    rewrite list_lookup_imap, !list_lookup_fmap.
    destruct (d !! j) as [c|] eqn:Hc; simpl; [|done]. f_equal. f_equal.
    rewrite <- (column_fields d j c) by done.
    unfold fields_of_rows. by rewrite Hrows.
Qed.

(** *** Columns that are inferred as they were *)



Lemma fmap_id_elem_of {A} (f : A → A) (l : list A) :
  (∀ x, x ∈ l → f x = x) → f <$> l = l.
Proof.
  intros Hf. transitivity (id <$> l); [|apply list_fmap_id].
  by apply fmap_ext_elem_of.
Qed.







(** ** Frames stay well formed

    Every run of the script keeps the current frame well formed, so the
    hypothesis [wf_frame] of the statements above, which a frame of
    pandas meets, holds in every session the script can be in. *)

Lemma wf_frame_same_shape (d d' : dataframe) :
  Forall2 (λ c c', name c' = name c ∧ length (values c') = length (values c)) d d' →
  wf_frame d → wf_frame d'.
Proof.
  intros Hshape [Hlen Hnd].
  assert (name <$> d' = name <$> d) as Hnames.
  { clear -Hshape. induction Hshape as [|c c' d d' [Hn _] _ IH]; [done|].
    by rewrite !fmap_cons, Hn, IH. }
  assert (nrows d' = nrows d) as Hrows.
  { destruct Hshape as [|c c' d d' [_ Hl] _]; [done|]. exact Hl. }
  split; [|by rewrite Hnames].
  rewrite Hrows. clear Hnames Hrows Hnd. revert Hlen. generalize (nrows d) as n.
  induction Hshape as [|c c' d1 d1' [_ Hl] _ IH]; intros n Hlen; [constructor|].
  apply Forall_cons in Hlen as [Hc Hlen]. constructor; [congruence|by apply IH].
Qed.

Lemma fill_frame_wf col d d' : fill_frame col d d' → wf_frame d → wf_frame d'.
Proof.
  intros Hfill. apply wf_frame_same_shape.
  eapply Forall2_impl; [exact Hfill|]. intros c c' [[Hn Hvs] _].
  split; [done|]. symmetry. by eapply Forall2_length.
Qed.

Lemma setitem_wf col ty vs d :
  wf_frame d → length vs = nrows d → wf_frame (setitem col ty vs d).
Proof.
  intros Hwf Hvs. eapply wf_frame_same_shape; [|exact Hwf].
  unfold setitem. apply Forall2_fmap_r, Forall_Forall2_diag, Forall_forall.
  intros c Hc. simpl. destruct (decide (name c = col)); simpl; [|done].
  split; [done|]. by rewrite Hvs, (wf_frame_lengths d c).
Qed.

Lemma trim_columns_wf cols d : wf_frame d → wf_frame (trim_columns cols d).2.
Proof.
  revert d. induction cols as [|col cols IH]; intros d Hwf; [done|].
  cbn [trim_columns]. destruct (get_col col d) as [c|] eqn:Hc; [|done].
  unfold str_strip. destruct (str_accessor_ok (values c)); [|done].
  apply IH, setitem_wf; [done|]. rewrite length_fmap.
  apply get_col_Some in Hc as [_ Hc]. by apply wf_frame_lengths.
Qed.

Lemma drop_duplicates_wf d : wf_frame d → wf_frame (drop_duplicates d).
Proof.
  intros Hwf. apply select_rows_wf; [done|].
  by rewrite length_fmap, duplicated_length.
Qed.

Lemma dropna_wf col d d' : wf_frame d → dropna col d = inr d' → wf_frame d'.
Proof.
  intros Hwf. unfold dropna. destruct (get_col col d) as [c|] eqn:Hc; [|done].
  intros [= <-]. apply select_rows_wf; [done|]. rewrite length_fmap.
  apply get_col_Some in Hc as [_ Hc]. by apply wf_frame_lengths.
Qed.

Lemma apply_action_wf col action custom_val s :
  wf_frame (current s) →
  wf_frame (current (after (apply_action col action custom_val s) s)).
Proof.
  intros Hwf. unfold apply_action.
  destruct (decide (action = "Delete rows with missing values")).
  { destruct (dropna col (current s)) as [err|d'] eqn:Hd; simpl; [done|].
    rewrite current_log_append, current_mutate. by eapply dropna_wf. }
  repeat (case_decide || case_match); simpl;
    rewrite ?current_log_append, ?current_mutate; try done;
    by eapply fill_frame_wf; [apply fillna_inplace_frame|].
Qed.


Lemma session_ok_run d ev s :
  wf_frame d → session_ok d s → session_ok d (after (run ev s) s).
Proof.
  intros Hd [Hinv Hwf]. split; [by apply session_inv_run|].
  destruct ev as [| |col choice text|]; simpl.
  - unfold click_remove_duplicates. case_bool_decide; simpl; [|done].
    rewrite current_log_append, current_mutate. by apply drop_duplicates_wf.
  - unfold click_trim_whitespace. cbv zeta. case_bool_decide; [|done].
    case_match; simpl; rewrite ?current_log_append, current_mutate;
      by apply trim_columns_wf.
  - unfold click_apply. cbv zeta. repeat (case_bool_decide; [|done]).
    repeat (case_match; try done); by apply apply_action_wf.
  - unfold click_reset. case_bool_decide; simpl; [|done].
    by rewrite (current_reset d).
Qed.

Lemma reachable_wf d evs :
  wf_frame d → wf_frame (current (run_all evs (new_session d))).
Proof.
  intros Hd. assert (session_ok d (new_session d)) as Hok.
  { split; [apply session_inv_new|]. by vm_compute. }
  revert Hok. generalize (new_session d). induction evs as [|ev evs IH]; intros s Hok.
  - apply Hok.
  - simpl. by apply IH, session_ok_run.
Qed.

Lemma try_convert_length {A} (read : string → option A) fs os :
  try_convert read fs = Some os → length os = length fs.
Proof.
  revert os. induction fs as [|f fs IH]; intros os; cbn [try_convert].
  { by intros [= <-]. }
  destruct (try_convert read fs) as [os'|]; simpl.
  - destruct (is_na f); simpl; [|destruct (read f); simpl; [|done]];
      intros [= <-]; simpl; by rewrite (IH os').
  - destruct (is_na f); simpl; [done|]. by destruct (read f).
Qed.

Lemma convert_column_shape label fs :
  name (convert_column label fs) = label
  ∧ length (values (convert_column label fs)) = length fs.
Proof.
  unfold convert_column.
  destruct (try_convert int_of_token fs) as [zs|] eqn:Hint.
  { apply try_convert_length in Hint.
    destruct (existsb is_na fs); simpl; by rewrite length_fmap. }
  destruct (try_convert float_of_token fs) as [xs|] eqn:Hfloat.
  { apply try_convert_length in Hfloat. simpl. by rewrite length_fmap. }
  destruct (try_convert bool_of_token fs) as [bs|] eqn:Hbool.
  { apply try_convert_length in Hbool. simpl. by rewrite length_fmap. }
  simpl. by rewrite length_fmap.
Qed.


(** ** The Apply button, seen from the select box *)

(** Any Apply other than Delete changes missing cells of its column
    only. *)
Lemma click_apply_fill_frame col choice text s c :
  get_col col (current s) = Some c →
  options (is_numeric_dtype (dty c)) !! choice
    ≠ Some "Delete rows with missing values" →
  fill_frame col (current s) (current (after (run (ApplyTo col choice text) s) s)).
Proof.
  intros Hc Hchoice.
  destruct (run (ApplyTo col choice text) s) as [s'|e s'|] eqn:Hrun;
    [| |apply fill_frame_refl].
  - destruct (click_apply_offered col choice text s) as (c' & action & Hc' & Hact & Heq).
    { by rewrite Hrun. }
    rewrite Hc in Hc'. injection Hc' as <-. rewrite Hact in Hchoice.
    assert (action ∈ fill_strategies ∨ action = "Select an action...") as [Hfill| ->].
    { destruct (is_numeric_dtype (dty c));
        apply list_elem_of_lookup_2 in Hact; unfold fill_strategies; set_solver. }
    + pose proof (apply_action_fill_frame col action
                    (if decide (action = "Fill with Custom Value") then Some text else None)
                    s Hfill) as Hframe.
      by rewrite <- Heq, Hrun in Hframe.
    + rewrite Hrun in Heq. simpl in Heq. injection Heq as ->. apply fill_frame_refl.
  - destruct (click_apply_offered col choice text s) as (c' & action & _ & _ & Heq).
    { by rewrite Hrun. }
    rewrite Hrun in Heq. symmetry in Heq. apply apply_action_raised in Heq as ->.
    apply fill_frame_refl.
Qed.


(** ** File names *)

Lemma chars_app s1 s2 : chars (s1 +:+ s2) = chars s1 ++ chars s2.
Proof. induction s1 as [|a s1 IH]; simpl; [done|]. by rewrite <- IH. Qed.

Lemma text_app l1 l2 : text (l1 ++ l2) = text l1 +:+ text l2.
Proof. induction l1 as [|a l1 IH]; simpl; [done|]. by rewrite IH. Qed.

Lemma rfind_from_absent i last c p :
  c ∉ p → rfind_from i last c p = last.
Proof.
  revert i last. induction p as [|a p IH]; intros i last Hc; simpl; [done|].
  rewrite decide_False by (intros ->; set_solver).
  apply IH. set_solver.
Qed.

Lemma rfind_from_last i last c l1 l2 :
  c ∉ l2 → rfind_from i last c (l1 ++ c :: l2) = (i + Z.of_nat (length l1))%Z.
Proof.
  revert i last. induction l1 as [|a l1 IH]; intros i last Hc; simpl.
  - rewrite decide_True by done. rewrite rfind_from_absent by done. lia.
  - rewrite IH by done. lia.
Qed.

Lemma last_occurrence (c : ascii) p :
  c ∈ p → ∃ l1 l2, p = l1 ++ c :: l2 ∧ c ∉ l2.
Proof.
  induction p as [|a p IH]; [by intros ?%elem_of_nil|].
  intros Hc. destruct (decide (c ∈ p)) as [Hin|Hout].
  - destruct (IH Hin) as (l1 & l2 & -> & Hl2). by exists (a :: l1), l2.
  - assert (a = c) as -> by set_solver. by exists [], p.
Qed.

(** [rfind] gives -1 exactly when the character is absent, and the
    position of its last occurrence otherwise. *)
Lemma rfind_spec c p :
  ((c ∉ p) ∧ rfind c p = (-1)%Z)
  ∨ (∃ l1 l2, p = l1 ++ c :: l2 ∧ (c ∉ l2) ∧ rfind c p = Z.of_nat (length l1)).
Proof.
  destruct (decide (c ∈ p)) as [Hin|Hout].
  - right. destruct (last_occurrence c p Hin) as (l1 & l2 & -> & Hl2).
    exists l1, l2. split; [done|]. split; [done|].
    unfold rfind. rewrite rfind_from_last by done. lia.
  - left. split; [done|]. by apply rfind_from_absent.
Qed.

Lemma slice_one l1 (a : ascii) l2 :
  slice (l1 ++ a :: l2) (Z.of_nat (length l1)) (Z.of_nat (length l1) + 1) = [a].
Proof.
  unfold slice. rewrite Nat2Z.id.
  replace (Z.to_nat (Z.of_nat (length l1) + 1) - length l1) with 1 by lia.
  by rewrite drop_app_length.
Qed.

Lemma dots_only_spec l1 l l2 :
  dots_only (l1 ++ l ++ l2) (Z.of_nat (length l1)) (length l)
  = forallb (λ a, bool_decide (a = extsep)) l.
Proof.
  revert l1. induction l as [|a l IH]; intros l1; [done|].
  cbn [dots_only forallb length]. rewrite <- app_comm_cons, slice_one.
  destruct (decide (a = extsep)) as [->|Hne].
  - rewrite decide_False by (intros Hc; by apply Hc).
    rewrite bool_decide_eq_true_2 by done. cbn [andb].
    rewrite <- (IH (l1 ++ [extsep])).
    rewrite <- !(assoc_L (++)). cbn [app]. f_equal.
    rewrite length_app. simpl. lia.
  - rewrite decide_True by congruence.
    by rewrite bool_decide_eq_false_2.
Qed.

(** The position of the last separator when the path is a directory
    part, empty or ending in a separator, followed by a name without
    one. *)
Lemma rfind_sep_directory dir l :
  dir = [] ∨ (∃ dir', dir = dir' ++ [sep]) → sep ∉ l →
  rfind sep (dir ++ l) = (Z.of_nat (length dir) - 1)%Z.
Proof.
  intros [->|[dir' ->]] Hl.
  - simpl. unfold rfind. by rewrite rfind_from_absent.
  - rewrite <- (assoc_L (++)). cbn [app]. unfold rfind.
    rewrite rfind_from_last by done. rewrite length_app. simpl. lia.
Qed.

(** How [splitext] splits a path whose last component is [base], a dot
    and [e]: at that dot, unless [base] holds dots only. *)
Lemma splitext_component dir base e :
  dir = [] ∨ (∃ dir', dir = dir' ++ [sep]) →
  sep ∉ base → sep ∉ e → extsep ∉ e →
  splitext (text (dir ++ base ++ extsep :: e))
  = if forallb (λ a, bool_decide (a = extsep)) base
    then (text (dir ++ base ++ extsep :: e), "")
    else (text (dir ++ base), text (extsep :: e)).
Proof.
  intros Hdir Hbase He Hdot. unfold splitext. rewrite chars_text.
  rewrite rfind_sep_directory; [|done|].
  2:{ rewrite elem_of_app, elem_of_cons. intros [?|[?|?]]; [done|done|done]. }
  assert (rfind extsep (dir ++ base ++ extsep :: e)
          = Z.of_nat (length dir + length base)) as ->.
  { rewrite (assoc_L (++)). unfold rfind. rewrite rfind_from_last by done.
    rewrite length_app. lia. }
  rewrite bool_decide_eq_true_2 by lia. cbn [andb].
  replace (Z.of_nat (length dir) - 1 + 1)%Z with (Z.of_nat (length dir)) by lia.
  replace (Z.to_nat (Z.of_nat (length dir + length base) - Z.of_nat (length dir)))
    with (length base) by lia.
  rewrite dots_only_spec.
  destruct (forallb _ base); cbn [negb]; [done|].
  unfold slice. rewrite Nat2Z.id. cbn [Z.to_nat drop]. rewrite Nat.sub_0_r.
  rewrite (assoc_L (++)).
  rewrite <- (length_app dir base).
  change (Z.to_nat 0) with 0. rewrite drop_0.
  by rewrite take_app_length, drop_app_length.
Qed.

(** ** What the report offers *)

Lemma count_true_isnull vs : count_true (isnull <$> vs) = count NaN vs.
Proof.
  induction vs as [|x vs IH]; [done|].
  rewrite fmap_cons, count_true_cons, IH. unfold count.
  rewrite filter_cons. destruct x; simpl; by rewrite ?decide_True, ?decide_False.
Qed.

Lemma count_zero x vs : count x vs = 0 ↔ x ∉ vs.
Proof.
  split.
  - intros Hz Hin. apply count_pos in Hin. lia.
  - intros Hout. destruct (count x vs) eqn:Hc; [done|].
    destruct Hout. apply count_pos_inv. lia.
Qed.

Lemma cols_with_missing_spec col d :
  col ∈ cols_with_missing d ↔ ∃ c, c ∈ d ∧ name c = col ∧ NaN ∈ values c.
Proof.
  unfold cols_with_missing, missing_data. rewrite list_elem_of_fmap. split.
  - intros ([col' n] & -> & Hin). apply list_elem_of_filter in Hin as [Hpos Hin].
    apply list_elem_of_fmap in Hin as (c & [= -> ->] & Hc). simpl in *.
    exists c. split; [done|]. split; [done|].
    apply count_pos_inv. by rewrite <- count_true_isnull.
  - intros (c & Hc & <- & Hnan).
    exists (name c, count_true (isnull <$> values c)). split; [done|].
    apply list_elem_of_filter. split.
    + simpl. rewrite count_true_isnull. by apply count_pos.
    + apply list_elem_of_fmap. by exists c.
Qed.

Lemma sum_list_elem_of (n : nat) l : n ∈ l → n ≤ sum_list l.
Proof.
  induction l as [|m l IH]; [by intros ?%elem_of_nil|].
  intros [->|Hin]%elem_of_cons; simpl; [lia|]. specialize (IH Hin). lia.
Qed.

Lemma total_missing_pos d c : c ∈ d → NaN ∈ values c → 0 < total_missing d.
Proof.
  intros Hc Hnan. unfold total_missing, missing_data.
  assert (count NaN (values c) ∈ (snd <$> ((λ c, (name c, count_true (isnull <$> values c))) <$> d)))
    as Hin.
  { apply list_elem_of_fmap. exists (name c, count_true (isnull <$> values c)).
    split; [by rewrite count_true_isnull|]. apply list_elem_of_fmap. by exists c. }
  apply sum_list_elem_of in Hin. apply count_pos in Hnan. lia.
Qed.

(** With a missing cell in its column, the Apply button of [col] runs the
    action picked in the select box. *)
Lemma click_apply_runs col choice text s c :
  get_col col (current s) = Some c → NaN ∈ values c →
  run (ApplyTo col choice text) s
  = match options (is_numeric_dtype (dty c)) !! choice with
    | Some action =>
        apply_action col action
          (if decide (action = "Fill with Custom Value") then Some text else None) s
    | None => NotOffered
    end.
Proof.
  intros Hc Hnan. pose proof (get_col_Some _ _ _ Hc) as [Hname Hin].
  unfold run, click_apply.
  rewrite bool_decide_eq_true_2 by by eapply total_missing_pos.
  rewrite bool_decide_eq_true_2 by (apply cols_with_missing_spec; eauto).
  by rewrite Hc.
Qed.

(** Without a missing cell in a column of that label, there is no Apply
    button for [col]. *)
Lemma click_apply_not_offered col choice text s :
  col ∉ cols_with_missing (current s) →
  run (ApplyTo col choice text) s = NotOffered.
Proof.
  intros Hcol. unfold run, click_apply.
  rewrite (bool_decide_eq_false_2 (col ∈ _)) by done.
  by destruct (bool_decide (0 < total_missing (current s))).
Qed.

Lemma options_delete b : options b !! 1 = Some "Delete rows with missing values".
Proof. by destruct b. Qed.

(** ** Deleting rows *)

Lemma select_as_filter {A B} (p : A → bool) (P : B → Prop)
    `{∀ x, Decision (P x)} (l : list A) (k : list B) :
  Forall2 (λ a b, p a = true ↔ P b) l k → select (p <$> l) k = filter P k.
Proof.
  induction 1 as [|a b l k Hab _ IH]; [done|].
  rewrite fmap_cons. cbn [select]. rewrite filter_cons, IH.
  destruct (p a) eqn:Hp.
  - by rewrite decide_True by by apply Hab.
  - rewrite decide_False; [done|]. intros HP. apply Hab in HP. congruence.
Qed.

Lemma rows_lookup d i : i < nrows d → rows d !! i = Some (row_at d i).
Proof.
  intros Hi. unfold rows. rewrite list_lookup_fmap.
  by rewrite lookup_seq_lt.
Qed.

(** Row [i] has a value in column [j] exactly when the column has one at
    [i]. *)
Lemma rows_column d j c :
  wf_frame d → d !! j = Some c →
  Forall2 (λ x (r : row), notnull x = true ↔ r !! j ≠ Some NaN) (values c) (rows d).
Proof.
  intros Hwf Hj.
  assert (length (values c) = nrows d) as Hlen.
  { apply wf_frame_lengths; [done|]. by eapply list_elem_of_lookup_2. }
  apply Forall2_same_length_lookup_2; [by rewrite rows_length|].
  intros i x r Hx Hr.
  assert (i < nrows d) as Hi by (rewrite <- Hlen; by eapply lookup_lt_Some).
  rewrite rows_lookup in Hr by done. injection Hr as <-.
  rewrite (row_at_lookup d i j c Hj), Hx. simpl.
  destruct x; unfold notnull; simpl; split; congruence.
Qed.

Lemma select_no_missing vs : NaN ∉ select (notnull <$> vs) vs.
Proof.
  induction vs as [|x vs IH]; [by intros ?%elem_of_nil|].
  rewrite fmap_cons. cbn [select]. destruct x; simpl; set_solver.
Qed.

Lemma get_col_lookup d j c :
  NoDup (name <$> d) → d !! j = Some c → get_col (name c) d = Some c.
Proof.
  intros Hnd Hj. destruct (get_col (name c) d) as [c'|] eqn:Hget.
  - apply get_col_Some in Hget as [Hname Hin]. f_equal.
    eapply names_inj; [done|done| |done]. by eapply list_elem_of_lookup_2.
  - apply get_col_None in Hget. destruct Hget.
    apply list_elem_of_fmap. exists c. split; [done|]. by eapply list_elem_of_lookup_2.
Qed.

Lemma get_col_elem_of d c :
  NoDup (name <$> d) → c ∈ d → get_col (name c) d = Some c.
Proof.
  intros Hnd [j Hj]%list_elem_of_lookup_1. by eapply get_col_lookup.
Qed.

Lemma nrows_select_rows mask d c :
  c ∈ d → wf_frame d → length mask = nrows d →
  nrows (select_rows mask d) = count_true mask.
Proof.
  intros Hc Hwf Hlen. rewrite select_rows_nrows by done.
  destruct d; [by apply elem_of_nil in Hc|done].
Qed.

(** X1. Delete rows with missing values (lines 108-112): the rows with a
    value in the chosen column stay, in their order and with all their
    cells; the others go, and the log entry counts them. *)
Theorem delete_rows_keeps_rows_with_a_value
    (s : session_state) (col text : string) (j : nat) (c : series) :
  wf_frame (current s) →
  current s !! j = Some c → name c = col → NaN ∈ values c →
  ∃ s', run (ApplyTo col 1 text) s = Done s'
    ∧ header (current s') = header (current s)
    ∧ rows (current s') = filter (λ r, r !! j ≠ Some NaN) (rows (current s))
    ∧ nrows (current s') = nrows (current s) - count NaN (values c)
    ∧ cleaning_log s'
      = cleaning_log s ++ ["Deleted " +:+ pretty (count NaN (values c))
                           +:+ " rows due to missing values in '" +:+ col +:+ "'."].
Proof.
  intros Hwf Hj <- Hnan.
  assert (c ∈ current s) as Hin by by eapply list_elem_of_lookup_2.
  assert (get_col (name c) (current s) = Some c) as Hget
    by (apply get_col_lookup with j; [apply Hwf|done]).
  assert (length (notnull <$> values c) = nrows (current s)) as Hlen
    by (rewrite length_fmap; by apply wf_frame_lengths).
  assert (nrows (current s) - count_true (notnull <$> values c) = count NaN (values c))
    as Hcount.
  { pose proof (count_true_negb (isnull <$> values c)) as Hsum.
    rewrite <- list_fmap_compose, length_fmap, count_true_isnull in Hsum.
    change (negb ∘ isnull) with notnull in Hsum.
    rewrite length_fmap in Hlen. lia. }
  rewrite (click_apply_runs _ _ _ _ c Hget Hnan), options_delete.
  unfold apply_action. rewrite decide_True by done.
  unfold dropna. rewrite Hget.
  eexists. split; [reflexivity|].
  rewrite current_log_append, current_mutate.
  rewrite (nrows_select_rows _ _ c) by done.
  split; [apply select_rows_header|]. split.
  { rewrite rows_select_rows by done. apply select_as_filter. by apply rows_column. }
  split; [|by rewrite Hcount].
  pose proof (count_true_negb (isnull <$> values c)) as Hsum.
  rewrite <- list_fmap_compose, length_fmap, count_true_isnull in Hsum.
  change (negb ∘ isnull) with notnull in Hsum.
  rewrite length_fmap in Hlen. lia.
Qed.

(** ** Removing duplicates, again *)

Lemma duplicated_from_NoDup seen rs :
  NoDup rs → (∀ r, r ∈ rs → r ∉ seen) → count_true (duplicated_from seen rs) = 0.
Proof.
  revert seen. induction rs as [|r rs IH]; intros seen Hnd Hseen; [done|].
  apply NoDup_cons in Hnd as [Hr Hnd]. cbn [duplicated_from].
  rewrite count_true_cons, bool_decide_eq_false_2 by (apply Hseen; by left).
  rewrite IH; [done|done|].
  intros r' Hr' [->|Hin]%elem_of_cons; [done|].
  by apply (Hseen r'); [right|].
Qed.

(** X2. Remove All Duplicates (lines 67-73) leaves a frame without
    duplicate rows, so the button is gone on the next run; at least one
    row went. *)
Theorem remove_duplicates_leaves_none (s s' : session_state) :
  wf_frame (current s) →
  run RemoveAllDuplicates s = Done s' →
  duplicate_count (current s') = 0
  ∧ run RemoveAllDuplicates s' = NotOffered
  ∧ nrows (current s') < nrows (current s).
Proof.
  intros Hwf Hrun. simpl in Hrun. unfold click_remove_duplicates in Hrun.
  case_bool_decide as Hpos; [|done]. injection Hrun as <-.
  assert (duplicate_count (current (log_append
            ("Removed " +:+ pretty (duplicate_count (current s)) +:+ " duplicate rows.")
            (mutate drop_duplicates s))) = 0) as Hzero.
  { rewrite current_log_append, current_mutate.
    unfold duplicate_count, duplicated. rewrite rows_drop_duplicates by done.
    apply duplicated_from_NoDup; [|by intros ? _ ?%elem_of_nil].
    pose proof (kept_first_occurrences [] (rows (current s))) as Hkept.
    rewrite filter_all in Hkept by (apply Forall_forall; by intros ? _ ?%elem_of_nil).
    rewrite <- Hkept. apply kept_NoDup. }
  split; [done|]. split.
  - simpl. unfold click_remove_duplicates. rewrite Hzero.
    by rewrite bool_decide_eq_false_2 by lia.
  - rewrite current_log_append, current_mutate.
    pose proof (nrows_drop_duplicates (current s) Hwf) as Hn.
    assert (nrows (drop_duplicates (current s)) ≤ nrows (current s)); [|lia].
    rewrite <- !rows_length, rows_drop_duplicates by done.
    pose proof (kept_first_occurrences [] (rows (current s))) as Hkept.
    rewrite filter_all in Hkept by (apply Forall_forall; by intros ? _ ?%elem_of_nil).
    rewrite <- Hkept.
    generalize (negb <$> duplicated_from [] (rows (current s))).
    generalize (rows (current s)). clear.
    induction l as [|r l IH]; intros [|[] mask]; simpl; try lia.
    + specialize (IH mask). lia.
    + specialize (IH mask). lia.
Qed.

(** ** The log *)

Lemma log_append_neq msg s : cleaning_log (log_append msg s) ≠ cleaning_log s.
Proof.
  simpl. intros Heq. apply (f_equal length) in Heq.
  rewrite length_app in Heq. simpl in Heq. lia.
Qed.

Lemma apply_action_log col action custom_val s s' :
  apply_action col action custom_val s = Done s' →
  s' = s ∨ ∃ msg s1, s' = log_append msg s1 ∧ cleaning_log s1 = cleaning_log s.
Proof.
  unfold apply_action, dropna. intros Hrun.
  repeat case_decide; repeat case_match; simplify_eq;
    first [by left | right; by eexists _, _].
Qed.

(** X3. What a run changes, it logs (lines 67-131, 152-155): a run that
    ends normally either leaves the session as it was, or appends exactly
    one entry to the log, or is the reset and empties a log that was not
    empty.  A run that raises leaves the log as it was. *)
Theorem run_logs_what_it_changes (ev : event) (s s' : session_state) :
  (run ev s = Done s' →
     s' = s
     ∨ (∃ msg, cleaning_log s' = cleaning_log s ++ [msg])
     ∨ (ev = ResetAllChanges ∧ cleaning_log s ≠ [] ∧ cleaning_log s' = []))
  ∧ (run ev s = Done s' → cleaning_log s' = cleaning_log s → s' = s)
  ∧ (∀ e, run ev s = Raised e s' → cleaning_log s' = cleaning_log s).
Proof.
  assert (run ev s = Done s' →
          s' = s
          ∨ (∃ msg s1, s' = log_append msg s1 ∧ cleaning_log s1 = cleaning_log s)
          ∨ (ev = ResetAllChanges ∧ cleaning_log s ≠ [] ∧ cleaning_log s' = []))
    as Hcases.
  { destruct ev as [| |col choice text|]; simpl.
    - unfold click_remove_duplicates. case_bool_decide; [|done].
      intros [= <-]. right; left. by eexists _, _.
    - unfold click_trim_whitespace. case_bool_decide; [|done].
      destruct (trim_columns _ _).1; [done|].
      intros [= <-]. right; left. by eexists _, _.
    - unfold click_apply. repeat case_bool_decide; try done.
      repeat case_match; try done;
        (intros Hrun; apply apply_action_log in Hrun as [->|Hrun];
         [by left|right; by left]).
    - unfold click_reset. case_bool_decide; [|done].
      intros [= <-]. right; right. done. }
  split; [|split].
  - intros Hrun. destruct (Hcases Hrun) as [->|[(msg & s1 & -> & Hlog)|?]];
      [by left| |by right; right].
    right; left. exists msg. simpl. by rewrite Hlog.
  - intros Hrun Hlog. destruct (Hcases Hrun) as [->|[(msg & s1 & -> & Hlog1)|(_ & Hne & Hnil)]];
      [done| |congruence].
    destruct (log_append_neq msg s1). by rewrite Hlog1.
  - intros e. destruct ev as [| |col choice text|]; simpl.
    + unfold click_remove_duplicates. by case_bool_decide.
    + unfold click_trim_whitespace. case_bool_decide; [|done].
      destruct (trim_columns _ _).1; [|done]. by intros [= _ <-].
    + unfold click_apply. repeat case_bool_decide; try done.
      repeat case_match; try done;
        first [by intros [= _ <-] | by intros ->%apply_action_raised].
    + unfold click_reset. by case_bool_decide.
Qed.

(** ** Filling *)

Lemma options_numeric :
  options true !! 2 = Some "Fill with Mean"
  ∧ options true !! 3 = Some "Fill with Median"
  ∧ options true !! 4 = Some "Fill with Custom Value".
Proof. done. Qed.

Lemma options_text :
  options false !! 2 = Some "Fill with Mode (Most Frequent)"
  ∧ options false !! 3 = Some "Fill with Custom Value".
Proof. done. Qed.

Lemma fillna_inplace_missing col d : fillna_inplace col NaN d = d.
Proof.
  unfold fillna_inplace. apply fmap_id_elem_of. intros c _.
  by destruct (decide (name c = col)).
Qed.

Lemma numeric_values_nothing vs :
  Forall (λ x, x = NaN) vs → numeric_values vs = Some [].
Proof. induction 1 as [|x vs -> _ IH]; [done|]. exact IH. Qed.

Lemma value_count_nothing vs t :
  Forall (λ x, x = NaN) vs →
  foldl (λ t x, if isnull x then t else bump x t) t vs = t.
Proof. intros Hall. revert t. induction Hall as [|x vs -> _ IH]; intros t; [done|]. apply IH. Qed.

Lemma series_mode_nothing c : Forall (λ x, x = NaN) (values c) → series_mode c = [].
Proof.
  intros Hall. unfold series_mode, htable_mode, value_count.
  by rewrite value_count_nothing.
Qed.

Lemma all_missing_elem_of vs :
  vs ≠ [] → Forall (λ x, x = NaN) vs → NaN ∈ vs.
Proof. intros Hne Hall. destruct Hall as [|x vs -> _]; [done|by left]. Qed.


(** The branch of the Apply handler each entry of the select box takes. *)
Lemma apply_delete col custom_val s :
  apply_action col "Delete rows with missing values" custom_val s
  = match dropna col (current s) with
    | inl e => Raised e s
    | inr d' =>
        Done (log_append
                ("Deleted " +:+ pretty (nrows (current s)
                                        - nrows (current (mutate (λ _, d') s)))
                 +:+ " rows due to missing values in '" +:+ col +:+ "'.")
                (mutate (λ _, d') s))
    end.
Proof. done. Qed.

Lemma apply_mean col custom_val s c :
  get_col col (current s) = Some c →
  apply_action col "Fill with Mean" custom_val s
  = match series_mean c with
    | inl e => Raised e s
    | inr val =>
        Done (log_append
                ("Filled missing values in '" +:+ col +:+ "' with mean ("
                 +:+ match val with Num x => format_2f x | _ => "nan" end +:+ ").")
                (mutate (fillna_inplace col val) s))
    end.
Proof. intros Hc. unfold apply_action. by rewrite Hc. Qed.

Lemma apply_median col custom_val s c :
  get_col col (current s) = Some c →
  apply_action col "Fill with Median" custom_val s
  = match series_median c with
    | inl e => Raised e s
    | inr val =>
        Done (log_append
                ("Filled missing values in '" +:+ col +:+ "' with median ("
                 +:+ py_str val +:+ ").")
                (mutate (fillna_inplace col val) s))
    end.
Proof. intros Hc. unfold apply_action. by rewrite Hc. Qed.

Lemma apply_mode col custom_val s c :
  get_col col (current s) = Some c →
  apply_action col "Fill with Mode (Most Frequent)" custom_val s
  = match series_mode c with
    | [] => Raised KeyError s
    | val :: _ =>
        Done (log_append
                ("Filled missing values in '" +:+ col +:+ "' with mode ("
                 +:+ py_str val +:+ ").")
                (mutate (fillna_inplace col val) s))
    end.
Proof. intros Hc. unfold apply_action. by rewrite Hc. Qed.

Lemma apply_custom col v s c :
  get_col col (current s) = Some c →
  apply_action col "Fill with Custom Value" (Some v) s
  = Done (log_append
            ("Filled missing values in '" +:+ col +:+ "' with custom value: "
             +:+ v +:+ ".")
            (mutate (fillna_inplace col (Str v)) s)).
Proof. intros Hc. unfold apply_action. by rewrite Hc. Qed.

(** X4. Fill with Mean and Fill with Median on a numeric column that holds
    no value at all (lines 113-120): the mean of nothing is NaN, filling
    with it fills nothing, and the run still logs that the column was
    filled, with [nan] as the value. *)
Theorem mean_of_nothing_fills_nothing
    (s : session_state) (col text : string) (c : series) :
  nanmean [] = None → nanmedian [] = None →
  get_col col (current s) = Some c →
  is_numeric_dtype (dty c) = true →
  values c ≠ [] → Forall (λ x, x = NaN) (values c) →
  (∃ s', run (ApplyTo col 2 text) s = Done s'
     ∧ current s' = current s
     ∧ cleaning_log s'
       = cleaning_log s ++ ["Filled missing values in '" +:+ col
                            +:+ "' with mean (" +:+ "nan" +:+ ")."])
  ∧ (∃ s', run (ApplyTo col 3 text) s = Done s'
     ∧ current s' = current s
     ∧ cleaning_log s'
       = cleaning_log s ++ ["Filled missing values in '" +:+ col
                            +:+ "' with median (" +:+ "nan" +:+ ")."]).
Proof.
  intros Hmean Hmedian Hc Hnum Hne Hall.
  pose proof (all_missing_elem_of _ Hne Hall) as Hnan.
  rewrite !(click_apply_runs _ _ _ _ c Hc Hnan), Hnum.
  destruct options_numeric as (-> & -> & _).
  rewrite (apply_mean _ _ _ c), (apply_median _ _ _ c) by done.
  unfold series_mean, series_median.
  rewrite (numeric_values_nothing _ Hall), Hmean, Hmedian. cbn [of_float].
  split; eexists; (split; [reflexivity|]);
    by rewrite current_log_append, current_mutate, fillna_inplace_missing.
Qed.

(** X5. Fill with Mode on a text column that holds no value at all (lines
    121-124): [mode()] is empty, taking its first entry raises
    [KeyError], and nothing is changed or logged. *)
Theorem mode_of_nothing_raises
    (s : session_state) (col text : string) (c : series) :
  get_col col (current s) = Some c →
  is_numeric_dtype (dty c) = false →
  values c ≠ [] → Forall (λ x, x = NaN) (values c) →
  run (ApplyTo col 2 text) s = Raised KeyError s.
Proof.
  intros Hc Hnum Hne Hall.
  pose proof (all_missing_elem_of _ Hne Hall) as Hnan.
  rewrite (click_apply_runs _ _ _ _ c Hc Hnan), Hnum.
  destruct options_text as (-> & _).
  rewrite (apply_mode _ _ _ c) by done.
  by rewrite series_mode_nothing.
Qed.

Lemma fillna_missing_cells val c :
  val ≠ NaN → NaN ∈ values c →
  fillna val c
  = Series (name c)
           (match upcast (dty c) val with
            | object_ => soft_convert ((λ x, if isnull x then val else x) <$> values c)
            | ty => ty
            end)
           ((λ x, if isnull x then val else x) <$> values c).
Proof.
  intros Hval Hnan. unfold fillna.
  assert (isnull val = false) as -> by (by destruct val).
  assert (existsb isnull (values c) = true) as ->; [|done].
  apply existsb_exists. exists NaN. split; [by apply list_elem_of_In|done].
Qed.

(** A column that holds a text stays an object column. *)
Lemma soft_convert_text vs v : Str v ∈ vs → soft_convert vs = object_.
Proof.
  intros Hv. unfold soft_convert. destruct vs as [|x vs]; [done|].
  assert (∀ p : cell → bool, p (Str v) = false → forallb p (x :: vs) = false) as Hno.
  { intros p Hp. apply not_true_is_false. rewrite forallb_forall. intros Hall.
    specialize (Hall (Str v)). rewrite <- list_elem_of_In in Hall.
    specialize (Hall Hv). congruence. }
  by rewrite !Hno.
Qed.

Lemma fillna_no_missing val c : val ≠ NaN → NaN ∉ values (fillna val c).
Proof.
  intros Hval. destruct (decide (NaN ∈ values c)) as [Hin|Hout].
  - rewrite fillna_missing_cells by done. simpl.
    intros (x & Hx & _)%list_elem_of_fmap. by destruct x.
  - unfold fillna. destruct (isnull val); [done|].
    destruct (existsb isnull (values c)) eqn:Hex; [|done].
    apply existsb_exists in Hex as (x & Hx%list_elem_of_In & Hnull).
    by destruct x.
Qed.

(** After a fill with an actual value no column labelled [col] has a
    missing cell. *)
Lemma fillna_inplace_resolves col val d :
  val ≠ NaN → col ∉ cols_with_missing (fillna_inplace col val d).
Proof.
  intros Hval (c' & Hin & Hname & Hnan)%cols_with_missing_spec.
  unfold fillna_inplace in Hin. apply list_elem_of_fmap in Hin as (c & -> & _).
  destruct (decide (name c = col)) as [Hc|Hc].
  - by apply fillna_no_missing in Hnan.
  - done.
Qed.

Lemma dropna_resolves col d d' :
  wf_frame d → dropna col d = inr d' → col ∉ cols_with_missing d'.
Proof.
  intros Hwf Hdrop (c' & Hin & Hname & Hnan)%cols_with_missing_spec.
  unfold dropna in Hdrop. destruct (get_col col d) as [c|] eqn:Hc; [|done].
  injection Hdrop as <-. apply get_col_Some in Hc as [Hcol Hc].
  unfold select_rows in Hin. apply list_elem_of_fmap in Hin as (c0 & -> & Hc0).
  simpl in *. assert (c0 = c) as ->.
  { eapply names_inj; [apply Hwf|done|done|congruence]. }
  by apply select_no_missing in Hnan.
Qed.

Lemma np_sort_elem_of l sorted v : np_sort l = Some sorted → v ∈ sorted → v ∈ l.
Proof.
  unfold np_sort. destruct (forallb is_str l) eqn:Hstr.
  - intros [= <-] (w & -> & Hw)%list_elem_of_fmap.
    rewrite merge_sort_Permutation in Hw.
    apply list_elem_of_fmap in Hw as (x & -> & Hx).
    rewrite forallb_forall in Hstr. specialize (Hstr x).
    rewrite <- list_elem_of_In in Hstr. specialize (Hstr Hx).
    by destruct x.
  - destruct (existsb is_str l); [done|].
    intros [= <-]. by rewrite merge_sort_Permutation.
Qed.

Lemma series_mode_present c v : v ∈ series_mode c → v ≠ NaN.
Proof.
  unfold series_mode. intros Hv.
  assert (v ∈ htable_mode (values c)) as Hin.
  { destruct (np_sort (htable_mode (values c))) as [sorted|] eqn:Hsort; [|done].
    by eapply np_sort_elem_of. }
  by apply htable_mode_spec in Hin as [? _].
Qed.

(** X6. Fill with Mean and Fill with Median when the column has a value
    to compute from (lines 113-120): every missing cell gets the mean,
    respectively the median, of the cells that were present, the column
    is a float column afterwards, the log shows the value (the mean with
    two decimals), and the column no longer appears among those with
    missing values. *)
Theorem fill_mean_and_median_write_the_value
    (s : session_state) (col text : string) (c : series) (xs : list num) :
  get_col col (current s) = Some c →
  is_numeric_dtype (dty c) = true →
  NaN ∈ values c →
  numeric_values (values c) = Some xs →
  (∀ m, nanmean xs = Some m →
     ∃ s', run (ApplyTo col 2 text) s = Done s'
       ∧ get_col col (current s')
         = Some (Series col float64 ((λ x, if isnull x then Num m else x) <$> values c))
       ∧ cleaning_log s'
         = cleaning_log s ++ ["Filled missing values in '" +:+ col
                              +:+ "' with mean (" +:+ format_2f m +:+ ")."]
       ∧ col ∉ cols_with_missing (current s'))
  ∧ (∀ m, nanmedian xs = Some m →
     ∃ s', run (ApplyTo col 3 text) s = Done s'
       ∧ get_col col (current s')
         = Some (Series col float64 ((λ x, if isnull x then Num m else x) <$> values c))
       ∧ cleaning_log s'
         = cleaning_log s ++ ["Filled missing values in '" +:+ col
                              +:+ "' with median (" +:+ str_float m +:+ ")."]
       ∧ col ∉ cols_with_missing (current s')).
Proof.
  intros Hc Hnum Hnan Hxs.
  pose proof (get_col_Some _ _ _ Hc) as [Hname _].
  assert (∀ m, fillna (Num m) c
               = Series col float64 ((λ x, if isnull x then Num m else x) <$> values c))
    as Hfill.
  { intros m. rewrite fillna_missing_cells by done. rewrite Hname.
    by destruct (dty c). }
  rewrite !(click_apply_runs _ _ _ _ c Hc Hnan), Hnum.
  destruct options_numeric as (-> & -> & _).
  rewrite (apply_mean _ _ _ c), (apply_median _ _ _ c) by done.
  unfold series_mean, series_median. rewrite Hxs.
  split; intros m ->; cbn [of_float]; eexists; (split; [reflexivity|]);
    rewrite current_log_append, current_mutate;
    (split; [by rewrite (get_col_fillna_inplace _ _ _ c), Hfill|]);
    (split; [done|]); by apply fillna_inplace_resolves.
Qed.

(** X7. Fill with Custom Value (lines 103-105, 125-127): what was typed is
    written into the missing cells as text, whatever the column held, so
    the column is an object column afterwards; the entry is logged and
    the column no longer appears among those with missing values. *)
Theorem custom_value_is_written_as_text
    (s : session_state) (col v : string) (choice : nat) (c : series) :
  get_col col (current s) = Some c →
  NaN ∈ values c →
  options (is_numeric_dtype (dty c)) !! choice = Some "Fill with Custom Value" →
  ∃ s', run (ApplyTo col choice v) s = Done s'
    ∧ get_col col (current s')
      = Some (Series col object_ ((λ x, if isnull x then Str v else x) <$> values c))
    ∧ cleaning_log s'
      = cleaning_log s ++ ["Filled missing values in '" +:+ col
                           +:+ "' with custom value: " +:+ v +:+ "."]
    ∧ col ∉ cols_with_missing (current s').
Proof.
  intros Hc Hnan Hopt.
  pose proof (get_col_Some _ _ _ Hc) as [Hname _].
  rewrite (click_apply_runs _ _ _ _ c Hc Hnan), Hopt.
  rewrite decide_True by done. rewrite (apply_custom _ _ _ c) by done.
  eexists. split; [reflexivity|].
  rewrite current_log_append, current_mutate.
  split.
  { rewrite (get_col_fillna_inplace _ _ _ c) by done.
    rewrite fillna_missing_cells by done. rewrite Hname. f_equal. f_equal.
    assert (upcast (dty c) (Str v) = object_) as -> by (by destruct (dty c)).
    apply (soft_convert_text _ v). apply list_elem_of_fmap. by exists NaN. }
  split; [done|]. by apply fillna_inplace_resolves.
Qed.

(** X8. A column is settled by one action (lines 86-131): after Delete
    rows, Fill with Mode or Fill with Custom Value has run for a column,
    that column has no missing cell left, so the next run shows no
    expander and no Apply button for it. *)
Theorem settled_column_is_not_offered_again
    (s s' : session_state) (col text action : string) (choice : nat) (c : series) :
  wf_frame (current s) →
  get_col col (current s) = Some c →
  options (is_numeric_dtype (dty c)) !! choice = Some action →
  action ∈ ["Delete rows with missing values"; "Fill with Mode (Most Frequent)";
            "Fill with Custom Value"] →
  run (ApplyTo col choice text) s = Done s' →
  (col ∉ cols_with_missing (current s'))
  ∧ ∀ choice' text', run (ApplyTo col choice' text') s' = NotOffered.
Proof.
  intros Hwf Hc Hopt Haction Hrun.
  assert (col ∉ cols_with_missing (current s')) as Hres;
    [|split; [done|]; intros; by apply click_apply_not_offered].
  assert (run (ApplyTo col choice text) s ≠ NotOffered) as Hoffered
    by (rewrite Hrun; done).
  apply click_apply_offered in Hoffered as (c0 & action0 & Hc0 & Hopt0 & Heq).
  rewrite Hc in Hc0. injection Hc0 as <-. rewrite Hopt in Hopt0. injection Hopt0 as <-.
  rewrite Hrun in Heq. symmetry in Heq.
  apply elem_of_cons in Haction as [->|Haction];
    [|apply elem_of_cons in Haction as [->|Haction];
      [|apply list_elem_of_singleton in Haction as ->]].
  - rewrite apply_delete in Heq.
    destruct (dropna col (current s)) as [e|d'] eqn:Hdrop; [done|].
    injection Heq as <-. rewrite current_log_append, current_mutate.
    by eapply dropna_resolves.
  - rewrite (apply_mode _ _ _ c) in Heq by done.
    destruct (series_mode c) as [|val rest] eqn:Hmode; [done|].
    injection Heq as <-. rewrite current_log_append, current_mutate.
    apply fillna_inplace_resolves. apply (series_mode_present c).
    rewrite Hmode. by left.
  - rewrite decide_True in Heq by done. rewrite (apply_custom _ _ _ c) in Heq by done.
    injection Heq as <-. rewrite current_log_append, current_mutate.
    by apply fillna_inplace_resolves.
Qed.

(** ** Trim All Whitespace, cell by cell *)

Lemma text_only_accepted d : text_only d → accepted d.
Proof.
  unfold text_only, accepted. intros Hall. eapply Forall_impl; [exact Hall|].
  intros c Hc Hobj. by apply str_accessor_ok_text, Hc.
Qed.

(** X9. Trim All Whitespace on a frame whose object columns all pass the
    check of the [.str] accessor (lines 76-83): the run ends normally,
    logs the number of cells the report counted, leaves no cell with
    surrounding whitespace, and the button is gone on the next run, so
    trimming cannot be repeated. *)
Theorem trim_once_is_enough (s : session_state) :
  wf_frame (current s) → accepted (current s) →
  0 < whitespace_issues (current s) →
  ∃ s', run TrimAllWhitespace s = Done s'
    ∧ cleaning_log s'
      = cleaning_log s ++ ["Trimmed whitespace in "
                           +:+ pretty (whitespace_issues (current s)) +:+ " cells."]
    ∧ whitespace_issues (current s') = 0
    ∧ run TrimAllWhitespace s' = NotOffered
    ∧ trim_columns (string_cols (current s')) (current s') = (None, current s').
Proof.
  intros Hwf Hacc Hws. simpl. unfold click_trim_whitespace. cbv zeta.
  rewrite bool_decide_eq_true_2 by done.
  rewrite trim_columns_accepted by done. simpl.
  eexists. split; [done|]. split; [done|].
  rewrite current_log_append, current_mutate.
  split; [by apply trim_frame_no_issues|].
  split; [rewrite trim_frame_no_issues by done; by rewrite bool_decide_eq_false_2 by lia|].
  rewrite trim_columns_accepted; [by rewrite trim_frame_idemp|by apply trim_frame_wf|].
  apply trim_frame_accepted.
Qed.

(** X10. What Trim All Whitespace does to each cell (line 80): columns
    that are not object columns are untouched; in an object column a text
    is stripped, a missing cell stays missing, and every other value (a
    number or a truth value kept among text) is replaced by a missing
    cell. *)
Theorem trim_strips_text_and_blanks_other_values
    (s s' : session_state) (j : nat) (c : series) :
  wf_frame (current s) → accepted (current s) →
  run TrimAllWhitespace s = Done s' →
  current s !! j = Some c →
  ∃ c', current s' !! j = Some c'
    ∧ name c' = name c
    ∧ (dty c ≠ object_ → c' = c)
    ∧ (dty c = object_ →
       dty c' = object_
       ∧ length (values c') = length (values c)
       ∧ ∀ i x, values c !! i = Some x →
           values c' !! i = Some (match x with Str t => Str (strip t) | _ => NaN end)).
Proof.
  intros Hwf Hacc Hrun Hj. simpl in Hrun. unfold click_trim_whitespace in Hrun.
  cbv zeta in Hrun. case_bool_decide as Hws; [|done].
  rewrite trim_columns_accepted in Hrun by done. simpl in Hrun.
  injection Hrun as <-. rewrite current_log_append, current_mutate.
  unfold trim_frame. rewrite list_lookup_fmap, Hj. simpl.
  eexists. split; [done|].
  destruct (decide (dty c = object_)) as [Hobj|Hno].
  - split; [done|]. split; [done|]. intros _. split; [done|].
    simpl. rewrite length_fmap. split; [done|].
    intros i x Hx. rewrite list_lookup_fmap, Hx. by destruct x.
  - split; [done|]. split; [done|]. done.
Qed.

(** ** Trim All Whitespace, when a column is rejected *)

Lemma trim_columns_app cols1 cols2 d :
  trim_columns (cols1 ++ cols2) d
  = match (trim_columns cols1 d).1 with
    | None => trim_columns cols2 (trim_columns cols1 d).2
    | Some e => trim_columns cols1 d
    end.
Proof.
  revert d. induction cols1 as [|col cols1 IH]; intros d; [done|].
  cbn [app trim_columns]. destruct (get_col col d) as [c|]; [|done].
  destruct (str_strip c) as [e|vs]; [done|]. apply IH.
Qed.

Lemma string_cols_app d1 d2 : string_cols (d1 ++ d2) = string_cols d1 ++ string_cols d2.
Proof. unfold string_cols. by rewrite filter_app, fmap_app. Qed.

Lemma string_cols_cons_object c d :
  dty c = object_ → string_cols (c :: d) = name c :: string_cols d.
Proof. intros Hobj. unfold string_cols. by rewrite filter_cons, decide_True. Qed.

Lemma string_cols_elem_of col d :
  col ∈ string_cols d → ∃ c, c ∈ d ∧ name c = col ∧ dty c = object_.
Proof.
  unfold string_cols. intros (c & -> & Hc)%list_elem_of_fmap.
  apply list_elem_of_filter in Hc as [Hobj Hc]. eauto.
Qed.

(** The loop over the object columns of [pre ++ bad :: post] trims those
    of [pre] and stops at [bad]. *)
Lemma trim_columns_rejected pre bad post :
  wf_frame (pre ++ bad :: post) → accepted pre →
  dty bad = object_ → str_accessor_ok (values bad) = false →
  trim_columns (string_cols (pre ++ bad :: post)) (pre ++ bad :: post)
  = (Some AttributeError, trim_frame pre ++ bad :: post).
Proof.
  intros [Hlen Hnd] Hacc Hobj Hbad.
  pose proof Hnd as Hnd'. rewrite fmap_app in Hnd'.
  apply NoDup_app in Hnd' as (Hnd_pre & Hdisj & Hnd_post).
  rewrite string_cols_app, string_cols_cons_object, trim_columns_app by done.
  rewrite trim_columns_closed.
  - cbn [fst snd].
    assert ((λ c, if decide (name c ∈ string_cols pre) then trimmed c else c)
              <$> (pre ++ bad :: post) = trim_frame pre ++ bad :: post) as ->.
    { rewrite fmap_app. f_equal.
      - unfold trim_frame. apply fmap_ext_elem_of. intros c Hc.
        destruct (decide (dty c = object_)) as [Ho|Ho].
        + by rewrite decide_True by (by apply string_cols_spec).
        + rewrite decide_False; [done|]. by rewrite string_cols_spec.
      - apply fmap_id_elem_of. intros c Hc.
        rewrite decide_False; [done|].
        intros (c' & Hc' & Hname & _)%string_cols_elem_of.
        apply (Hdisj (name c)).
        + apply list_elem_of_fmap. by exists c'.
        + apply list_elem_of_fmap. by exists c. }
    cbn [trim_columns].
    assert (get_col (name bad) (trim_frame pre ++ bad :: post) = Some bad) as ->.
    { apply get_col_elem_of; [|set_solver].
      by rewrite fmap_app, trim_frame_names, <- fmap_app. }
    unfold str_strip. by rewrite Hbad.
  - done.
  - eapply sublist_NoDup; [exact Hnd_pre|apply string_cols_sublist].
  - intros x Hx. rewrite fmap_app. apply elem_of_app. left.
    eapply elem_of_sublist; [done|apply string_cols_sublist].
  - intros c Hc (c' & Hc' & Hname & Hobj')%string_cols_elem_of.
    assert (c = c') as ->.
    { eapply names_inj; [exact Hnd|done|set_solver|done]. }
    eapply Forall_forall in Hacc; [|exact Hc']. by apply Hacc.
Qed.

(** X11. Trim All Whitespace stops at the first object column the [.str]
    accessor rejects (lines 79-80): the run raises [AttributeError], the
    object columns before that column are already trimmed, that column
    and the ones after it are as they were, and nothing is logged; when
    the log was empty, the reset is not offered for what was trimmed. *)
Theorem trim_stops_at_the_first_rejected_column
    (s : session_state) (pre post : dataframe) (bad : series) :
  wf_frame (current s) →
  current s = pre ++ bad :: post →
  0 < whitespace_issues (current s) →
  accepted pre → dty bad = object_ → str_accessor_ok (values bad) = false →
  ∃ s', run TrimAllWhitespace s = Raised AttributeError s'
    ∧ current s' = trim_frame pre ++ bad :: post
    ∧ cleaning_log s' = cleaning_log s
    ∧ (cleaning_log s = [] → run ResetAllChanges s' = NotOffered).
Proof.
  intros Hwf Hd Hws Hacc Hobj Hbad. simpl. unfold click_trim_whitespace. cbv zeta.
  rewrite bool_decide_eq_true_2 by done.
  rewrite Hd in Hwf. rewrite Hd.
  rewrite trim_columns_rejected by done. cbn [fst snd].
  eexists. split; [done|]. rewrite current_mutate. split; [done|]. split; [done|].
  intros Hlog. unfold click_reset. simpl. rewrite Hlog.
  by rewrite bool_decide_eq_false_2 by (intros Hne; by apply Hne).
Qed.

(** ** The count in the log entry of a trim *)

Lemma string_length_chars s : String.length s = length (chars s).
Proof. induction s as [|a s IH]; simpl; [done|]. by rewrite IH. Qed.

Lemma lstrip_length l : length (lstrip_chars l) ≤ length l.
Proof.
  induction l as [|a l IH]; simpl; [done|]. destruct (isspace a); simpl; lia.
Qed.

Lemma lstrip_same_length l : length (lstrip_chars l) = length l → lstrip_chars l = l.
Proof.
  destruct l as [|a l]; simpl; [done|]. destruct (isspace a); [|done].
  pose proof (lstrip_length l). simpl. lia.
Qed.

Lemma strip_chars_same_length l : length (strip_chars l) = length l → strip_chars l = l.
Proof.
  unfold strip_chars. rewrite length_rev. intros Hlen.
  pose proof (lstrip_length (rev (lstrip_chars l))) as H1.
  pose proof (lstrip_length l) as H2. rewrite length_rev in H1.
  assert (lstrip_chars l = l) as Hl by (apply lstrip_same_length; lia).
  rewrite Hl in *.
  rewrite lstrip_same_length by (rewrite length_rev; lia).
  apply rev_involutive.
Qed.

Lemma strip_same_length s :
  String.length s = String.length (strip s) ↔ strip s = s.
Proof.
  split; [|by intros ->]. rewrite !string_length_chars. unfold strip.
  fold (chars s). fold (text (strip_chars (chars s))). rewrite chars_text.
  intros Hlen. rewrite strip_chars_same_length by done. apply text_chars.
Qed.

Lemma differing_same vs : differing vs vs = 0.
Proof.
  unfold differing. induction vs as [|x vs IH]; [done|].
  cbn [zip zip_with]. rewrite filter_cons, decide_False; [done|]. simpl.
  intros Hn. by apply Hn.
Qed.

Lemma differing_strip vs :
  Forall (λ x, x = NaN ∨ is_str x = true) vs →
  differing vs (strip_cell <$> vs) = count_true (has_whitespace_issue <$> vs).
Proof.
  unfold differing. induction 1 as [|x vs Hx _ IH]; [done|].
  rewrite !fmap_cons, count_true_cons. cbn [zip zip_with]. rewrite filter_cons, <- IH.
  destruct x as [| | |t|];
    [rewrite decide_False; [done|]; simpl; intros Hn; by apply Hn
    |by destruct Hx|by destruct Hx| |by destruct Hx].
  cbn [strip_cell has_whitespace_issue notnull isnull negb py_str fst snd].
  destruct (decide (Str t ≠ Str (strip t))) as [Hne|Heq].
  - destruct (String.length t =? String.length (strip t))%nat eqn:Hlen; [|done].
    apply Nat.eqb_eq, strip_same_length in Hlen. congruence.
  - destruct (String.length t =? String.length (strip t))%nat eqn:Hlen; [done|].
    apply Nat.eqb_neq in Hlen. destruct Hlen.
    apply strip_same_length. apply dec_stable in Heq. congruence.
Qed.

Lemma foldl_add_sum {A} (f : A → nat) (l : list A) (n : nat) :
  foldl (λ acc x, acc + f x) n l = n + sum_list (f <$> l).
Proof.
  revert n. induction l as [|x l IH]; intros n; [simpl; lia|].
  cbn [foldl]. rewrite IH, fmap_cons. simpl. lia.
Qed.

Lemma sum_list_filter {A} (P : A → Prop) `{∀ x, Decision (P x)} (f : A → nat) l :
  sum_list (f <$> filter P l) = sum_list ((λ x, if decide (P x) then f x else 0) <$> l).
Proof.
  induction l as [|x l IH]; [done|].
  rewrite filter_cons, fmap_cons. destruct (decide (P x)) as [HP|HP].
  - rewrite fmap_cons. cbn [sum_list_with]. unfold id at 1 3. by rewrite IH.
  - cbn [sum_list_with]. by rewrite IH.
Qed.

(** The whitespace count of the report is the sum, over the object
    columns, of the cells with surrounding whitespace. *)
Lemma whitespace_issues_sum d :
  NoDup (name <$> d) →
  whitespace_issues d
  = sum_list ((λ c, if decide (dty c = object_)
                    then count_true (has_whitespace_issue <$> values c) else 0) <$> d).
Proof.
  intros Hnd. unfold whitespace_issues, string_cols.
  rewrite foldl_add_sum, <- list_fmap_compose. simpl.
  rewrite <- (sum_list_filter (λ c, dty c = object_)
                (λ c, count_true (has_whitespace_issue <$> values c))).
  f_equal. apply fmap_ext_elem_of. intros c [_ Hc]%list_elem_of_filter.
  unfold compose. by rewrite get_col_elem_of.
Qed.

Lemma whitespace_issues_changed d :
  wf_frame d → text_only d → whitespace_issues d = changed_cells d (trim_frame d).
Proof.
  intros Hwf Htext. rewrite whitespace_issues_sum by apply Hwf.
  unfold changed_cells, trim_frame. clear Hwf.
  induction Htext as [|c d Hc _ IH]; [done|].
  rewrite !fmap_cons. cbn [zip_with sum_list_with]. rewrite <- IH. f_equal.
  unfold id. destruct (decide (dty c = object_)) as [Hobj|Hno].
  - simpl. symmetry. by apply differing_strip, Hc.
  - symmetry. apply differing_same.
Qed.

(** X12. The number in the log entry of a trim (lines 57 and 81): when
    the object columns hold text and missing cells only, the whitespace
    count of the report is exactly the number of cells that Trim All
    Whitespace changes. *)
Theorem trim_log_counts_the_changed_cells (s : session_state) :
  wf_frame (current s) → text_only (current s) →
  0 < whitespace_issues (current s) →
  ∃ s', run TrimAllWhitespace s = Done s'
    ∧ last (cleaning_log s')
      = Some ("Trimmed whitespace in "
              +:+ pretty (changed_cells (current s) (current s')) +:+ " cells.").
Proof.
  intros Hwf Htext Hws. simpl. unfold click_trim_whitespace. cbv zeta.
  rewrite bool_decide_eq_true_2 by done.
  rewrite trim_columns_accepted by (done || by apply text_only_accepted). simpl.
  eexists. split; [done|].
  rewrite current_log_append, current_mutate. cbn [cleaning_log log_append].
  by rewrite last_snoc, <- whitespace_issues_changed.
Qed.

(** ** What no run does *)

Lemma count_true_le mask : count_true mask ≤ length mask.
Proof. pose proof (count_true_negb mask). lia. Qed.

Lemma header_names d d' : header d' = header d → name <$> d' = name <$> d.
Proof.
  intros Hh. apply (f_equal (fmap fst)) in Hh. unfold header in Hh.
  by rewrite <- !list_fmap_compose in Hh.
Qed.

Lemma select_rows_shrinks mask d :
  wf_frame d → length mask = nrows d →
  name <$> select_rows mask d = name <$> d ∧ nrows (select_rows mask d) ≤ nrows d.
Proof.
  intros Hwf Hlen. split; [apply header_names, select_rows_header|].
  rewrite select_rows_nrows by done. pose proof (count_true_le mask).
  destruct d; lia.
Qed.

Lemma same_shape_names (d d' : dataframe) :
  Forall2 (λ c c', name c' = name c ∧ length (values c') = length (values c)) d d' →
  name <$> d' = name <$> d ∧ nrows d' = nrows d.
Proof.
  intros Hshape. split.
  - induction Hshape as [|c c' d d' [Hn _] _ IH]; [done|].
    by rewrite !fmap_cons, Hn, IH.
  - destruct Hshape as [|c c' d d' [_ Hl] _]; [done|]. exact Hl.
Qed.

Lemma fill_frame_shape col d d' :
  fill_frame col d d' → name <$> d' = name <$> d ∧ nrows d' = nrows d.
Proof.
  intros Hfill. apply same_shape_names.
  eapply Forall2_impl; [exact Hfill|]. intros c c' [[Hn Hvs] _].
  split; [done|]. symmetry. by eapply Forall2_length.
Qed.

Lemma setitem_shape col ty vs d :
  wf_frame d → length vs = nrows d →
  name <$> setitem col ty vs d = name <$> d ∧ nrows (setitem col ty vs d) = nrows d.
Proof.
  intros Hwf Hvs. apply same_shape_names.
  unfold setitem. apply Forall2_fmap_r, Forall_Forall2_diag, Forall_forall.
  intros c Hc. simpl. destruct (decide (name c = col)); simpl; [|done].
  split; [done|]. by rewrite Hvs, (wf_frame_lengths d c).
Qed.

Lemma trim_columns_shape cols d :
  wf_frame d →
  name <$> (trim_columns cols d).2 = name <$> d
  ∧ nrows (trim_columns cols d).2 = nrows d.
Proof.
  revert d. induction cols as [|col cols IH]; intros d Hwf; [done|].
  cbn [trim_columns]. destruct (get_col col d) as [c|] eqn:Hc; [|done].
  unfold str_strip. destruct (str_accessor_ok (values c)); [|done].
  assert (length (strip_cell <$> values c) = nrows d) as Hlen.
  { rewrite length_fmap. apply get_col_Some in Hc as [_ Hc]. by apply wf_frame_lengths. }
  destruct (setitem_shape col object_ (strip_cell <$> values c) d Hwf Hlen) as [Hn Hr].
  destruct (IH (setitem col object_ (strip_cell <$> values c) d)) as [Hn' Hr'].
  { by apply setitem_wf. }
  split; congruence.
Qed.

Lemma apply_action_shrinks col action custom_val s :
  wf_frame (current s) →
  let s' := after (apply_action col action custom_val s) s in
  name <$> current s' = name <$> current s ∧ nrows (current s') ≤ nrows (current s).
Proof.
  intros Hwf. destruct (decide (action = "Delete rows with missing values")) as [->|Hne].
  - rewrite apply_delete. unfold dropna.
    destruct (get_col col (current s)) as [c|] eqn:Hc; simpl; [|done].
    rewrite current_log_append, current_mutate.
    apply select_rows_shrinks; [done|]. rewrite length_fmap.
    apply get_col_Some in Hc as [_ Hc]. by apply wf_frame_lengths.
  - destruct (decide (action ∈ fill_strategies)) as [Hfill|Hno].
    + pose proof (apply_action_fill_frame col action custom_val s Hfill) as Hframe.
      apply fill_frame_shape in Hframe as [Hn Hr]. simpl. split; [done|lia].
    + assert (apply_action col action custom_val s = Done s) as ->; [|done].
      unfold apply_action, fill_strategies in *.
      repeat (case_decide; [set_solver|]). done.
Qed.

(** One run other than the reset keeps the labels and does not add
    rows. *)
Lemma run_shrinks ev s :
  wf_frame (current s) → ev ≠ ResetAllChanges →
  let s' := after (run ev s) s in
  name <$> current s' = name <$> current s ∧ nrows (current s') ≤ nrows (current s).
Proof.
  intros Hwf Hev. destruct ev as [| |col choice text|]; simpl; [| | |done].
  - unfold click_remove_duplicates. case_bool_decide; simpl; [|done].
    rewrite current_log_append, current_mutate.
    apply select_rows_shrinks; [done|]. by rewrite length_fmap, duplicated_length.
  - unfold click_trim_whitespace. cbv zeta. case_bool_decide; [|done].
    destruct (trim_columns_shape (string_cols (current s)) (current s) Hwf) as [Hn Hr].
    case_match; simpl; rewrite ?current_log_append, current_mutate; split; (done || lia).
  - unfold click_apply. cbv zeta. repeat (case_bool_decide; [|done]).
    repeat (case_match; try done); by apply apply_action_shrinks.
Qed.

(** X13. No run adds a row or touches the column labels (lines 67-131,
    152-155): after any sequence of events the current frame has the
    labels of the loaded frame, in the same order, and at most as many
    rows. *)
Theorem events_never_add_rows_or_columns (d : dataframe) (evs : list event) :
  wf_frame d →
  let s := run_all evs (new_session d) in
  name <$> current s = name <$> d ∧ nrows (current s) ≤ nrows d.
Proof.
  intros Hd.
  assert (session_ok d (new_session d)
          ∧ name <$> current (new_session d) = name <$> d
          ∧ nrows (current (new_session d)) ≤ nrows d) as Hinv.
  { split; [|done]. split; [apply session_inv_new|]. by vm_compute. }
  revert Hinv. generalize (new_session d).
  induction evs as [|ev evs IH]; intros s (Hok & Hn & Hr); [done|].
  simpl. apply IH. split; [by apply session_ok_run|].
  assert (ev = ResetAllChanges ∨ ev ≠ ResetAllChanges) as [->|Hev]
    by (destruct ev; (by left) || by right).
  - simpl. unfold click_reset. case_bool_decide; simpl; [|done].
    rewrite (current_reset d) by apply Hok. done.
  - destruct (run_shrinks ev s) as [Hn' Hr']; [apply Hok|done|].
    split; [congruence|]. cbv zeta in Hr'. lia.
Qed.

(** X14. Every run keeps the frames well formed (lines 27-30, 67-131,
    152-155): when the frame the session starts from has columns of one
    length and distinct labels, as a frame of pandas has, so have the
    original frame and the current frame after any sequence of events. *)
Theorem frames_stay_well_formed (d : dataframe) (evs : list event) :
  wf_frame d →
  let s := run_all evs (new_session d) in
  wf_frame (original s) ∧ wf_frame (current s).
Proof.
  intros Hd s. split; [|by apply reachable_wf].
  pose proof (session_inv_run_all d evs (new_session d) (session_inv_new d)) as [_ Horig].
  fold s in Horig. unfold original, deref. by rewrite Horig.
Qed.

(** X15. The session is started once (lines 27-30): when a session
    exists, a run with another uploaded file reads that file but leaves
    the current frame, the original frame and the log as they are; the
    original frame stays the frame read from the first file, and that is
    what the reset goes back to. *)
Theorem second_upload_keeps_the_first_session
    (first second : list ascii) (s0 : session_state) (d2 : dataframe)
    (evs : list event) :
  load first None = Some s0 →
  read_csv second = Some d2 →
  let s := run_all evs s0 in
  load second (Some s) = Some s
  ∧ read_csv first = Some (original s)
  ∧ current (reset s) = original s.
Proof.
  intros Hload Hsecond s. unfold load in *.
  destruct (read_csv first) as [d1|] eqn:Hread; [|done].
  injection Hload as <-. rewrite Hsecond. simpl.
  pose proof (session_inv_run_all d1 evs (new_session d1) (session_inv_new d1)) as Hinv.
  fold s in Hinv.
  assert (original s = d1) as ->.
  { destruct Hinv as [_ Horig]. unfold original, deref. by rewrite Horig. }
  split; [done|]. split; [done|]. by apply current_reset.
Qed.

(** ** The name of the download *)

Lemma rfind_lookup c p i : p !! i = Some c → (Z.of_nat i ≤ rfind c p)%Z.
Proof.
  intros Hi. destruct (rfind_spec c p) as [[Hout _]|(l1 & l2 & -> & Hl2 & ->)].
  - destruct Hout. by eapply list_elem_of_lookup_2.
  - destruct (decide (i ≤ length l1)) as [|Hgt]; [lia|].
    rewrite lookup_app_r in Hi by lia.
    destruct (i - length l1) as [|k] eqn:Hk; [lia|]. simpl in Hi.
    destruct Hl2. by eapply list_elem_of_lookup_2.
Qed.

Lemma rfind_lower c p : (-1 ≤ rfind c p)%Z.
Proof. destruct (rfind_spec c p) as [[_ ->]|(l1 & l2 & _ & _ & ->)]; lia. Qed.

Lemma append_empty s : s +:+ "" = s.
Proof.
  induction s as [|a s IH]; [done|].
  change (String a (s +:+ "") = String a s). by rewrite IH.
Qed.

Lemma append_assoc s1 s2 s3 : (s1 +:+ s2) +:+ s3 = s1 +:+ s2 +:+ s3.
Proof.
  induction s1 as [|a s1 IH]; [done|].
  change (String a ((s1 +:+ s2) +:+ s3) = String a (s1 +:+ s2 +:+ s3)).
  by rewrite IH.
Qed.

(** X16. [os.path.splitext] as lines 19-20 use it: the two parts put
    together are the name again; the extension is empty or starts at the
    last dot of the name and holds no other dot and no path separator; a
    name with an extension has a root that is not empty. *)
Theorem splitext_splits_at_the_last_dot (p root ext : string) :
  splitext p = (root, ext) →
  root +:+ ext = p
  ∧ (ext = "" ∨ ∃ e, ext = "." +:+ e ∧ (extsep ∉ chars e) ∧ (sep ∉ chars e))
  ∧ (ext ≠ "" → root ≠ "").
Proof.
  unfold splitext.
  destruct (bool_decide (rfind sep (chars p) < rfind extsep (chars p))%Z
            && negb (dots_only (chars p) (rfind sep (chars p) + 1)
                       (Z.to_nat (rfind extsep (chars p) - (rfind sep (chars p) + 1)))))
    eqn:Hcond.
  2:{ intros [= <- <-]. split; [apply append_empty|]. split; [by left|done]. }
  apply andb_true_iff in Hcond as [Hlt%bool_decide_eq_true_1 Hdots%negb_true_iff].
  pose proof (rfind_lower sep (chars p)) as Hsep.
  destruct (rfind_spec extsep (chars p)) as [[_ Hno]|(l1 & l2 & Hp & Hl2 & Hdot)]; [lia|].
  rewrite Hdot in *. unfold slice. rewrite Nat2Z.id. change (Z.to_nat 0) with 0.
  rewrite drop_0, Nat.sub_0_r, Hp, take_app_length, drop_app_length.
  intros [= <- <-]. split; [|split].
  - transitivity (text (l1 ++ extsep :: l2)); [by rewrite text_app|].
    rewrite <- Hp. apply text_chars.
  - right. exists (text l2). rewrite chars_text. split; [done|]. split; [done|].
    intros [i Hi]%list_elem_of_lookup_1.
    assert (chars p !! (length l1 + S i) = Some sep) as Hlook.
    { rewrite Hp, lookup_app_r by lia.
      replace (length l1 + S i - length l1) with (S i) by lia. done. }
    apply rfind_lookup in Hlook. lia.
  - intros _. destruct l1 as [|a l1]; [|done]. exfalso.
    destruct (Z.to_nat (Z.of_nat (length (@nil ascii)) - (rfind sep (chars p) + 1)))
      as [|k] eqn:Hk; [done|simpl in Hk; lia].
Qed.

(** X17. The download (lines 19-20, 137-150): once something is logged,
    the button carries the export of the current frame under the name of
    the upload with [_cleaned] put before the extension; when the name
    before the last dot holds dots only, there is no extension to keep
    and [_cleaned] goes to the end. *)
Theorem download_is_named_after_the_upload (s : session_state) (base e : string) :
  cleaning_log s ≠ [] →
  sep ∉ chars base → sep ∉ chars e → extsep ∉ chars e →
  ((∃ a, a ∈ chars base ∧ a ≠ extsep) →
     download (base +:+ "." +:+ e) s
     = Some (base +:+ "_cleaned" +:+ "." +:+ e, to_csv (current s)))
  ∧ (Forall (λ a, a = extsep) (chars base) →
     download (base +:+ "." +:+ e) s
     = Some (base +:+ "." +:+ e +:+ "_cleaned", to_csv (current s))).
Proof.
  intros Hlog Hbase He Hdot.
  assert (base +:+ "." +:+ e = text ([] ++ chars base ++ extsep :: chars e)) as Hname.
  { rewrite app_nil_l, text_app, text_chars.
    change (text (extsep :: chars e)) with ("." +:+ text (chars e)).
    by rewrite text_chars. }
  pose proof (splitext_component [] (chars base) (chars e)
                (or_introl eq_refl) Hbase He Hdot) as Hsplit.
  rewrite <- Hname in Hsplit. rewrite app_nil_l in Hsplit.
  unfold download, cleaned_filename. rewrite bool_decide_eq_true_2 by done.
  rewrite Hsplit. split.
  - intros (a & Ha & Hne).
    assert (forallb (λ a, bool_decide (a = extsep)) (chars base) = false) as ->.
    { apply not_true_is_false. rewrite forallb_forall. intros Hall.
      specialize (Hall a). rewrite <- list_elem_of_In in Hall.
      specialize (Hall Ha). by apply bool_decide_eq_true_1 in Hall. }
    rewrite text_chars.
    change (text (extsep :: chars e)) with ("." +:+ text (chars e)).
    by rewrite text_chars.
  - intros Hall.
    assert (forallb (λ a, bool_decide (a = extsep)) (chars base) = true) as ->.
    { apply forallb_forall. intros a Ha%list_elem_of_In.
      apply bool_decide_eq_true_2. by eapply Forall_forall in Hall. }
    rewrite append_empty. f_equal. f_equal.
    by rewrite append_assoc.
Qed.

(** ** Reading what was written, and what is read as missing *)

(** X18. The CSV writer and the tokenizer (lines 143 and 18): records
    written one after the other, with fields quoted where they hold a
    comma, a quote or a line feed, are read back as the same records with
    the same fields, provided no field holds a carriage return and no
    record is a single field of blanks. *)
Theorem written_records_are_read_back (rs : list (list string)) :
  Forall good_row rs → tokenize (concat (write_row <$> rs)) = Some rs.
Proof.
  intros Hrs. unfold tokenize. by rewrite feed_rows.
Qed.

Lemma try_convert_missing {A} (read : string → option A) (make : A → cell) fs os :
  (∀ x, isnull (make x) = false) →
  try_convert read fs = Some os →
  isnull <$> (with_missing make <$> os) = is_na <$> fs.
Proof.
  intros Hmake. revert os. induction fs as [|f fs IH]; intros os; cbn [try_convert].
  { by intros [= <-]. }
  rewrite (fmap_cons is_na). destruct (is_na f) eqn:Hna.
  - destruct (try_convert read fs) as [os'|]; [|done]. intros [= <-].
    rewrite !fmap_cons. cbn [with_missing isnull]. f_equal. by apply IH.
  - destruct (read f) as [x|]; [|done]. simpl.
    destruct (try_convert read fs) as [os'|]; [|done]. intros [= <-].
    rewrite !fmap_cons. cbn [with_missing]. rewrite Hmake. f_equal. by apply IH.
Qed.

(** The cells [convert_column] makes missing are those of the fields
    read as missing. *)
Lemma convert_column_missing label fs :
  isnull <$> values (convert_column label fs) = is_na <$> fs.
Proof.
  unfold convert_column.
  destruct (try_convert int_of_token fs) as [zs|] eqn:Hint.
  { destruct (existsb is_na fs); simpl;
      by eapply try_convert_missing; [|exact Hint]. }
  destruct (try_convert float_of_token fs) as [xs|] eqn:Hfloat.
  { simpl. by eapply try_convert_missing; [|exact Hfloat]. }
  destruct (try_convert bool_of_token fs) as [bs|] eqn:Hbool.
  { simpl. by eapply try_convert_missing; [|exact Hbool]. }
  simpl. rewrite <- list_fmap_compose. apply fmap_ext_elem_of.
  intros f _. simpl. by destruct (is_na f).
Qed.

Lemma dedup_length seen l : length (dedup seen l) = length l.
Proof.
  revert seen. induction l as [|x l IH]; intros seen; [done|].
  cbn [dedup length]. by rewrite IH.
Qed.

Lemma mangle_length hdr : length (mangle hdr) = length hdr.
Proof. unfold mangle. by rewrite dedup_length, length_imap. Qed.

(** What [read_csv] returns for records that are read. *)
Lemma read_csv_records input hdr data :
  tokenize input = Some (hdr :: data) →
  plain_renaming hdr →
  Forall (λ r, length r ≤ length hdr) data →
  read_csv input
  = Some (match data with
          | [] => (λ label, Series label object_ []) <$> mangle hdr
          | _ => imap (λ j label,
                         convert_column label ((λ r, default "" (r !! j)) <$> data))
                      (mangle hdr)
          end).
Proof.
  intros Htok Hplain Hlen. unfold read_csv. rewrite Htok.
  rewrite bool_decide_eq_true_2 by done. by destruct data.
Qed.

(** X19. What [read_csv] reads as missing (line 18): when the labels of
    the header are renamed plainly and no record is longer than the
    header, the file is read; the frame has one column per label of the
    header, named by it or by its new name, one cell per data record in
    every column, and a cell is missing exactly when the record has no
    field for it or the field is empty or one of the NA tokens, whatever
    type the column is given.  Labels that are distinct and not empty are
    kept. *)
Theorem loaded_cells_are_missing_where_the_field_is
    (input : list ascii) (hdr : list string) (data : list (list string)) :
  tokenize input = Some (hdr :: data) →
  plain_renaming hdr →
  Forall (λ r, length r ≤ length hdr) data →
  ∃ d, read_csv input = Some d
    ∧ name <$> d = mangle hdr
    ∧ (NoDup hdr → ("" ∉ hdr) → name <$> d = hdr)
    ∧ length d = length hdr
    ∧ (∀ c, c ∈ d → length (values c) = length data)
    ∧ ∀ j c, d !! j = Some c →
        isnull <$> values c = (λ r, is_na (default "" (r !! j))) <$> data.
Proof.
  intros Htok Hplain Hlen. eexists. split; [by apply read_csv_records|].
  assert (∀ (l : list string) (f : nat → string → series),
            (∀ j label, name (f j label) = label) → name <$> imap f l = l) as Hnames.
  { intros l. induction l as [|x l IH]; intros f Hf; [done|].
    rewrite imap_cons, fmap_cons, Hf. f_equal. apply IH.
    intros j label. apply Hf. }
  destruct data as [|r data].
  - assert (name <$> ((λ label, Series label object_ []) <$> mangle hdr) = mangle hdr)
      as Hn by (rewrite <- list_fmap_compose; apply list_fmap_id).
    split; [done|]. split; [intros; by rewrite Hn, mangle_distinct|].
    split; [by rewrite length_fmap, mangle_length|]. split.
    + by intros c (label & -> & _)%list_elem_of_fmap.
    + intros j c Hc. rewrite list_lookup_fmap in Hc.
      destruct (mangle hdr !! j); [|done]. by injection Hc as <-.
  - assert (name <$> imap (λ j label, convert_column label
                             ((λ r0, default "" (r0 !! j)) <$> r :: data)) (mangle hdr)
            = mangle hdr) as Hn.
    { apply Hnames. intros j label. apply convert_column_shape. }
    split; [done|]. split; [intros; by rewrite Hn, mangle_distinct|].
    split; [by rewrite length_imap, mangle_length|]. split.
    + intros c [j Hc]%list_elem_of_lookup_1. rewrite list_lookup_imap in Hc.
      destruct (mangle hdr !! j) as [label|]; [|done]. injection Hc as <-.
      match goal with
      | |- length (values (convert_column ?l ?fs)) = _ =>
          destruct (convert_column_shape l fs) as [_ ->]
      end.
      cbn [length]. f_equal. apply length_fmap.
    + intros j c Hc. rewrite list_lookup_imap in Hc.
      destruct (mangle hdr !! j) as [label|]; [|done]. injection Hc as <-.
      rewrite convert_column_missing. symmetry.
      exact (list_fmap_compose (λ r0 : list string, default "" (r0 !! j)) is_na _).
Qed.




(** ** Missing cells through export and load *)

(** X21. What an export and a load do to missing cells (lines 143 and
    18): for a frame whose export the tokenizer reads record by record,
    the loaded frame has the same labels, and a cell of it is missing
    exactly when the cell it comes from was missing or was printed as
    one of the NA tokens. *)
Theorem export_keeps_missing_cells_missing (d : dataframe) :
  csv_safe d →
  ∃ d', read_csv (to_csv d) = Some d'
    ∧ name <$> d' = name <$> d
    ∧ ∀ j c, d !! j = Some c →
        ∃ c', d' !! j = Some c'
          ∧ isnull <$> values c' = (λ x, isnull x || is_na (py_str x)) <$> values c.
Proof.
  intros Hsafe. pose proof Hsafe as (Hwf & _).
  exists (reinfer d). split; [by apply load_export|].
  unfold reinfer. destruct (rows d) as [|r rs] eqn:Hrows.
  - split; [by rewrite <- list_fmap_compose|].
    intros j c Hc. rewrite list_lookup_fmap, Hc. simpl. eexists. split; [done|].
    simpl. rewrite (no_rows_no_values d c); [done|done| |by eapply list_elem_of_lookup_2].
    by rewrite <- rows_length, Hrows.
  - split.
    { rewrite <- list_fmap_compose. apply fmap_ext_elem_of. intros c _. simpl.
      apply convert_column_shape. }
    intros j c Hc. rewrite list_lookup_fmap, Hc. simpl. eexists. split; [done|].
    rewrite convert_column_missing, <- list_fmap_compose.
    apply fmap_ext_elem_of. intros x _. simpl. unfold field_of_cell.
    by destruct (isnull x).
Qed.

(** ** The missing count after a column is settled *)

Lemma total_missing_cons c d :
  total_missing (c :: d) = count NaN (values c) + total_missing d.
Proof.
  unfold total_missing, missing_data. rewrite !fmap_cons. simpl.
  by rewrite count_true_isnull.
Qed.

Lemma count_select_le x mask vs : count x (select mask vs) ≤ count x vs.
Proof.
  unfold count. revert mask. induction vs as [|y vs IH]; intros [|b mask]; simpl; try lia.
  specialize (IH mask). rewrite filter_cons.
  destruct b; [rewrite filter_cons|]; destruct (decide (y = x)); simpl; lia.
Qed.

Lemma total_missing_select_rows mask d :
  total_missing (select_rows mask d) ≤ total_missing d.
Proof.
  induction d as [|c d IH]; [done|].
  unfold select_rows in *. rewrite fmap_cons, !total_missing_cons. simpl.
  pose proof (count_select_le NaN mask (values c)). lia.
Qed.

Lemma total_missing_dropna mask d j c :
  d !! j = Some c → NaN ∉ select mask (values c) →
  total_missing (select_rows mask d) + count NaN (values c) ≤ total_missing d.
Proof.
  revert j. induction d as [|c0 d IH]; intros j Hj Hnone; [done|].
  unfold select_rows in *. rewrite fmap_cons, !total_missing_cons. simpl.
  destruct j as [|j]; simpl in Hj.
  - injection Hj as ->. apply count_zero in Hnone. rewrite Hnone.
    pose proof (total_missing_select_rows mask d). unfold select_rows in *. lia.
  - specialize (IH j Hj Hnone).
    pose proof (count_select_le NaN mask (values c0)). lia.
Qed.

Lemma fillna_inplace_other col val d :
  col ∉ name <$> d → fillna_inplace col val d = d.
Proof.
  intros Hcol. unfold fillna_inplace. apply fmap_id_elem_of. intros c Hc.
  rewrite decide_False; [done|]. intros <-. apply Hcol.
  apply list_elem_of_fmap. by exists c.
Qed.

Lemma total_missing_fillna col val d j c :
  NoDup (name <$> d) → d !! j = Some c → name c = col → val ≠ NaN →
  total_missing (fillna_inplace col val d) + count NaN (values c) = total_missing d.
Proof.
  intros Hnd Hj Hname Hval. revert j Hj.
  induction d as [|c0 d IH]; intros j Hj; [done|].
  rewrite fmap_cons in Hnd. apply NoDup_cons in Hnd as [Hc0 Hnd].
  unfold fillna_inplace. rewrite fmap_cons. fold (fillna_inplace col val d).
  rewrite !total_missing_cons. destruct j as [|j]; simpl in Hj.
  - injection Hj as ->. rewrite decide_True by done.
    rewrite fillna_inplace_other by congruence.
    pose proof (fillna_no_missing val c Hval) as Hnone.
    apply count_zero in Hnone. lia.
  - rewrite decide_False.
    + specialize (IH Hnd j Hj). lia.
    + intros Heq. apply Hc0. apply list_elem_of_fmap. exists c.
      split; [congruence|]. by eapply list_elem_of_lookup_2.
Qed.

(** X22. Settling a column and the missing-values count of the report
    (lines 39-40, 108-112, 125-127): deleting the rows without a value in
    a column takes at least that column's missing cells off the total and
    adds none; filling the column with a custom value takes exactly that
    column's missing cells off the total. *)
Theorem settling_a_column_lowers_the_missing_count
    (s : session_state) (col : string) (j : nat) (c : series) :
  wf_frame (current s) →
  current s !! j = Some c → name c = col → NaN ∈ values c →
  (∀ text s', run (ApplyTo col 1 text) s = Done s' →
     total_missing (current s') + count NaN (values c) ≤ total_missing (current s))
  ∧ (∀ choice v s',
       options (is_numeric_dtype (dty c)) !! choice = Some "Fill with Custom Value" →
       run (ApplyTo col choice v) s = Done s' →
       total_missing (current s') + count NaN (values c) = total_missing (current s)).
Proof.
  intros Hwf Hj <- Hnan.
  assert (get_col (name c) (current s) = Some c) as Hget
    by (apply get_col_lookup with j; [apply Hwf|done]).
  split.
  - intros text s'. rewrite (click_apply_runs _ _ _ _ c Hget Hnan), options_delete.
    rewrite apply_delete. unfold dropna. rewrite Hget. intros [= <-].
    rewrite current_log_append, current_mutate.
    apply (total_missing_dropna _ _ j); [done|apply select_no_missing].
  - intros choice v s' Hopt. rewrite (click_apply_runs _ _ _ _ c Hget Hnan), Hopt.
    rewrite decide_True by done. rewrite (apply_custom _ _ _ c) by done.
    intros [= <-]. rewrite current_log_append, current_mutate.
    apply (total_missing_fillna _ _ _ j); [apply Hwf|done|done|done].
Qed.

(** ** Mean and median of text; columns the frame does not have *)


Lemma get_col_absent col d : col ∉ name <$> d → get_col col d = None.
Proof.
  intros Hcol. destruct (get_col col d) as [c|] eqn:Hc; [|done].
  apply get_col_Some in Hc as [<- Hc]. destruct Hcol.
  apply list_elem_of_fmap. by exists c.
Qed.

(** C9, as the script has it.  Nothing is validated.  On a frame without
    rows no cleaning button exists; the Apply button exists only for the
    columns that have a missing cell; and when the handler of the Apply
    button runs for a column the frame does not have, every action that
    works on the column raises [KeyError] at its first look at the column,
    with the frame and the log as they were. *)
Theorem absent_column_raises_key_error (s : session_state) (col : string) :
  wf_frame (current s) →
  (nrows (current s) = 0 → ∀ ev, ev ≠ ResetAllChanges → run ev s = NotOffered)
  ∧ ((∀ c, c ∈ current s → name c = col → NaN ∉ values c) →
     ∀ choice text, run (ApplyTo col choice text) s = NotOffered)
  ∧ (col ∉ name <$> current s →
     ∀ action custom_val,
       action ∈ ["Delete rows with missing values"; "Fill with Mean";
                 "Fill with Median"; "Fill with Mode (Most Frequent)"]
       ∨ (action = "Fill with Custom Value" ∧ custom_val ≠ None) →
       apply_action col action custom_val s = Raised KeyError s).
Proof.
  intros Hwf. split; [|split].
  - intros Hn ev Hev. destruct ev as [| |col' choice text|]; simpl; [| | |done].
    + unfold click_remove_duplicates.
      rewrite no_rows_duplicate_count by done. by rewrite bool_decide_eq_false_2 by lia.
    + unfold click_trim_whitespace. cbv zeta.
      rewrite no_rows_whitespace_issues by done. by rewrite bool_decide_eq_false_2 by lia.
    + unfold click_apply. cbv zeta.
      rewrite no_rows_total_missing by done. by rewrite bool_decide_eq_false_2 by lia.
  - intros Hnone choice text. apply click_apply_not_offered.
    intros (c & Hc & Hname & Hnan)%cols_with_missing_spec. by eapply Hnone.
  - intros Hcol action custom_val Haction.
    pose proof (get_col_absent _ _ Hcol) as Hget.
    destruct Haction as [Hin|[-> Hval]].
    + unfold apply_action, dropna. rewrite Hget.
      repeat (apply elem_of_cons in Hin as [->|Hin]; [done|]).
      by apply elem_of_nil in Hin.
    + destruct custom_val as [v|]; [|done].
      unfold apply_action. by rewrite Hget.
Qed.

End Properties.

(** * Concrete runs *)

Import Exact Examples.

(** Closed facts are checked by evaluating their decision procedure. *)
Ltac by_evaluation := apply (bool_decide_unpack _); vm_compute; exact I.

(** The example frames are frames [read_csv] returns: each is read from
    its own export. *)
Lemma examples_loadable :
  Forall (λ d, read_csv (to_csv d) = Some d)
         [visits; people; notes; cities; survey; header_only; flags].
Proof. by_evaluation. Qed.

Lemma remove_duplicates_keeps_first_witness :
  wf_frame (current (new_session visits))
  ∧ 0 < duplicate_count (current (new_session visits))
  ∧ ∃ s', run RemoveAllDuplicates (new_session visits) = Done s'
      ∧ rows (current s') = [A; B; C]
      ∧ last (cleaning_log s') = Some "Removed 2 duplicate rows.".
Proof.
  assert (wf_frame (current (new_session visits))) as Hwf by by_evaluation.
  assert (0 < duplicate_count (current (new_session visits))) as Hdup by by_evaluation.
  split; [exact Hwf|]. split; [exact Hdup|].
  destruct (remove_duplicates_keeps_first (new_session visits) Hwf Hdup)
    as (s' & Hrun & _ & _ & _ & Hexample).
  exists s'. split; [exact Hrun|].
  apply (Hexample A B C); [discriminate|discriminate|discriminate|reflexivity].
Defined.

Lemma fill_changes_missing_cells_only_witness :
  "Fill with Mean" ∈ fill_strategies
  ∧ let s := new_session people in
    let s' := after (apply_action "age" "Fill with Mean" None s) s in
    nrows (current s') = nrows (current s)
    ∧ name <$> current s' = name <$> current s
    ∧ get_col "name" (current s') = get_col "name" (current s)
    ∧ get_col "age" (current s') = Some (Series "age" float64 [Num 1%Q; Num 2%Q; Num 3%Q]).
Proof.
  assert ("Fill with Mean" ∈ fill_strategies) as Hin by by_evaluation.
  split; [exact Hin|]. intros s s'.
  destruct (fill_changes_missing_cells_only s "age" "Fill with Mean" None Hin)
    as (Hn & Hnames & _).
  split; [exact Hn|]. split; [exact Hnames|]. split; reflexivity.
Defined.




(** C8: with nothing selected the run ends normally, and an empty custom
    value is written into the missing cell and logged. *)
Lemma empty_custom_value_counterexample :
  let s := new_session people in
  run (ApplyTo "name" 0 "") s = Done s
  ∧ ∃ s', run (ApplyTo "name" 3 "") s = Done s'
      ∧ get_col "name" (current s')
        = Some (Series "name" object_ [Str "b"; Str "a"; Str ""])
      ∧ cleaning_log s' = ["Filled missing values in 'name' with custom value: ."].
Proof.
  intros s. split; [reflexivity|].
  exists (after (run (ApplyTo "name" 3 "") s) s). repeat split; reflexivity.
Qed.


Lemma fill_mode_uses_least_most_frequent_witness :
  let s := new_session people in
  let c := Series "name" object_ [Str "b"; Str "a"; NaN] in
  get_col "name" (current s) = Some c
  ∧ Forall (λ x, x = NaN ∨ is_str x = true) (values c)
  ∧ (∃ x, x ∈ values c ∧ x ≠ NaN)
  ∧ ∃ v s',
      apply_action "name" "Fill with Mode (Most Frequent)" None s = Done s'
      ∧ Str v ∈ values c
      ∧ values <$> get_col "name" (current s') = Some [Str "b"; Str "a"; Str v].
Proof.
  intros s c.
  assert (get_col "name" (current s) = Some c) as Hc by reflexivity.
  assert (Forall (λ x, x = NaN ∨ is_str x = true) (values c)) as Htext.
  { repeat constructor; by right. }
  assert (∃ x, x ∈ values c ∧ x ≠ NaN) as Hsome.
  { exists (Str "b"). split; [by left|discriminate]. }
  split; [exact Hc|]. split; [exact Htext|]. split; [exact Hsome|].
  destruct (fill_mode_uses_least_most_frequent s "name" c Hc Htext Hsome)
    as (v & s' & Hrun & Hin & _ & _ & Hvalues & _).
  exists v, s'. split; [exact Hrun|]. split; [exact Hin|exact Hvalues].
Defined.

(** C7: "b" and "a" both occur once and "b" comes first, yet the missing
    name is filled with "a". *)
Lemma first_encountered_mode_counterexample :
  let s := new_session people in
  let s' := after (run (ApplyTo "name" 2 "") s) s in
  get_col "name" (current s) = Some (Series "name" object_ [Str "b"; Str "a"; NaN])
  ∧ get_col "name" (current s') = Some (Series "name" object_ [Str "b"; Str "a"; Str "a"])
  ∧ cleaning_log s' = ["Filled missing values in 'name' with mode (a)."].
Proof. intros s s'. repeat split; reflexivity. Qed.



(** C5: the upload [flags_csv] has one cell with surrounding whitespace,
    but its first object column holds no string; the [.str] accessor
    refuses it, Trim All Whitespace stops there, and the report still
    counts the cell. *)
Lemma trim_aborts_on_boolean_column :
  let s := ensure_session flags None in
  let s' := after (run TrimAllWhitespace s) s in
  read_csv (chars flags_csv) = Some flags
  ∧ whitespace_issues (current s) = 1
  ∧ run TrimAllWhitespace s = Raised AttributeError s'
  ∧ current s' = flags
  ∧ whitespace_issues (current s') = 1
  ∧ cleaning_log s' = [].
Proof. intros s s'. repeat split; reflexivity. Qed.



Lemma absent_column_raises_key_error_witness :
  let s := new_session people in
  wf_frame (current s)
  ∧ ("salary" ∉ name <$> current s)
  ∧ apply_action "salary" "Delete rows with missing values" None s = Raised KeyError s
  ∧ apply_action "salary" "Fill with Custom Value" (Some "0") s = Raised KeyError s
  ∧ (∀ choice text, run (ApplyTo "salary" choice text) s = NotOffered)
  ∧ ∀ ev, ev ≠ ResetAllChanges → run ev (new_session header_only) = NotOffered.
Proof.
  intros s.
  assert (wf_frame (current s)) as Hwf by by_evaluation.
  assert ("salary" ∉ name <$> current s) as Hcol by by_evaluation.
  assert (wf_frame (current (new_session header_only))) as Hwf0 by by_evaluation.
  destruct (absent_column_raises_key_error s "salary" Hwf) as (_ & Hoffer & Hraise).
  destruct (absent_column_raises_key_error (new_session header_only) "name" Hwf0)
    as (Hempty & _ & _).
  split; [exact Hwf|]. split; [exact Hcol|].
  split; [apply (Hraise Hcol); left; by_evaluation|].
  split; [apply (Hraise Hcol); right; split; [reflexivity|discriminate]|].
  split.
  - apply Hoffer. intros c Hc Hname. exfalso. apply Hcol.
    apply list_elem_of_fmap. exists c. split; [by symmetry|exact Hc].
  - apply Hempty. reflexivity.
Defined.

(** C9: a frame without rows is no error.  No button is offered for it,
    and the handler of Delete rows, run on it, ends normally and logs
    that it deleted 0 rows. *)
Lemma empty_table_counterexample :
  let s := new_session header_only in
  let s' := after (apply_action "name" "Delete rows with missing values" None s) s in
  nrows (current s) = 0
  ∧ run RemoveAllDuplicates s = NotOffered
  ∧ run TrimAllWhitespace s = NotOffered
  ∧ (∀ col choice text, run (ApplyTo col choice text) s = NotOffered)
  ∧ apply_action "name" "Delete rows with missing values" None s = Done s'
  ∧ current s' = header_only
  ∧ cleaning_log s' = ["Deleted 0 rows due to missing values in 'name'."].
Proof. intros s s'. repeat split; reflexivity. Qed.

(** ** Runs for the further properties *)

Lemma further_examples_loadable :
  Forall (λ d, read_csv (to_csv d) = Some d) [unscored; flags_last].
Proof. by_evaluation. Qed.

Lemma delete_rows_keeps_rows_with_a_value_witness :
  let s := new_session people in
  let c := Series "age" float64 [Num 1%Q; NaN; Num 3%Q] in
  wf_frame (current s)
  ∧ current s !! 1 = Some c
  ∧ name c = "age"
  ∧ NaN ∈ values c
  ∧ ∃ s', run (ApplyTo "age" 1 "") s = Done s'
      ∧ rows (current s') = [[Str "b"; Num 1%Q]; [NaN; Num 3%Q]]
      ∧ cleaning_log s' = ["Deleted 1 rows due to missing values in 'age'."].
Proof.
  intros s c.
  assert (wf_frame (current s)) as Hwf by by_evaluation.
  assert (current s !! 1 = Some c) as Hj by reflexivity.
  assert (NaN ∈ values c) as Hnan by by_evaluation.
  split; [exact Hwf|]. split; [exact Hj|]. split; [reflexivity|]. split; [exact Hnan|].
  destruct (delete_rows_keeps_rows_with_a_value s "age" "" 1 c Hwf Hj eq_refl Hnan)
    as (s' & Hrun & _ & Hrows & _ & Hlog).
  exists s'. split; [exact Hrun|]. split.
  - rewrite Hrows. reflexivity.
  - rewrite Hlog. reflexivity.
Defined.

Lemma remove_duplicates_leaves_none_witness :
  let s := new_session visits in
  let s' := after (run RemoveAllDuplicates s) s in
  wf_frame (current s)
  ∧ run RemoveAllDuplicates s = Done s'
  ∧ duplicate_count (current s') = 0
  ∧ run RemoveAllDuplicates s' = NotOffered
  ∧ nrows (current s') < nrows (current s).
Proof.
  intros s s'.
  assert (wf_frame (current s)) as Hwf by by_evaluation.
  assert (run RemoveAllDuplicates s = Done s') as Hrun by reflexivity.
  split; [exact Hwf|]. split; [exact Hrun|].
  exact (remove_duplicates_leaves_none s s' Hwf Hrun).
Defined.

Lemma run_logs_what_it_changes_witness :
  let s := new_session people in
  let s' := after (run (ApplyTo "age" 2 "") s) s in
  run (ApplyTo "age" 2 "") s = Done s'
  ∧ s' ≠ s
  ∧ cleaning_log s' ≠ cleaning_log s.
Proof.
  intros s s'.
  assert (run (ApplyTo "age" 2 "") s = Done s') as Hrun by reflexivity.
  assert (s' ≠ s) as Hne by discriminate.
  split; [exact Hrun|]. split; [exact Hne|].
  destruct (run_logs_what_it_changes (ApplyTo "age" 2 "") s s') as (_ & Hsilent & _).
  intros Hlog. exact (Hne (Hsilent Hrun Hlog)).
Defined.

Lemma mean_of_nothing_fills_nothing_witness :
  let s := new_session unscored in
  let c := Series "score" float64 [NaN; NaN] in
  nanmean [] = None
  ∧ nanmedian [] = None
  ∧ get_col "score" (current s) = Some c
  ∧ is_numeric_dtype (dty c) = true
  ∧ values c ≠ []
  ∧ Forall (λ x, x = NaN) (values c)
  ∧ ∃ s', run (ApplyTo "score" 2 "") s = Done s'
      ∧ current s' = unscored
      ∧ cleaning_log s' = ["Filled missing values in 'score' with mean (nan)."].
Proof.
  intros s c.
  assert (get_col "score" (current s) = Some c) as Hc by reflexivity.
  assert (values c ≠ []) as Hne by discriminate.
  assert (Forall (λ x, x = NaN) (values c)) as Hall by (repeat constructor).
  split; [reflexivity|]. split; [reflexivity|]. split; [exact Hc|].
  split; [reflexivity|]. split; [exact Hne|]. split; [exact Hall|].
  destruct (mean_of_nothing_fills_nothing s "score" "" c eq_refl eq_refl Hc eq_refl Hne Hall)
    as [(s' & Hrun & Hcur & Hlog) _].
  exists s'. split; [exact Hrun|]. split.
  - rewrite Hcur. reflexivity.
  - rewrite Hlog. reflexivity.
Defined.

Lemma mode_of_nothing_raises_witness :
  let s := run_all [ApplyTo "qty" 1 ""] (new_session notes) in
  let c := Series "note" object_ [NaN; NaN] in
  get_col "note" (current s) = Some c
  ∧ is_numeric_dtype (dty c) = false
  ∧ values c ≠ []
  ∧ Forall (λ x, x = NaN) (values c)
  ∧ run (ApplyTo "note" 2 "") s = Raised KeyError s.
Proof.
  intros s c.
  assert (get_col "note" (current s) = Some c) as Hc by reflexivity.
  assert (values c ≠ []) as Hne by discriminate.
  assert (Forall (λ x, x = NaN) (values c)) as Hall by (repeat constructor).
  split; [exact Hc|]. split; [reflexivity|]. split; [exact Hne|]. split; [exact Hall|].
  exact (mode_of_nothing_raises s "note" "" c Hc eq_refl Hne Hall).
Defined.

Lemma fill_mean_and_median_write_the_value_witness :
  let s := new_session people in
  let c := Series "age" float64 [Num 1%Q; NaN; Num 3%Q] in
  get_col "age" (current s) = Some c
  ∧ is_numeric_dtype (dty c) = true
  ∧ NaN ∈ values c
  ∧ numeric_values (values c) = Some [1%Q; 3%Q]
  ∧ nanmean [1%Q; 3%Q] = Some 2%Q
  ∧ ∃ s', run (ApplyTo "age" 2 "") s = Done s'
      ∧ get_col "age" (current s')
        = Some (Series "age" float64 [Num 1%Q; Num 2%Q; Num 3%Q])
      ∧ cleaning_log s' = ["Filled missing values in 'age' with mean (2.00)."].
Proof.
  intros s c.
  assert (get_col "age" (current s) = Some c) as Hc by reflexivity.
  assert (NaN ∈ values c) as Hnan by by_evaluation.
  assert (numeric_values (values c) = Some [1%Q; 3%Q]) as Hxs by reflexivity.
  assert (nanmean [1%Q; 3%Q] = Some 2%Q) as Hmean by reflexivity.
  split; [exact Hc|]. split; [reflexivity|]. split; [exact Hnan|].
  split; [exact Hxs|]. split; [exact Hmean|].
  destruct (fill_mean_and_median_write_the_value s "age" "" c [1%Q; 3%Q]
              Hc eq_refl Hnan Hxs) as [Hfill _].
  destruct (Hfill 2%Q Hmean) as (s' & Hrun & Hcol & Hlog & _).
  exists s'. split; [exact Hrun|]. split.
  - rewrite Hcol. reflexivity.
  - rewrite Hlog. reflexivity.
Defined.

Lemma custom_value_is_written_as_text_witness :
  let s := new_session people in
  let c := Series "age" float64 [Num 1%Q; NaN; Num 3%Q] in
  get_col "age" (current s) = Some c
  ∧ NaN ∈ values c
  ∧ options (is_numeric_dtype (dty c)) !! 4 = Some "Fill with Custom Value"
  ∧ ∃ s', run (ApplyTo "age" 4 "2") s = Done s'
      ∧ get_col "age" (current s')
        = Some (Series "age" object_ [Num 1%Q; Str "2"; Num 3%Q])
      ∧ cleaning_log s' = ["Filled missing values in 'age' with custom value: 2."].
Proof.
  intros s c.
  assert (get_col "age" (current s) = Some c) as Hc by reflexivity.
  assert (NaN ∈ values c) as Hnan by by_evaluation.
  split; [exact Hc|]. split; [exact Hnan|]. split; [reflexivity|].
  destruct (custom_value_is_written_as_text s "age" "2" 4 c Hc Hnan eq_refl)
    as (s' & Hrun & Hcol & Hlog & _).
  exists s'. split; [exact Hrun|]. split.
  - rewrite Hcol. reflexivity.
  - rewrite Hlog. reflexivity.
Defined.

Lemma settled_column_is_not_offered_again_witness :
  let s := new_session people in
  let s' := after (run (ApplyTo "name" 2 "") s) s in
  let c := Series "name" object_ [Str "b"; Str "a"; NaN] in
  wf_frame (current s)
  ∧ get_col "name" (current s) = Some c
  ∧ options (is_numeric_dtype (dty c)) !! 2 = Some "Fill with Mode (Most Frequent)"
  ∧ run (ApplyTo "name" 2 "") s = Done s'
  ∧ ("name" ∉ cols_with_missing (current s'))
  ∧ ∀ choice text, run (ApplyTo "name" choice text) s' = NotOffered.
Proof.
  intros s s' c.
  assert (wf_frame (current s)) as Hwf by by_evaluation.
  assert (get_col "name" (current s) = Some c) as Hc by reflexivity.
  assert ("Fill with Mode (Most Frequent)"
          ∈ ["Delete rows with missing values"; "Fill with Mode (Most Frequent)";
             "Fill with Custom Value"]) as Hin by by_evaluation.
  assert (run (ApplyTo "name" 2 "") s = Done s') as Hrun by reflexivity.
  split; [exact Hwf|]. split; [exact Hc|]. split; [reflexivity|]. split; [exact Hrun|].
  exact (settled_column_is_not_offered_again s s' "name" ""
           "Fill with Mode (Most Frequent)" 2 c Hwf Hc eq_refl Hin Hrun).
Defined.

Lemma trim_once_is_enough_witness :
  let s := new_session cities in
  wf_frame (current s)
  ∧ accepted (current s)
  ∧ 0 < whitespace_issues (current s)
  ∧ ∃ s', run TrimAllWhitespace s = Done s'
      ∧ cleaning_log s' = ["Trimmed whitespace in 1 cells."]
      ∧ whitespace_issues (current s') = 0
      ∧ run TrimAllWhitespace s' = NotOffered.
Proof.
  intros s.
  assert (wf_frame (current s)) as Hwf by by_evaluation.
  assert (accepted (current s)) as Hacc by by_evaluation.
  assert (0 < whitespace_issues (current s)) as Hws by by_evaluation.
  split; [exact Hwf|]. split; [exact Hacc|]. split; [exact Hws|].
  destruct (trim_once_is_enough s Hwf Hacc Hws) as (s' & Hrun & Hlog & Hzero & Hnot & _).
  exists s'. split; [exact Hrun|]. split; [rewrite Hlog; reflexivity|].
  split; [exact Hzero|exact Hnot].
Defined.

Lemma trim_strips_text_and_blanks_other_values_witness :
  let s := run_all [ApplyTo "score" 4 "none"] (new_session survey) in
  let s' := after (run TrimAllWhitespace s) s in
  let c := Series "score" object_ [Num (3 # 2); Str "none"; Num (9 # 4)] in
  wf_frame (current s)
  ∧ accepted (current s)
  ∧ run TrimAllWhitespace s = Done s'
  ∧ current s !! 3 = Some c
  ∧ ∃ c', current s' !! 3 = Some c'
      ∧ values c' !! 0 = Some NaN
      ∧ values c' !! 1 = Some (Str "none")
      ∧ values c' !! 2 = Some NaN.
Proof.
  intros s s' c.
  assert (wf_frame (current s)) as Hwf by by_evaluation.
  assert (accepted (current s)) as Hacc by by_evaluation.
  assert (run TrimAllWhitespace s = Done s') as Hrun by reflexivity.
  assert (current s !! 3 = Some c) as Hj by reflexivity.
  split; [exact Hwf|]. split; [exact Hacc|]. split; [exact Hrun|]. split; [exact Hj|].
  destruct (trim_strips_text_and_blanks_other_values s s' 3 c Hwf Hacc Hrun Hj)
    as (c' & Hc' & _ & _ & Hobj).
  destruct (Hobj eq_refl) as (_ & _ & Hcells).
  exists c'. split; [exact Hc'|].
  split; [exact (Hcells 0 _ eq_refl)|].
  split; [exact (Hcells 1 _ eq_refl)|exact (Hcells 2 _ eq_refl)].
Defined.

Lemma trim_stops_at_the_first_rejected_column_witness :
  let s := new_session flags_last in
  let pre := [Series "name" object_ [Str " x"; Str "y"]] in
  let bad := Series "flag" object_ [Bool true; NaN] in
  wf_frame (current s)
  ∧ current s = pre ++ bad :: []
  ∧ 0 < whitespace_issues (current s)
  ∧ accepted pre
  ∧ dty bad = object_
  ∧ str_accessor_ok (values bad) = false
  ∧ ∃ s', run TrimAllWhitespace s = Raised AttributeError s'
      ∧ current s' = [Series "name" object_ [Str "x"; Str "y"]; bad]
      ∧ cleaning_log s' = []
      ∧ run ResetAllChanges s' = NotOffered.
Proof.
  intros s pre bad.
  assert (wf_frame (current s)) as Hwf by by_evaluation.
  assert (current s = pre ++ bad :: []) as Hd by reflexivity.
  assert (0 < whitespace_issues (current s)) as Hws by by_evaluation.
  assert (accepted pre) as Hacc by by_evaluation.
  split; [exact Hwf|]. split; [exact Hd|]. split; [exact Hws|]. split; [exact Hacc|].
  split; [reflexivity|]. split; [reflexivity|].
  destruct (trim_stops_at_the_first_rejected_column s pre [] bad
              Hwf Hd Hws Hacc eq_refl eq_refl) as (s' & Hrun & Hcur & Hlog & Hreset).
  exists s'. split; [exact Hrun|]. split; [|split].
  - rewrite Hcur. reflexivity.
  - rewrite Hlog. reflexivity.
  - exact (Hreset eq_refl).
Defined.

Lemma trim_log_counts_the_changed_cells_witness :
  let s := new_session cities in
  wf_frame (current s)
  ∧ text_only (current s)
  ∧ 0 < whitespace_issues (current s)
  ∧ ∃ s', run TrimAllWhitespace s = Done s'
      ∧ changed_cells (current s) (current s') = 1
      ∧ last (cleaning_log s') = Some "Trimmed whitespace in 1 cells.".
Proof.
  intros s.
  assert (wf_frame (current s)) as Hwf by by_evaluation.
  assert (text_only (current s)) as Htext by by_evaluation.
  assert (0 < whitespace_issues (current s)) as Hws by by_evaluation.
  split; [exact Hwf|]. split; [exact Htext|]. split; [exact Hws|].
  destruct (trim_log_counts_the_changed_cells s Hwf Htext Hws) as (s' & Hrun & Hlog).
  exists s'. split; [exact Hrun|].
  assert (Done s' = Done (after (run TrimAllWhitespace s) s)) as [= ->]
    by (rewrite <- Hrun; reflexivity).
  split; [reflexivity|]. rewrite Hlog. reflexivity.
Defined.

Lemma events_never_add_rows_or_columns_witness :
  let s := run_all [RemoveAllDuplicates; ApplyTo "city" 1 ""] (new_session visits) in
  wf_frame visits
  ∧ name <$> current s = ["city"; "visits"]
  ∧ nrows (current s) ≤ 5.
Proof.
  intros s.
  assert (wf_frame visits) as Hwf by by_evaluation.
  split; [exact Hwf|].
  exact (events_never_add_rows_or_columns visits
           [RemoveAllDuplicates; ApplyTo "city" 1 ""] Hwf).
Defined.

Lemma frames_stay_well_formed_witness :
  let s := run_all [TrimAllWhitespace; ApplyTo "flag" 1 ""] (new_session flags) in
  wf_frame flags
  ∧ wf_frame (original s)
  ∧ wf_frame (current s).
Proof.
  intros s.
  assert (wf_frame flags) as Hwf by by_evaluation.
  split; [exact Hwf|].
  exact (frames_stay_well_formed flags [TrimAllWhitespace; ApplyTo "flag" 1 ""] Hwf).
Defined.

Lemma second_upload_keeps_the_first_session_witness :
  let s0 := new_session flags in
  let s := run_all [ApplyTo "flag" 1 ""] s0 in
  load (chars flags_csv) None = Some s0
  ∧ read_csv (to_csv people) = Some people
  ∧ load (to_csv people) (Some s) = Some s
  ∧ read_csv (chars flags_csv) = Some (original s)
  ∧ current (reset s) = original s.
Proof.
  intros s0 s.
  assert (load (chars flags_csv) None = Some s0) as Hload by reflexivity.
  assert (read_csv (to_csv people) = Some people) as Hsecond by by_evaluation.
  split; [exact Hload|]. split; [exact Hsecond|].
  exact (second_upload_keeps_the_first_session (chars flags_csv) (to_csv people)
           s0 people [ApplyTo "flag" 1 ""] Hload Hsecond).
Defined.

Lemma splitext_splits_at_the_last_dot_witness :
  splitext "survey.2024.csv" = ("survey.2024", ".csv")
  ∧ "survey.2024" +:+ ".csv" = "survey.2024.csv"
  ∧ (".csv" = "" ∨ ∃ e, ".csv" = "." +:+ e ∧ (extsep ∉ chars e) ∧ (sep ∉ chars e)).
Proof.
  assert (splitext "survey.2024.csv" = ("survey.2024", ".csv")) as Hsplit by reflexivity.
  split; [exact Hsplit|].
  destruct (splitext_splits_at_the_last_dot _ _ _ Hsplit) as (Hparts & Hext & _).
  split; [exact Hparts|exact Hext].
Defined.

Lemma download_is_named_after_the_upload_witness :
  let s := after (run RemoveAllDuplicates (new_session visits)) (new_session visits) in
  cleaning_log s ≠ []
  ∧ (sep ∉ chars "visits") ∧ (sep ∉ chars "csv") ∧ (extsep ∉ chars "csv")
  ∧ (∃ a, a ∈ chars "visits" ∧ a ≠ extsep)
  ∧ download "visits.csv" s = Some ("visits_cleaned.csv", to_csv (current s)).
Proof.
  intros s.
  assert (cleaning_log s ≠ []) as Hlog by discriminate.
  assert (sep ∉ chars "visits") as Hbase by by_evaluation.
  assert (sep ∉ chars "csv") as He by by_evaluation.
  assert (extsep ∉ chars "csv") as Hdot by by_evaluation.
  assert (∃ a, a ∈ chars "visits" ∧ a ≠ extsep) as Hname.
  { exists "v"%char. split; [by_evaluation|discriminate]. }
  split; [exact Hlog|]. split; [exact Hbase|]. split; [exact He|]. split; [exact Hdot|].
  split; [exact Hname|].
  destruct (download_is_named_after_the_upload s "visits" "csv" Hlog Hbase He Hdot)
    as [Hnamed _].
  exact (Hnamed Hname).
Defined.

Lemma written_records_are_read_back_witness :
  let rs := [["city"; "note"]; ["Porto, PT"; ""]; [""; text [dquote; newline]]] in
  Forall good_row rs
  ∧ tokenize (concat (write_row <$> rs)) = Some rs.
Proof.
  intros rs.
  assert (Forall good_row rs) as Hrs.
  { repeat constructor; try discriminate; try by_evaluation; by intros f [=]. }
  split; [exact Hrs|]. exact (written_records_are_read_back rs Hrs).
Defined.

Lemma orders_loaded : read_csv (chars orders_csv) = Some orders.
Proof. reflexivity. Qed.

Lemma loaded_cells_are_missing_where_the_field_is_witness :
  let hdr := ["id"; "qty"; "qty"] in
  let data := [["1"; "2"; "tRUE"]; ["2"]] in
  tokenize (chars orders_csv) = Some (hdr :: data)
  ∧ plain_renaming hdr
  ∧ Forall (λ r, length r ≤ length hdr) data
  ∧ ∃ d c, read_csv (chars orders_csv) = Some d
      ∧ name <$> d = ["id"; "qty"; "qty.1"]
      ∧ d !! 1 = Some c
      ∧ isnull <$> values c = [false; true].
Proof.
  intros hdr data.
  assert (tokenize (chars orders_csv) = Some (hdr :: data)) as Htok by reflexivity.
  assert (plain_renaming hdr) as Hplain by (unfold plain_renaming; by_evaluation).
  assert (Forall (λ r, length r ≤ length hdr) data) as Hlen by by_evaluation.
  split; [exact Htok|]. split; [exact Hplain|]. split; [exact Hlen|].
  destruct (loaded_cells_are_missing_where_the_field_is
              (chars orders_csv) hdr data Htok Hplain Hlen)
    as (d & Hread & Hnames & _ & _ & _ & Hcells).
  assert (Some d = Some orders) as [= ->] by (rewrite <- Hread; reflexivity).
  eexists orders, _.
  split; [exact Hread|]. split; [exact Hnames|]. split; [reflexivity|].
  exact (Hcells 1 _ eq_refl).
Defined.


Lemma export_keeps_missing_cells_missing_witness :
  let T := current (after (run (ApplyTo "name" 3 "NA") (new_session cities))
                          (new_session cities)) in
  csv_safe T
  ∧ T !! 0 = Some (Series "name" object_ [Str "b"; Str "a"; Str "NA"])
  ∧ ∃ d' c', read_csv (to_csv T) = Some d'
      ∧ d' !! 0 = Some c'
      ∧ isnull <$> values c' = [false; false; true].
Proof.
  intros T.
  assert (csv_safe T) as Hsafe by by_evaluation.
  assert (T !! 0 = Some (Series "name" object_ [Str "b"; Str "a"; Str "NA"])) as Hj
    by reflexivity.
  split; [exact Hsafe|]. split; [exact Hj|].
  destruct (export_keeps_missing_cells_missing T Hsafe) as (d' & Hread & _ & Hcells).
  destruct (Hcells 0 _ Hj) as (c' & Hc' & Hnull).
  exists d', c'. split; [exact Hread|]. split; [exact Hc'|].
  rewrite Hnull. reflexivity.
Defined.

Lemma settling_a_column_lowers_the_missing_count_witness :
  let s := new_session people in
  let s' := after (run (ApplyTo "age" 1 "") s) s in
  let c := Series "age" float64 [Num 1%Q; NaN; Num 3%Q] in
  wf_frame (current s)
  ∧ current s !! 1 = Some c
  ∧ name c = "age"
  ∧ NaN ∈ values c
  ∧ run (ApplyTo "age" 1 "") s = Done s'
  ∧ total_missing (current s) = 2
  ∧ total_missing (current s') + 1 ≤ 2.
Proof.
  intros s s' c.
  assert (wf_frame (current s)) as Hwf by by_evaluation.
  assert (current s !! 1 = Some c) as Hj by reflexivity.
  assert (NaN ∈ values c) as Hnan by by_evaluation.
  assert (run (ApplyTo "age" 1 "") s = Done s') as Hrun by reflexivity.
  split; [exact Hwf|]. split; [exact Hj|]. split; [reflexivity|]. split; [exact Hnan|].
  split; [exact Hrun|]. split; [reflexivity|].
  destruct (settling_a_column_lowers_the_missing_count s "age" 1 c Hwf Hj eq_refl Hnan)
    as [Hdelete _].
  exact (Hdelete "" s' Hrun).
Defined.
